(** * Tower defense: a shallow embedding of [game.js]

    The classes of [game.js] ([Game], [Tower], [Enemy], [Projectile],
    [WaveManager]) are embedded as modules of the same names; a method that
    mutates [this] becomes a function returning the new object.

    Numbers.  JavaScript numbers are binary64 floating-point numbers.
    Coordinates, times, speeds, ranges, fire rates, cooldowns and timers are
    [float], the primitive binary64 numbers, with the IEEE operations the
    program applies to them in the order it applies them: [+], [-], [*],
    [/], [Math.sqrt] and the comparisons, every result rounded to the
    nearest double and every comparison with a NaN false.  Quantities that
    are integers and that the program only adds, subtracts and compares
    (money, score, lives, health, damage, reward, cost, level, cell
    indices) are [Z]; binary64 is exact on them below 2^53.  The one
    product among them, [damage * 1.5], is exact below 2^51.

    Object identity.  [Projectile.target] and the entries of [Game.enemies]
    point to the same [Enemy] objects, and an enemy spliced out of
    [Game.enemies] is still reachable from a projectile.  Enemy objects
    therefore live in a store ([Game.heap], a list indexed by allocation
    order, never shrunk); [Game.enemies] and [Projectile.target] hold
    indices into it. *)

From Stdlib Require Import ZArith QArith Qround Floats Lia String Bool.
From stdpp Require Import base list.

#[local] Set Warnings "-inexact-float".

Local Open Scope Z_scope.
Local Open Scope float_scope.

(** ** Numbers *)

(** The double nearest to an integer; the integer itself when it is a
    double. *)
Definition of_Z (z : Z) : float := SF2Prim (binary_normalize prec emax z 0 false).

(** [Math.floor(v)] as an integer.  There is none when [v] is NaN or
    infinite: [Math.floor] returns [v] itself then, every comparison of it
    with the bounds of the grid fails and no array has it as an index. *)
Definition floorZ (v : float) : option Z :=
  match Prim2SF v with
  | S754_zero _ => Some 0%Z
  | S754_finite s m e => Some (Z.shiftl (if s then Z.neg m else Z.pos m) e)
  | S754_infinity _ | S754_nan => None
  end.

(** [Math.floor(v)] as a number. *)
Definition floor (v : float) : float :=
  match Prim2SF v with
  | S754_finite s m e => of_Z (Z.shiftl (if s then Z.neg m else Z.pos m) e)
  | _ => v
  end.

(** [a ** 2].  Exponentiation by 2 is the product [a * a]. *)
Definition sq (a : float) : float := a * a.

(** The rational number that a finite double is. *)
Definition exact (v : float) : Q :=
  match Prim2SF v with
  | S754_finite s m e => (inject_Z (if s then Z.neg m else Z.pos m) * 2 ^ e)%Q
  | _ => 0%Q
  end.

(** ** Constants (game.js lines 26-30) *)

Definition CANVAS_WIDTH : float := 800.
Definition CANVAS_HEIGHT : float := 600.
Definition GRID_SIZE : float := 40.
Definition GRID_WIDTH : Z :=
  Eval vm_compute in default 0%Z (floorZ (CANVAS_WIDTH / GRID_SIZE)).
Definition GRID_HEIGHT : Z :=
  Eval vm_compute in default 0%Z (floorZ (CANVAS_HEIGHT / GRID_SIZE)).

Record Point := mkPoint { px : float; py : float }.

(** ** Archetype tables (set once by the [Game] constructor, never written) *)

Record TowerStats := mkTowerStats {
  ts_cost : Z; ts_damage : Z; ts_range : float; ts_fireRate : float;
  ts_color : string; ts_name : string }.

Record EnemyStats := mkEnemyStats {
  es_health : Z; es_speed : float; es_reward : Z; es_color : string; es_size : Z }.

(** The own properties of [this.towerTypes]. *)
Definition towerTypes (type : string) : option TowerStats :=
  if (type =? "basic")%string then
    Some (mkTowerStats 50 10 100 1 "blue" "Basic Tower")
  else if (type =? "sniper")%string then
    Some (mkTowerStats 100 30 200 0.5 "green" "Sniper Tower")
  else if (type =? "rapid")%string then
    Some (mkTowerStats 75 5 80 3 "orange" "Rapid Tower")
  else if (type =? "splash")%string then
    Some (mkTowerStats 120 15 90 1.2 "purple" "Splash Tower")
  else None.

(** The properties that an object literal inherits from [Object.prototype].
    [this.towerTypes[key]] is a function for these keys (the prototype
    itself for [__proto__]): a truthy value that has no [cost]. *)
Definition Object_prototype : list string :=
  [ "constructor"; "__defineGetter__"; "__defineSetter__"; "hasOwnProperty";
    "__lookupGetter__"; "__lookupSetter__"; "isPrototypeOf";
    "propertyIsEnumerable"; "toString"; "valueOf"; "__proto__";
    "toLocaleString" ]%string.

Definition inherited (key : string) : bool :=
  existsb (String.eqb key) Object_prototype.

(** The own properties of [this.enemyTypes]; the entries of the waves are
    among them. *)
Definition enemyTypes (type : string) : option EnemyStats :=
  if (type =? "basic")%string then Some (mkEnemyStats 50 1 10 "red" 20)
  else if (type =? "fast")%string then Some (mkEnemyStats 30 2 15 "yellow" 15)
  else if (type =? "tank")%string then Some (mkEnemyStats 150 0.5 30 "brown" 25)
  else if (type =? "boss")%string then Some (mkEnemyStats 300 0.3 100 "darkred" 30)
  else None.

(** ** The path and the grid (Game.createPath, Game.createGrid) *)

(** [for (let i = lo; i <= hi; i++) path.push(body(i))].  [fuel] bounds the
    recursion and [createPath] passes more than the loops need. *)
Fixpoint for_push (fuel : nat) (i hi : float) (body : float -> Point) : list Point :=
  match fuel with
  | O => []
  | S fuel' =>
      if i <=? hi then body i :: for_push fuel' (i + 1) hi body else []
  end.

Definition createPath : list Point :=
  let startX : float := 0 in
  let startY : float := floor (of_Z GRID_HEIGHT / 2) * GRID_SIZE in
  let w3 : float := of_Z GRID_WIDTH / 3 in
  let h3 : float := of_Z GRID_HEIGHT / 3 in
  [mkPoint startX startY]
  ++ for_push 64 1 w3 (fun i => mkPoint (i * GRID_SIZE) startY)
  ++ for_push 64 1 h3 (fun i => mkPoint (w3 * GRID_SIZE) (startY + i * GRID_SIZE))
  ++ for_push 64 (w3 + 1) (of_Z GRID_WIDTH)
       (fun i => mkPoint (i * GRID_SIZE) (startY + h3 * GRID_SIZE)).

Record Cell := mkCell { walkable : bool; tower : option nat }.

Abbreviation Grid := (list (list Cell)).

(** [grid[gridY] && grid[gridY][gridX]]: [undefined] outside the array,
    in particular at a negative index. *)
Definition grid_get (grid : Grid) (gridX gridY : Z) : option Cell :=
  if ((0 <=? gridY) && (0 <=? gridX))%Z
  then match grid !! Z.to_nat gridY with
       | Some row => row !! Z.to_nat gridX
       | None => None
       end
  else None.

Definition grid_alter (f : Cell -> Cell) (gridX gridY : Z) (grid : Grid) : Grid :=
  alter (alter f (Z.to_nat gridX)) (Z.to_nat gridY) grid.

(** [createGrid()], lines 80-97, for the path that [this.path] holds. *)
Definition createGrid (path : list Point) : Grid :=
  let blank :=
    replicate (Z.to_nat GRID_HEIGHT)
      (replicate (Z.to_nat GRID_WIDTH) (mkCell true None)) in
  fold_left
    (fun grid point =>
       match floorZ (px point / GRID_SIZE), floorZ (py point / GRID_SIZE) with
       | Some gridX, Some gridY =>
           if ((0 <=? gridY) && (gridY <? GRID_HEIGHT)
               && (0 <=? gridX) && (gridX <? GRID_WIDTH))%Z
           then grid_alter (fun c => mkCell false (tower c)) gridX gridY grid
           else grid
       | _, _ => grid
       end)
    path blank.

(** The path is a constant of the simulation: every [Enemy] keeps a
    reference to the array that [createPath] returns. *)
Definition game_path : list Point := Eval vm_compute in createPath.

(** ** class Enemy *)

Module Enemy.

Record t := mk {
  type : string;
  health : Z;
  maxHealth : Z;
  speed : float;
  reward : Z;
  color : string;
  size : Z;
  pathIndex : nat;
  x : float;
  y : float }.

(** [constructor(type, stats, path)]; [path] is [game_path], which has a
    first point. *)
Definition new (type : string) (stats : EnemyStats) (path : list Point) : t :=
  let start := default (mkPoint 0 0) (path !! 0%nat) in
  mk type (es_health stats) (es_health stats) (es_speed stats)
     (es_reward stats) (es_color stats) (es_size stats) 0 (px start) (py start).

Definition set_pos (e : t) (x' y' : float) : t :=
  mk (type e) (health e) (maxHealth e) (speed e) (reward e) (color e)
     (size e) (pathIndex e) x' y'.

Definition set_pathIndex (e : t) (i : nat) : t :=
  mk (type e) (health e) (maxHealth e) (speed e) (reward e) (color e)
     (size e) i (x e) (y e).

Definition set_health (e : t) (h : Z) : t :=
  mk (type e) h (maxHealth e) (speed e) (reward e) (color e)
     (size e) (pathIndex e) (x e) (y e).

(** [update(deltaTime)], lines 413-429. *)
Definition update (path : list Point) (deltaTime : float) (e : t) : t :=
  if (Z.of_nat (length path) - 1 <=? Z.of_nat (pathIndex e))%Z then
    set_pos e (x e + speed e * GRID_SIZE * deltaTime) (y e)
  else
    match path !! S (pathIndex e) with
    | None => e (* not reached: the index is below [length path - 1] *)
    | Some target =>
        let dx := px target - x e in
        let dy := py target - y e in
        let dist := sqrt (dx * dx + dy * dy) in
        if dist <? 1 then set_pathIndex e (S (pathIndex e))
        else set_pos e (x e + (dx / dist) * speed e * GRID_SIZE * deltaTime)
                       (y e + (dy / dist) * speed e * GRID_SIZE * deltaTime)
    end.

End Enemy.

(** The store of enemy objects. *)
Abbreviation Heap := (list Enemy.t).

(** ** class Projectile *)

Module Projectile.

(** [target] is a reference to an enemy object; [None] is [null]. *)
Record t := mk {
  x : float;
  y : float;
  target : option nat;
  damage : Z;
  color : string;
  speed : float;
  markedForDeletion : bool }.

(** [constructor(x, y, target, damage, color)] *)
Definition new (x y : float) (target : nat) (damage : Z) (color : string) : t :=
  mk x y (Some target) damage color 300 false.

Definition mark (p : t) : t :=
  mk (x p) (y p) (target p) (damage p) (color p) (speed p) true.

Definition set_pos (p : t) (x' y' : float) : t :=
  mk x' y' (target p) (damage p) (color p) (speed p) (markedForDeletion p).

(** [update(deltaTime)], lines 461-477.  The method writes the target's
    [health], so it takes and returns the store. *)
Definition update (deltaTime : float) (heap : Heap) (p : t) : Heap * t :=
  match target p with
  | None => (heap, mark p)
  | Some id =>
      match heap !! id with
      | None => (heap, p) (* a reference always designates an object *)
      | Some enemy =>
          if (Enemy.health enemy <=? 0)%Z then (heap, mark p)
          else
            let dx := Enemy.x enemy - x p in
            let dy := Enemy.y enemy - y p in
            let dist := sqrt (dx * dx + dy * dy) in
            if dist <? 5 then
              (<[id := Enemy.set_health enemy (Enemy.health enemy - damage p)]> heap,
               mark p)
            else
              (heap,
               set_pos p (x p + (dx / dist) * speed p * deltaTime)
                         (y p + (dy / dist) * speed p * deltaTime))
      end
  end.

End Projectile.

(** ** class Tower *)

Module Tower.

Record t := mk {
  x : float;
  y : float;
  type : string;
  damage : Z;
  range : float;
  fireRate : float;
  color : string;
  level : Z;
  fireCooldown : float;
  upgradeCost : Z }.

(** [constructor(x, y, type, stats)] *)
Definition new (x y : float) (type : string) (stats : TowerStats) : t :=
  mk x y type (ts_damage stats) (ts_range stats) (ts_fireRate stats)
     (ts_color stats) 1 0 50.

Definition set_fireCooldown (tw : t) (c : float) : t :=
  mk (x tw) (y tw) (type tw) (damage tw) (range tw) (fireRate tw)
     (color tw) (level tw) c (upgradeCost tw).

(** [upgrade()], lines 389-395.  [Math.floor(damage * 1.5)] of the integer
    [damage] is the floor of the exact product, which the product of the
    doubles is for a damage from 0 to 2^51 (lemma
    [floor_three_halves_binary64]). *)
Definition upgrade (tw : t) : t :=
  mk (x tw) (y tw) (type tw)
     (Qfloor (inject_Z (damage tw) * 1.5)%Q)
     (range tw + 10)
     (fireRate tw * 1.1)
     (color tw)
     (level tw + 1)%Z
     (fireCooldown tw)
     (upgradeCost tw + 25)%Z.

(** [Math.sqrt((enemy.x - this.x) ** 2 + (enemy.y - this.y) ** 2)] *)
Definition distance (tw : t) (enemy : Enemy.t) : float :=
  sqrt (sq (Enemy.x enemy - x tw) + sq (Enemy.y enemy - y tw)).

(** One iteration of [for (let enemy of enemies)], on the pair
    [(target, minDist)]. *)
Definition scan (tw : t) (heap : Heap) (acc : option nat * float) (id : nat)
  : option nat * float :=
  match heap !! id with
  | None => acc (* a reference always designates an object *)
  | Some enemy =>
      let dist := distance tw enemy in
      if (dist <=? range tw) && (dist <? snd acc)
      then (Some id, dist)
      else acc
  end.

(** [let target = null; let minDist = Infinity; for (...) {...}] *)
Definition findTarget (tw : t) (heap : Heap) (enemies : list nat) : option nat :=
  fst (fold_left (scan tw heap) enemies (None, infinity)).

(** [update(deltaTime, enemies, projectiles)], lines 348-367.  The second
    component is the projectile pushed onto [projectiles], if any. *)
Definition update (deltaTime : float) (heap : Heap) (enemies : list nat) (tw : t)
  : t * option Projectile.t :=
  let tw1 := set_fireCooldown tw (fireCooldown tw - deltaTime) in
  if fireCooldown tw1 <=? 0 then
    match findTarget tw1 heap enemies with
    | Some target =>
        (set_fireCooldown tw1 (1 / fireRate tw1),
         Some (Projectile.new (x tw1) (y tw1) target (damage tw1) (color tw1)))
    | None => (tw1, None)
    end
  else (tw1, None).

End Tower.

(** ** class WaveManager *)

Module WaveManager.

(** [waves[i].enemies] is the queue of wave [i]; [spawnTimer] is [None]
    while the field is [undefined].  The back reference [game] is replaced
    by passing the fields of the game that [update] reads and writes. *)
Record t := mk {
  waves : list (list string);
  currentWaveIndex : nat;
  waveCooldown : float;
  waveInterval : float;
  totalWaves : nat;
  spawnTimer : option float }.

(** [createWaves()] *)
Definition createWaves : list (list string) :=
  [ ["basic"; "basic"; "basic"; "basic"; "basic"];
    ["basic"; "fast"; "basic"; "fast"];
    ["basic"; "basic"; "tank"; "basic"];
    ["fast"; "fast"; "fast"; "tank"];
    ["tank"; "tank"; "basic"; "basic"; "fast"; "fast"];
    ["boss"; "basic"; "basic"; "tank"] ]%string.

(** [constructor(game)] *)
Definition new : t :=
  mk createWaves 0 0 5 (length createWaves) None.

(** [update(deltaTime)], lines 511-542, on the manager, [game.enemies] and
    the store. *)
Definition update (deltaTime : float) (wm : t) (enemies : list nat) (heap : Heap)
  : t * list nat * Heap :=
  match waves wm !! currentWaveIndex wm with
  | None => (wm, enemies, heap) (* currentWaveIndex >= waves.length *)
  | Some wave =>
      if 0 <? waveCooldown wm then
        (mk (waves wm) (currentWaveIndex wm) (waveCooldown wm - deltaTime)
            (waveInterval wm) (totalWaves wm) (spawnTimer wm),
         enemies, heap)
      else
        match wave with
        | enemyType :: rest =>
            let timer := default 0 (spawnTimer wm) + deltaTime in
            if 1 <=? timer then
              let waves' := <[currentWaveIndex wm := rest]> (waves wm) in
              let wm' := mk waves' (currentWaveIndex wm) (waveCooldown wm)
                            (waveInterval wm) (totalWaves wm) (Some 0) in
              match enemyTypes enemyType with
              | Some stats =>
                  (wm', enemies ++ [length heap],
                   heap ++ [Enemy.new enemyType stats game_path])
              | None => (wm', enemies, heap)
              end
            else
              (mk (waves wm) (currentWaveIndex wm) (waveCooldown wm)
                  (waveInterval wm) (totalWaves wm) (Some timer),
               enemies, heap)
        | [] =>
            if (length enemies =? 0)%nat then
              (mk (waves wm) (S (currentWaveIndex wm)) (waveInterval wm)
                  (waveInterval wm) (totalWaves wm) None,
               enemies, heap)
            else (wm, enemies, heap)
        end
  end.

End WaveManager.

(** ** class Game *)

(** What a command shows: the two [alert] calls, and the TypeError that
    line 131 raises when [this.towerTypes[this.selectedTowerType]] is
    [undefined] (reading [cost] of it throws, and the handler stops there,
    before any write).  No method of [Game] returns a value. *)
Inductive Alert :=
| NotEnoughMoney            (* alert('Not enough money!') *)
| NeedToUpgrade (cost : Z)  (* alert(`Need $${upgradeCost} to upgrade!`) *)
| UncaughtTypeError.        (* towerType.cost with towerType undefined *)

Module Game.

(** The simulation fields of [Game].  The canvas, the drawing context, the
    mouse position and the frame clock are input and output only and are
    left out; [towerTypes], [enemyTypes] and [path] are the constants
    above.  [heap] is the store of enemy objects. *)
Record t := mk {
  towers : list Tower.t;
  enemies : list nat;
  heap : Heap;
  projectiles : list Projectile.t;
  waveManager : WaveManager.t;
  money : Z;
  score : Z;
  lives : Z;
  gameOver : bool;
  gameWon : bool;
  selectedTowerType : string;
  placingTower : bool;
  grid : Grid }.

(** [this.createGrid()] as the constructor calls it, with what [this.path]
    holds at that point: [this.path.forEach] throws a TypeError when the
    field is still [undefined]. *)
Definition createGrid_of (path : option (list Point)) : option Grid :=
  createGrid <$> path.

(** [constructor(canvas)], lines 33-78.  The fields are assigned in the
    order of the source: the grid on line 52, the path on line 53.
    [createGrid] therefore runs while [this.path] is [undefined] and
    throws: [new Game(canvas)] returns no object. *)
Definition new : option t :=
  let path : option (list Point) := None in
  match createGrid_of path with
  | Some grid =>
      Some (mk [] [] [] [] WaveManager.new 150 0 20 false false "basic" false grid)
  | None => None
  end.

Definition set_towers (g : t) (v : list Tower.t) : t :=
  mk v (enemies g) (heap g) (projectiles g) (waveManager g) (money g)
     (score g) (lives g) (gameOver g) (gameWon g) (selectedTowerType g)
     (placingTower g) (grid g).

Definition set_enemies (g : t) (v : list nat) : t :=
  mk (towers g) v (heap g) (projectiles g) (waveManager g) (money g)
     (score g) (lives g) (gameOver g) (gameWon g) (selectedTowerType g)
     (placingTower g) (grid g).

Definition set_heap (g : t) (v : Heap) : t :=
  mk (towers g) (enemies g) v (projectiles g) (waveManager g) (money g)
     (score g) (lives g) (gameOver g) (gameWon g) (selectedTowerType g)
     (placingTower g) (grid g).

Definition set_projectiles (g : t) (v : list Projectile.t) : t :=
  mk (towers g) (enemies g) (heap g) v (waveManager g) (money g)
     (score g) (lives g) (gameOver g) (gameWon g) (selectedTowerType g)
     (placingTower g) (grid g).

Definition set_waveManager (g : t) (v : WaveManager.t) : t :=
  mk (towers g) (enemies g) (heap g) (projectiles g) v (money g)
     (score g) (lives g) (gameOver g) (gameWon g) (selectedTowerType g)
     (placingTower g) (grid g).

Definition set_money (g : t) (v : Z) : t :=
  mk (towers g) (enemies g) (heap g) (projectiles g) (waveManager g) v
     (score g) (lives g) (gameOver g) (gameWon g) (selectedTowerType g)
     (placingTower g) (grid g).

Definition set_score (g : t) (v : Z) : t :=
  mk (towers g) (enemies g) (heap g) (projectiles g) (waveManager g) (money g)
     v (lives g) (gameOver g) (gameWon g) (selectedTowerType g)
     (placingTower g) (grid g).

Definition set_lives (g : t) (v : Z) : t :=
  mk (towers g) (enemies g) (heap g) (projectiles g) (waveManager g) (money g)
     (score g) v (gameOver g) (gameWon g) (selectedTowerType g)
     (placingTower g) (grid g).

Definition set_gameOver (g : t) (v : bool) : t :=
  mk (towers g) (enemies g) (heap g) (projectiles g) (waveManager g) (money g)
     (score g) (lives g) v (gameWon g) (selectedTowerType g)
     (placingTower g) (grid g).

Definition set_gameWon (g : t) (v : bool) : t :=
  mk (towers g) (enemies g) (heap g) (projectiles g) (waveManager g) (money g)
     (score g) (lives g) (gameOver g) v (selectedTowerType g)
     (placingTower g) (grid g).

Definition set_placing (g : t) (type : string) (placing : bool) : t :=
  mk (towers g) (enemies g) (heap g) (projectiles g) (waveManager g) (money g)
     (score g) (lives g) (gameOver g) (gameWon g) type placing (grid g).

Definition set_grid (g : t) (v : Grid) : t :=
  mk (towers g) (enemies g) (heap g) (projectiles g) (waveManager g) (money g)
     (score g) (lives g) (gameOver g) (gameWon g) (selectedTowerType g)
     (placingTower g) v.

(** [startPlacingTower(type)]: [this.towerTypes[type]] is truthy for the
    keys of the table and for the inherited ones. *)
Definition startPlacingTower (type : string) (g : t) : t :=
  match towerTypes type with
  | Some _ => set_placing g type true
  | None => if inherited type then set_placing g type true else g
  end.

(** [upgradeTower(tower)], lines 166-174; the tower is designated by its
    index in [towers]. *)
Definition upgradeTower (i : nat) (g : t) : t * option Alert :=
  match towers g !! i with
  | None => (g, None)
  | Some tower =>
      let upgradeCost := (Tower.level tower * 25 + 50)%Z in
      if (upgradeCost <=? money g)%Z then
        (set_towers (set_money g (money g - upgradeCost))
                    (<[i := Tower.upgrade tower]> (towers g)),
         None)
      else (g, Some (NeedToUpgrade upgradeCost))
  end.

(** [for (let tower of this.towers) { ... if (dist <= tower.range) ... break }]
    of [handleClick]: the index of the first tower whose range circle
    contains the click, counting from [i]. *)
Fixpoint clickedTower (x y : float) (towers : list Tower.t) (i : nat) : option nat :=
  match towers with
  | [] => None
  | tower :: rest =>
      let dist := sqrt (sq (x - Tower.x tower) + sq (y - Tower.y tower)) in
      if dist <=? Tower.range tower then Some i
      else clickedTower x y rest (S i)
  end.

(** [handleClick(e)], lines 120-157; [x] and [y] are the click position
    relative to the canvas.  [gridX] and [gridY] index the grid as the
    integers they are, and enter the tower's position as numbers. *)
Definition handleClick (x y : float) (g : t) : t * option Alert :=
  if gameOver g then (g, None)
  else
    if placingTower g then
      match floorZ (x / GRID_SIZE), floorZ (y / GRID_SIZE) with
      | Some gridX, Some gridY =>
          match grid_get (grid g) gridX gridY with
          | Some cell =>
              if walkable cell then
                match towerTypes (selectedTowerType g) with
                | Some towerType =>
                    if (ts_cost towerType <=? money g)%Z then
                      let tower :=
                        Tower.new (floor (x / GRID_SIZE) * GRID_SIZE + GRID_SIZE / 2)
                                  (floor (y / GRID_SIZE) * GRID_SIZE + GRID_SIZE / 2)
                                  (selectedTowerType g) towerType in
                      let g1 := set_money g (money g - ts_cost towerType) in
                      let g2 := set_towers g1 (towers g1 ++ [tower]) in
                      let g3 :=
                        set_grid g2
                          (grid_alter (fun _ => mkCell false (Some (length (towers g))))
                                      gridX gridY (grid g2)) in
                      (set_placing g3 (selectedTowerType g3) false, None)
                    else (g, Some NotEnoughMoney)
                | None =>
                    (* an inherited key: [towerType.cost] is [undefined] and
                       [money >= undefined] is false; no key at all:
                       [towerType] is [undefined] and [towerType.cost] throws *)
                    if inherited (selectedTowerType g)
                    then (g, Some NotEnoughMoney)
                    else (g, Some UncaughtTypeError)
                end
              else (g, None)
          | None => (g, None)
          end
      | _, _ => (g, None)
      end
    else
      match clickedTower x y (towers g) 0 with
      | Some i => upgradeTower i g
      | None => (g, None)
      end.

(** The enemy loop of [update], lines 195-209:
    [for (let i = this.enemies.length - 1; i >= 0; i--)].  The loop goes
    from the last index down and splices at [i] only, so the entries
    below [i] are untouched when their turn comes: the tail of the list
    is processed before its head.  The result is what is left of
    [enemies], with the game after the loop. *)
Fixpoint updateEnemies (deltaTime : float) (enemies : list nat) (g : t) : list nat * t :=
  match enemies with
  | [] => ([], g)
  | id :: rest =>
      let '(rest', g1) := updateEnemies deltaTime rest g in
      match heap g1 !! id with
      | None => (id :: rest', g1) (* a reference always designates an object *)
      | Some enemy =>
          let enemy' := Enemy.update game_path deltaTime enemy in
          let g2 := set_heap g1 (<[id := enemy']> (heap g1)) in
          if (Enemy.health enemy' <=? 0)%Z then
            let g3 := set_money g2 (money g2 + Enemy.reward enemy') in
            (rest', set_score g3 (score g3 + Enemy.reward enemy'))
          else if CANVAS_WIDTH <? Enemy.x enemy' then
            let g3 := set_lives g2 (lives g2 - 1) in
            (rest', if (lives g3 <=? 0)%Z then set_gameOver g3 true else g3)
          else (id :: rest', g2)
      end
  end.

(** [this.towers.forEach(tower => tower.update(...))], lines 212-214: in
    order, each projectile pushed at the end of [projectiles]. *)
Fixpoint updateTowers (deltaTime : float) (heap : Heap) (enemies : list nat)
    (towers : list Tower.t) (projectiles : list Projectile.t)
  : list Tower.t * list Projectile.t :=
  match towers with
  | [] => ([], projectiles)
  | tower :: rest =>
      let '(tower', shot) := Tower.update deltaTime heap enemies tower in
      let projectiles' :=
        match shot with
        | Some p => projectiles ++ [p]
        | None => projectiles
        end in
      let '(rest', projectiles'') :=
        updateTowers deltaTime heap enemies rest projectiles' in
      (tower' :: rest', projectiles'')
  end.

(** The projectile loop, lines 217-222, from the last index down as for
    the enemies. *)
Fixpoint updateProjectiles (deltaTime : float) (projectiles : list Projectile.t)
    (heap : Heap) : list Projectile.t * Heap :=
  match projectiles with
  | [] => ([], heap)
  | p :: rest =>
      let '(rest', heap1) := updateProjectiles deltaTime rest heap in
      let '(heap2, p') := Projectile.update deltaTime heap1 p in
      (if Projectile.markedForDeletion p' then rest' else p' :: rest', heap2)
  end.

(** [update(deltaTime)], lines 188-228. *)
Definition update (deltaTime : float) (g : t) : t :=
  if gameOver g || gameWon g then g
  else
    let '(wm, enemies1, heap1) :=
      WaveManager.update deltaTime (waveManager g) (enemies g) (heap g) in
    let g1 := set_heap (set_enemies (set_waveManager g wm) enemies1) heap1 in
    let '(enemies2, g2) := updateEnemies deltaTime (enemies g1) g1 in
    let g3 := set_enemies g2 enemies2 in
    let '(towers', projectiles') :=
      updateTowers deltaTime (heap g3) (enemies g3) (towers g3) (projectiles g3) in
    let g4 := set_projectiles (set_towers g3 towers') projectiles' in
    let '(projectiles'', heap') :=
      updateProjectiles deltaTime (projectiles g4) (heap g4) in
    let g5 := set_heap (set_projectiles g4 projectiles'') heap' in
    if (length (WaveManager.waves (waveManager g5)) =? 0)%nat
       && (length (enemies g5) =? 0)%nat
    then set_gameWon g5 true
    else g5.

End Game.

(** ** Sessions *)

(** What the page does to a game: a frame ([gameLoop] calls [update] with the
    time since the last frame), a click on the canvas, a press on a tower
    button. *)
Inductive Command :=
| Tick (deltaTime : float)
| Click (x y : float)
| StartPlacing (type : string).

Definition step (c : Command) (g : Game.t) : Game.t :=
  match c with
  | Tick deltaTime => Game.update deltaTime g
  | Click x y => fst (Game.handleClick x y g)
  | StartPlacing type => Game.startPlacingTower type g
  end.

(** The game after the commands, in order, from the game [g]. *)
Definition run (cs : list Command) (g : Game.t) : Game.t :=
  fold_left (fun g c => step c g) cs g.

(** ** The life of one tower: frames and upgrades *)

Inductive TowerEvent :=
| Frame (deltaTime : float) (heap : Heap) (enemies : list nat)
| Upgrade.

(** The tower after the events when it fires in none of them. *)
Fixpoint silent (evs : list TowerEvent) (tw : Tower.t) : option Tower.t :=
  match evs with
  | [] => Some tw
  | Frame deltaTime heap enemies :: evs' =>
      match Tower.update deltaTime heap enemies tw with
      | (tw', None) => silent evs' tw'
      | (_, Some _) => None
      end
  | Upgrade :: evs' => silent evs' (Tower.upgrade tw)
  end.

(** The cooldown [c] after the events: every frame takes its frame time
    off, in binary64, and an upgrade leaves it alone. *)
Fixpoint cooled (evs : list TowerEvent) (c : float) : float :=
  match evs with
  | [] => c
  | Frame deltaTime _ _ :: evs' => cooled evs' (c - deltaTime)
  | Upgrade :: evs' => cooled evs' c
  end.

(** Simulated time over the events: the exact sum of the frame times. *)
Fixpoint elapsed (evs : list TowerEvent) : Q :=
  match evs with
  | [] => 0
  | Frame deltaTime _ _ :: evs' => exact deltaTime + elapsed evs'
  | Upgrade :: evs' => elapsed evs'
  end%Q.

(** ** Bookkeeping on the store *)

(** Health and reward of every enemy object, in allocation order. *)
Definition vitals (heap : Heap) : list (Z * Z) :=
  map (fun enemy => (Enemy.health enemy, Enemy.reward enemy)) heap.

(** The enemy [id] designates has no health left. *)
Definition dead (heap : Heap) (id : nat) : Prop :=
  exists enemy, heap !! id = Some enemy /\ (Enemy.health enemy <= 0)%Z.

(** The rewards of the entries of [enemies] that have no health left. *)
Fixpoint duePayout (heap : Heap) (enemies : list nat) : Z :=
  match enemies with
  | [] => 0
  | id :: rest =>
      match heap !! id with
      | Some enemy =>
          if (Enemy.health enemy <=? 0)%Z
          then Enemy.reward enemy + duePayout heap rest
          else duePayout heap rest
      | None => duePayout heap rest
      end
  end%Z.

(** From [heap] to [heap']: the same enemy objects in the same places, each
    with its reward and with no more health than before. *)
Definition wornDown (heap heap' : Heap) : Prop :=
  Forall2
    (fun enemy enemy' =>
       Enemy.reward enemy' = Enemy.reward enemy
       /\ (Enemy.health enemy' <= Enemy.health enemy)%Z)
    heap heap'.

(** ** What a session keeps *)

(** Money is not negative and no enemy object has a negative reward. *)
Definition solvent (g : Game.t) : Prop :=
  (0 <= Game.money g)%Z
  /\ Forall (fun enemy => (0 <= Enemy.reward enemy)%Z) (Game.heap g).

(** No tower and no projectile has a negative damage. *)
Definition damaging (g : Game.t) : Prop :=
  Forall (fun tw => (0 <= Tower.damage tw)%Z) (Game.towers g)
  /\ Forall (fun p => (0 <= Projectile.damage p)%Z) (Game.projectiles g).

(** Lives at 0 or below come with [gameOver]. *)
Definition livesChecked (g : Game.t) : Prop :=
  (Game.lives g <= 0)%Z -> Game.gameOver g = true.

(** The game is not won and its list of waves is not empty. *)
Definition unwon (g : Game.t) : Prop :=
  Game.gameWon g = false /\ WaveManager.waves (Game.waveManager g) <> [].

(** Every entry of the waves is a key of [enemyTypes]. *)
Definition knownWaves (waves : list (list string)) : Prop :=
  Forall (Forall (fun type => is_Some (enemyTypes type))) waves.

(** The queues of the scheduler: every entry is a key of [enemyTypes], the
    queues before the current wave are empty and the wave index is at most
    the number of waves. *)
Definition queuesInOrder (wm : WaveManager.t) : Prop :=
  knownWaves (WaveManager.waves wm)
  /\ (forall i, (i < WaveManager.currentWaveIndex wm)%nat ->
        WaveManager.waves wm !! i = Some [])
  /\ (WaveManager.currentWaveIndex wm <= length (WaveManager.waves wm))%nat.

(** The cells under the points of [path] are not walkable. *)
Definition pathBlocked (path : list Point) (grid : Grid) : Prop :=
  forall point gridX gridY cell,
    point ∈ path ->
    floorZ (px point / GRID_SIZE) = Some gridX ->
    floorZ (py point / GRID_SIZE) = Some gridY ->
    grid_get grid gridX gridY = Some cell ->
    walkable cell = false.

(** The cells that hold a tower are not walkable. *)
Definition towersBlocked (grid : Grid) : Prop :=
  forall gridX gridY cell,
    grid_get grid gridX gridY = Some cell -> tower cell <> None ->
    walkable cell = false.

(** From [heap] to [heap']: the same enemy objects in the same places, each
    of the type it had and, if its path index was in the path, with a path
    index in the path. *)
Definition sameCast (heap heap' : Heap) : Prop :=
  Forall2
    (fun enemy enemy' =>
       Enemy.type enemy' = Enemy.type enemy
       /\ ((Enemy.pathIndex enemy < length game_path)%nat ->
           (Enemy.pathIndex enemy' < length game_path)%nat))
    heap heap'.

(** Every entry of [enemies] and every projectile target designates an
    enemy object, no enemy is listed twice, and the projectiles in the list
    are unmarked and fly at 300. *)
Definition wellReferenced (g : Game.t) : Prop :=
  Forall (fun id => (id < length (Game.heap g))%nat) (Game.enemies g)
  /\ NoDup (Game.enemies g)
  /\ Forall
       (fun p =>
          Projectile.markedForDeletion p = false
          /\ Projectile.speed p = 300
          /\ exists id, Projectile.target p = Some id
                        /\ (id < length (Game.heap g))%nat)
       (Game.projectiles g)
  /\ Forall (fun enemy => (Enemy.pathIndex enemy < length game_path)%nat) (Game.heap g).

(** From the game [g0] to the game [g]: the lives taken and the enemies
    listed now are together no more than the enemies listed then and those
    created since. *)
Definition livesAccounted (g0 g : Game.t) : Prop :=
  (Game.lives g0 - Game.lives g + Z.of_nat (length (Game.enemies g))
   <= Z.of_nat (length (Game.enemies g0))
      + (Z.of_nat (length (Game.heap g)) - Z.of_nat (length (Game.heap g0))))%Z
  /\ (Game.lives g <= Game.lives g0)%Z.

(** A tower as building and upgrading leave it: its type is a key of the
    table and its colour the one of the table, its level is at least 1, the
    [upgradeCost] field is 25 per level plus 25, and the damage is not
    negative. *)
Definition towerBuilt (tw : Tower.t) : Prop :=
  (1 <= Tower.level tw)%Z
  /\ Tower.upgradeCost tw = (25 * Tower.level tw + 25)%Z
  /\ (0 <= Tower.damage tw)%Z
  /\ exists stats,
       towerTypes (Tower.type tw) = Some stats
       /\ Tower.color tw = ts_color stats.

(** The centre of the cells of index [i], as [handleClick] computes it. *)
Definition cellCentre (i : Z) : float := of_Z i * GRID_SIZE + GRID_SIZE / 2.

(** Towers and grid agree: a cell that names a tower names one that stands
    at its centre, every tower is named by the cell it stands in, a cell
    that names a tower is not walkable, and the grid has at most
    [GRID_HEIGHT] rows of at most [GRID_WIDTH] cells. *)
Definition towersOnGrid (g : Game.t) : Prop :=
  (forall gridX gridY cell i,
     grid_get (Game.grid g) gridX gridY = Some cell -> tower cell = Some i ->
     exists tw, Game.towers g !! i = Some tw
                /\ Tower.x tw = cellCentre gridX /\ Tower.y tw = cellCentre gridY)
  /\ (forall i tw,
        Game.towers g !! i = Some tw ->
        exists gridX gridY cell,
          grid_get (Game.grid g) gridX gridY = Some cell /\ tower cell = Some i
          /\ Tower.x tw = cellCentre gridX /\ Tower.y tw = cellCentre gridY)
  /\ towersBlocked (Game.grid g)
  /\ (forall gridX gridY cell,
        grid_get (Game.grid g) gridX gridY = Some cell ->
        (gridX < GRID_WIDTH)%Z /\ (gridY < GRID_HEIGHT)%Z).

(** ** The frame loop (Game.gameLoop) *)

(** The game with the two things [gameLoop] adds to it: [lastTime], and
    whether a frame is requested ([requestAnimationFrame] was called and its
    callback has not run yet).  Drawing is output only and left out. *)
Record Loop := mkLoop { loopGame : Game.t; lastTime : float; requested : bool }.

(** [gameLoop(time)], lines 176-186; [time] is in milliseconds. *)
Definition gameLoop (time : float) (l : Loop) : Loop :=
  let deltaTime := (time - lastTime l) / 1000 in
  let g := Game.update deltaTime (loopGame l) in
  mkLoop g time (negb (Game.gameOver g) && negb (Game.gameWon g)).

(** The browser runs the callback at [time] if a frame is requested. *)
Definition animationFrame (time : float) (l : Loop) : Loop :=
  if requested l then gameLoop time l else l.

Definition animationFrames (times : list float) (l : Loop) : Loop :=
  fold_left (fun l time => animationFrame time l) times l.

(** ** Sample objects, to run the model on *)

(** A game with the fields that lines 41-51 of the constructor assign and
    with the grid that [createGrid] builds for the path. *)
Definition startGame : Game.t :=
  Game.mk [] [] [] [] WaveManager.new 150 0 20 false false "basic" false
    (createGrid game_path).

Definition basicTowerStats : TowerStats :=
  mkTowerStats 50 10 100 1 "blue" "Basic Tower".

Definition basicEnemyStats : EnemyStats := mkEnemyStats 50 1 10 "red" 20.

(** A new basic tower in the middle of the cell (0, 0). *)
Definition sampleTower : Tower.t := Tower.new 20 20 "basic" basicTowerStats.

(** A basic enemy with the given health, at the given place on the last
    stretch of the path. *)
Definition sampleEnemy (health : Z) (x y : float) : Enemy.t :=
  Enemy.mk "basic" health 50 1 10 "red" 20 24 x y.

(** The first wave has been spawned in full, a basic tower stands in the
    cell (19, 11) next to the end of the path and has 0.5 seconds to go
    before its next shot. *)
Definition lateFirstWave : Game.t :=
  Game.set_towers
    (Game.set_money
       (Game.set_waveManager startGame
          (WaveManager.mk (<[0%nat := []]> WaveManager.createWaves) 0 0 5 6 (Some 0)))
       100)
    [Tower.set_fireCooldown (Tower.new 780 460 "basic" basicTowerStats) 0.5].

(** The last enemy of the wave has left through the right edge with 50
    health (the enemy loop took it out of [enemies] and took a life) while a
    projectile aimed at it is still in flight, 2 away from it. *)
Definition escapedTargetGame : Game.t :=
  Game.set_lives
    (Game.set_projectiles
       (Game.set_heap lateFirstWave [sampleEnemy 50 850 480])
       [Projectile.new 848 480 0 10 "blue"])
    19.

(** The game after the sixth wave is cleared with 12 lives left: the wave
    index is past the last wave, every queue is empty, no enemy is left. *)
Definition allWavesDoneGame : Game.t :=
  Game.set_lives
    (Game.set_waveManager startGame
       (WaveManager.mk [[]; []; []; []; []; []] 6 5 5 6 None))
    12.

(** A session without towers.  A frame of 100 seconds carries the enemy it
    spawns straight past the right edge (its first step is
    [speed * 40 * 100] to the right), so such a frame costs one life; after
    each wave one frame moves to the next wave and one sits out the
    cooldown.  That takes the 17 enemies of waves 1 to 4 and the two tanks
    of wave 5, leaving 1 life.  Two frames of 1 second then put two basic
    enemies on the first stretch of the path, and in the last frame of 100
    seconds the fast enemy it spawns and the older of the two basic enemies
    both pass the right edge. *)
Definition towerlessSession : list Command :=
  repeat (Tick 100) 5 ++ [Tick 100; Tick 100]
  ++ repeat (Tick 100) 4 ++ [Tick 100; Tick 100]
  ++ repeat (Tick 100) 4 ++ [Tick 100; Tick 100]
  ++ repeat (Tick 100) 4 ++ [Tick 100; Tick 100]
  ++ repeat (Tick 100) 2
  ++ [Tick 1; Tick 1; Tick 100].

(** A short session: a basic tower is placed in the cell (0, 0), then two
    frames of a second each spawn the first two enemies. *)
Definition openingSession : list Command :=
  [StartPlacing "basic"; Click 20 20; Tick 1; Tick 1].


(* ===================================================================== *)
(** * Properties *)
(* ===================================================================== *)

(** ** The order of the doubles *)

(** The comparisons of binary64, read on the sign, the exponent and the
    mantissa: [<=] is a total preorder on the doubles that are not NaN, and
    [<] its strict part. *)

Ltac SF_cases :=
  repeat match goal with
  | |- context [(?a ?= ?b)%Z] => destruct (Z.compare_spec a b)
  | H : context [(?a ?= ?b)%Z] |- _ => destruct (Z.compare_spec a b)
  | |- context [Pos.compare_cont Eq ?a ?b] =>
      change (Pos.compare_cont Eq a b) with (Pos.compare a b);
      destruct (Pos.compare_spec a b)
  | H : context [Pos.compare_cont Eq ?a ?b] |- _ =>
      change (Pos.compare_cont Eq a b) with (Pos.compare a b) in H;
      destruct (Pos.compare_spec a b)
  end.

Ltac SF_order :=
  unfold SFltb, SFleb;
  repeat match goal with f : spec_float |- _ => destruct f end;
  simpl; try discriminate; try reflexivity;
  repeat match goal with s : bool |- _ => destruct s end;
  simpl; try discriminate; try reflexivity;
  SF_cases; simpl; try discriminate; try reflexivity; try lia.

Lemma SFltb_leb_trans (a b c : spec_float) :
  SFltb a b = true -> SFleb b c = true -> SFltb a c = true.
Proof. SF_order. Qed.

Lemma SFleb_trans (a b c : spec_float) :
  SFleb a b = true -> SFleb b c = true -> SFleb a c = true.
Proof. SF_order. Qed.

Lemma SFleb_total (a b : spec_float) :
  SFleb a a = true -> SFleb b b = true -> SFltb a b = false -> SFleb b a = true.
Proof. SF_order. Qed.

Lemma SFleb_refl_l (a b : spec_float) : SFleb a b = true -> SFleb a a = true.
Proof. SF_order. Qed.

Lemma SFleb_refl_r (a b : spec_float) : SFleb a b = true -> SFleb b b = true.
Proof. SF_order. Qed.

Lemma ltb_leb (a b : float) : (a <? b) = true -> (a <=? b) = true.
Proof.
  rewrite ltb_spec, leb_spec. unfold SFltb, SFleb.
  destruct (SFcompare _ _) as [[]|]; congruence.
Qed.

Lemma ltb_leb_trans (a b c : float) :
  (a <? b) = true -> (b <=? c) = true -> (a <? c) = true.
Proof. rewrite !ltb_spec, leb_spec. apply SFltb_leb_trans. Qed.

Lemma leb_trans (a b c : float) :
  (a <=? b) = true -> (b <=? c) = true -> (a <=? c) = true.
Proof. rewrite !leb_spec. apply SFleb_trans. Qed.

Lemma leb_refl_l (a b : float) : (a <=? b) = true -> (a <=? a) = true.
Proof. rewrite !leb_spec. apply SFleb_refl_l. Qed.

Lemma leb_refl_r (a b : float) : (a <=? b) = true -> (b <=? b) = true.
Proof. rewrite !leb_spec. apply SFleb_refl_r. Qed.

(** Two doubles that are not NaN compare one way or the other. *)
Lemma leb_total (a b : float) :
  (a <=? a) = true -> (b <=? b) = true -> (a <? b) = false -> (b <=? a) = true.
Proof. rewrite !leb_spec, ltb_spec. apply SFleb_total. Qed.

(** ** The path loops end by their test *)

(** With fewer points than fuel, the loop stopped because [i <= hi] failed,
    and more fuel gives the same points. *)
Lemma for_push_enough (body : float -> Point) (hi : float) (fuel : nat) : forall i more,
  (length (for_push fuel i hi body) < fuel)%nat ->
  for_push (fuel + more) i hi body = for_push fuel i hi body.
Proof.
  induction fuel as [|fuel IH]; intros i more Hlen; simpl in *; [lia|].
  destruct (i <=? hi); [|reflexivity].
  simpl in Hlen. rewrite IH; [reflexivity|lia].
Qed.

Lemma createPath_points :
  createPath = game_path /\ length game_path = 25%nat
  /\ (length (for_push 64 1 (of_Z GRID_WIDTH / 3)
                (fun i => mkPoint (i * GRID_SIZE) 280)) < 64)%nat
  /\ (length (for_push 64 1 (of_Z GRID_HEIGHT / 3)
                (fun i => mkPoint 0 (i * GRID_SIZE))) < 64)%nat
  /\ (length (for_push 64 (of_Z GRID_WIDTH / 3 + 1) (of_Z GRID_WIDTH)
                (fun i => mkPoint (i * GRID_SIZE) 480)) < 64)%nat.
Proof.
  split; [vm_compute; reflexivity|]. split; [reflexivity|].
  repeat split; vm_compute; lia.
Qed.

(** The constants are what lines 29 and 30 compute. *)
Lemma grid_dimensions :
  floorZ (CANVAS_WIDTH / GRID_SIZE) = Some GRID_WIDTH
  /\ floorZ (CANVAS_HEIGHT / GRID_SIZE) = Some GRID_HEIGHT.
Proof. split; vm_compute; reflexivity. Qed.

(** No game comes out of the constructor. *)
Lemma constructor_throws : Game.new = None.
Proof. reflexivity. Qed.

(** ** Upgrades (C4) *)

(** [Math.floor(this.damage * 1.5)], in binary64.  The damage is an integer
    [d]; below 2^52 the double of [d] is [d] itself, with a mantissa of 53
    digits; the product with 1.5 has a mantissa of 105 or 106 digits whose
    low bits are all 0 when [d] is below 2^51, so the rounding drops them
    and the product is exact. *)

Lemma digits2_size (p : positive) : digits2_pos p = Pos.size p.
Proof. induction p as [p IH|p IH|]; simpl; congruence. Qed.

Lemma digits2_bounds (p : positive) :
  (2 ^ (Z.pos (digits2_pos p) - 1) <= Z.pos p < 2 ^ Z.pos (digits2_pos p))%Z.
Proof.
  rewrite digits2_size. pose proof (Pos.size_gt p) as Hgt. pose proof (Pos.size_le p) as Hle.
  apply Pos2Z.pos_lt_pos in Hgt. apply Pos2Z.pos_le_pos in Hle.
  rewrite Pos2Z.inj_pow in Hgt, Hle.
  assert (E : (2 ^ Z.pos (Pos.size p) = 2 * 2 ^ (Z.pos (Pos.size p) - 1))%Z).
  { rewrite <- Z.pow_succ_r by lia. f_equal. lia. }
  rewrite (Pos2Z.inj_xO p) in Hle. lia.
Qed.

Lemma digits2_unique (p : positive) (n : Z) :
  (2 ^ (n - 1) <= Z.pos p < 2 ^ n)%Z -> Z.pos (digits2_pos p) = n.
Proof.
  intros [Hlo Hhi]. pose proof (digits2_bounds p) as [Blo Bhi].
  assert (0 < n)%Z.
  { destruct (Z.lt_trichotomy n 0) as [N|[N|N]]; [|subst; simpl in Hhi; lia|lia].
    rewrite Z.pow_neg_r in Hhi by lia. lia. }
  destruct (Z.lt_trichotomy (Z.pos (digits2_pos p)) n) as [L|[E|G]]; [|exact E|].
  - assert (2 ^ Z.pos (digits2_pos p) <= 2 ^ (n - 1))%Z
      by (apply Z.pow_le_mono_r; lia). lia.
  - assert (2 ^ n <= 2 ^ (Z.pos (digits2_pos p) - 1))%Z
      by (apply Z.pow_le_mono_r; lia). lia.
Qed.

Lemma iter_xO_Z (p k : positive) : Z.pos (Pos.iter xO p k) = (Z.pos p * 2 ^ Z.pos k)%Z.
Proof.
  induction k as [|k IH] using Pos.peano_ind.
  - simpl. lia.
  - rewrite Pos.iter_succ, Pos2Z.inj_xO, IH, Pos2Z.inj_succ, Z.pow_succ_r by lia. lia.
Qed.

Lemma iter_pos_nat {A} (f : A -> A) (n : positive) : forall x,
  SpecFloat.iter_pos f n x = Nat.iter (Pos.to_nat n) f x.
Proof.
  induction n as [n IH|n IH|]; intros x.
  - change (SpecFloat.iter_pos f n~1 x)
      with (SpecFloat.iter_pos f n (SpecFloat.iter_pos f n (f x))).
    rewrite !IH, Pos2Nat.inj_xI, <- Nat.iter_add, <- Nat.iter_succ_r.
    f_equal. lia.
  - change (SpecFloat.iter_pos f n~0 x)
      with (SpecFloat.iter_pos f n (SpecFloat.iter_pos f n x)).
    rewrite !IH, Pos2Nat.inj_xO, <- Nat.iter_add. f_equal. lia.
  - reflexivity.
Qed.

Lemma shr_iter_xO (s : positive) : forall q,
  SpecFloat.iter_pos shr_1 s (Build_shr_record (Z.pos (Pos.iter xO q s)) false false)
  = Build_shr_record (Z.pos q) false false.
Proof.
  intros q. rewrite iter_pos_nat.
  induction s as [|s IH] using Pos.peano_ind.
  - reflexivity.
  - rewrite Pos.iter_succ, Pos2Nat.inj_succ, Nat.iter_succ_r. simpl shr_1. exact IH.
Qed.

(** A mantissa of 53 digits goes through the rounding as it is. *)
Lemma binary_round_aux_53 (s : bool) (m : positive) (e : Z) :
  Z.pos (digits2_pos m) = 53%Z -> (-1074 <= e <= 971)%Z ->
  binary_round_aux prec emax s (Z.pos m) e loc_Exact = S754_finite s m e.
Proof.
  intros Hd He. unfold binary_round_aux, shr_fexp, fexp, emin, prec, emax.
  cbn [Zdigits2 shr_record_of_loc]. rewrite Hd.
  replace (Z.max (53 + e - 53) (3 - 1024 - 53) - e)%Z with 0%Z by lia.
  cbn [shr shr_m loc_of_shr_record round_nearest_even Zdigits2 shr_record_of_loc].
  rewrite Hd.
  replace (Z.max (53 + e - 53) (3 - 1024 - 53) - e)%Z with 0%Z by lia.
  cbn [shr shr_m]. destruct (Z.leb_spec e (1024 - 53)); [reflexivity|lia].
Qed.

(** A mantissa with more digits whose low bits are all 0 loses them. *)
Lemma binary_round_aux_exact (s : bool) (m : positive) (k : positive) (e : Z) :
  Z.pos (digits2_pos m) = 53%Z -> (-1074 <= e + Z.pos k <= 971)%Z ->
  binary_round_aux prec emax s (Z.pos (Pos.iter xO m k)) e loc_Exact
  = S754_finite s m (e + Z.pos k).
Proof.
  intros Hd He.
  assert (Hdk : Z.pos (digits2_pos (Pos.iter xO m k)) = (53 + Z.pos k)%Z).
  { apply digits2_unique. rewrite iter_xO_Z.
    pose proof (digits2_bounds m) as [Blo Bhi]. rewrite Hd in Blo, Bhi.
    replace (53 + Z.pos k - 1)%Z with (52 + Z.pos k)%Z by lia.
    rewrite !Z.pow_add_r by lia. simpl (53 - 1)%Z in Blo.
    assert (0 < 2 ^ Z.pos k)%Z by (apply Z.pow_pos_nonneg; lia). nia. }
  unfold binary_round_aux, shr_fexp, fexp, emin, prec, emax.
  cbn [Zdigits2 shr_record_of_loc]. rewrite Hdk.
  replace (Z.max (53 + Z.pos k + e - 53) (3 - 1024 - 53) - e)%Z with (Z.pos k) by lia.
  cbn [shr]. rewrite shr_iter_xO.
  cbn [shr_m loc_of_shr_record round_nearest_even Zdigits2 shr_record_of_loc].
  rewrite Hd.
  replace (Z.max (53 + (e + Z.pos k) - 53) (3 - 1024 - 53) - (e + Z.pos k))%Z
    with 0%Z by lia.
  cbn [shr shr_m]. destruct (Z.leb_spec (e + Z.pos k) (1024 - 53)); [reflexivity|lia].
Qed.

(** The double of a positive integer below 2^52: the integer itself. *)
Lemma Prim2SF_of_Z (p : positive) :
  (Z.pos p < 2 ^ 52)%Z ->
  Prim2SF (of_Z (Z.pos p))
  = S754_finite false (Pos.iter xO p (Z.to_pos (53 - Z.pos (digits2_pos p))))
      (Z.pos (digits2_pos p) - 53).
Proof.
  intros Hp. pose proof (digits2_bounds p) as [Blo Bhi].
  assert (Hn : (Z.pos (digits2_pos p) <= 52)%Z).
  { destruct (Z.le_gt_cases (Z.pos (digits2_pos p)) 52) as [L|G]; [exact L|].
    assert (2 ^ 52 <= 2 ^ (Z.pos (digits2_pos p) - 1))%Z
      by (apply Z.pow_le_mono_r; lia). lia. }
  set (n := Z.pos (digits2_pos p)) in *.
  set (k := Z.to_pos (53 - n)).
  assert (Hk : Z.pos k = (53 - n)%Z) by (unfold k; rewrite Z2Pos.id; lia).
  assert (Hd : Z.pos (digits2_pos (Pos.iter xO p k)) = 53%Z).
  { apply digits2_unique. rewrite iter_xO_Z, Hk.
    replace (2 ^ (53 - 1))%Z with (2 ^ (n - 1) * 2 ^ (53 - n))%Z
      by (rewrite <- Z.pow_add_r by lia; f_equal; lia).
    replace (2 ^ 53)%Z with (2 ^ n * 2 ^ (53 - n))%Z
      by (rewrite <- Z.pow_add_r by lia; f_equal; lia).
    assert (0 < 2 ^ (53 - n))%Z by (apply Z.pow_pos_nonneg; lia). nia. }
  assert (E : binary_normalize prec emax (Z.pos p) 0 false
              = S754_finite false (Pos.iter xO p k) (n - 53)).
  { unfold binary_normalize, binary_round, shl_align, fexp, emin, prec, emax.
    fold n. replace (Z.max (n + 0 - 53) (3 - 1024 - 53) - 0)%Z with (Z.neg k) by lia.
    replace (Z.max (n + 0 - 53) (3 - 1024 - 53))%Z with (n - 53)%Z by lia.
    apply (binary_round_aux_53 false _ _ Hd). lia. }
  unfold of_Z. rewrite E. apply Prim2SF_SF2Prim.
  unfold valid_binary, bounded, canonical_mantissa, fexp, emin, prec, emax.
  rewrite Hd. apply andb_true_intro. split; [apply Z.eqb_eq|apply Z.leb_le]; lia.
Qed.

(** [Math.floor(damage * 1.5)] on a damage below 2^51: the product of the
    doubles is the exact product, and its floor is [3 * damage / 2]. *)
Lemma floor_three_halves_binary64 (d : Z) :
  (0 <= d < 2 ^ 51)%Z -> floorZ (of_Z d * 1.5) = Some (3 * d / 2)%Z.
Proof.
  intros [H0 Hd]. destruct d as [|p|p]; [vm_compute; reflexivity| |lia].
  unfold floorZ. rewrite mul_spec, Prim2SF_of_Z by lia.
  change (Prim2SF 1.5) with (S754_finite false 6755399441055744 (-52)).
  unfold SF64mul, SFmul. cbn [xorb].
  pose proof (digits2_bounds p) as [Blo Bhi].
  set (n := Z.pos (digits2_pos p)) in *.
  assert (Hn : (n <= 51)%Z).
  { destruct (Z.le_gt_cases n 51) as [L|G]; [exact L|].
    assert (2 ^ 51 <= 2 ^ (n - 1))%Z by (apply Z.pow_le_mono_r; lia). lia. }
  assert (Hn1 : (1 <= n)%Z) by (unfold n; lia).
  set (k := Z.to_pos (53 - n)).
  assert (Hk : Z.pos k = (53 - n)%Z) by (unfold k; rewrite Z2Pos.id; lia).
  pose proof (digits2_bounds (3 * p)) as [Qlo Qhi].
  set (D := Z.pos (digits2_pos (3 * p))) in *.
  assert (HD1 : (n + 1 <= D)%Z).
  { destruct (Z.le_gt_cases (n + 1) D) as [L|G]; [exact L|].
    assert (2 ^ D <= 2 ^ n)%Z by (apply Z.pow_le_mono_r; unfold D; lia).
    assert (2 ^ n = 2 * 2 ^ (n - 1))%Z
      by (rewrite <- Z.pow_succ_r by lia; f_equal; lia). lia. }
  assert (HD2 : (D <= n + 2)%Z).
  { destruct (Z.le_gt_cases D (n + 2)) as [L|G]; [exact L|].
    assert (2 ^ (n + 2) <= 2 ^ (D - 1))%Z by (apply Z.pow_le_mono_r; lia).
    assert (2 ^ (n + 2) = 2 ^ n * 4)%Z by (rewrite Z.pow_add_r by lia; reflexivity).
    lia. }
  set (m := Z.to_pos (Z.pos (3 * p) * 2 ^ (53 - D))).
  assert (Hpow : (0 < 2 ^ (53 - D))%Z) by (apply Z.pow_pos_nonneg; lia).
  assert (Hm : Z.pos m = (Z.pos (3 * p) * 2 ^ (53 - D))%Z)
    by (unfold m; rewrite Z2Pos.id; lia).
  assert (Hdm : Z.pos (digits2_pos m) = 53%Z).
  { apply digits2_unique. rewrite Hm.
    replace (2 ^ (53 - 1))%Z with (2 ^ (D - 1) * 2 ^ (53 - D))%Z
      by (rewrite <- Z.pow_add_r by lia; f_equal; lia).
    replace (2 ^ 53)%Z with (2 ^ D * 2 ^ (53 - D))%Z
      by (rewrite <- Z.pow_add_r by lia; f_equal; lia).
    nia. }
  set (s := Z.to_pos (51 + D - n)).
  assert (Hs : Z.pos s = (51 + D - n)%Z) by (unfold s; rewrite Z2Pos.id; lia).
  assert (HM : (Pos.iter xO p k * 6755399441055744)%positive = Pos.iter xO m s).
  { apply Pos2Z.inj. rewrite Pos2Z.inj_mul, !iter_xO_Z, Hm, Hk, Hs, Pos2Z.inj_mul.
    change (Z.pos 6755399441055744) with (3 * 2 ^ 51)%Z. change (Z.pos 3) with 3%Z.
    replace (51 + D - n)%Z with ((53 - n) + 51 - (53 - D))%Z by lia.
    assert (E : (2 ^ (53 - n) * 2 ^ 51 = 2 ^ (53 - D) * 2 ^ (53 - n + 51 - (53 - D)))%Z).
    { rewrite <- !Z.pow_add_r by lia. f_equal. lia. }
    nia. }
  fold n k. rewrite HM, binary_round_aux_exact by (rewrite ?Hs; lia || exact Hdm).
  f_equal. rewrite Hs.
  replace (n - 53 + -52 + (51 + D - n))%Z with (- (54 - D))%Z by lia.
  rewrite Z.shiftl_opp_r, Z.shiftr_div_pow2 by lia. rewrite Hm.
  replace (2 ^ (54 - D))%Z with (2 * 2 ^ (53 - D))%Z
    by (rewrite <- Z.pow_succ_r by lia; f_equal; lia).
  rewrite Pos2Z.inj_mul. change (Z.pos 3) with 3%Z.
  apply Z.div_mul_cancel_r; lia.
Qed.

Lemma floor_three_halves (d : Z) : Qfloor (inject_Z d * 1.5)%Q = (3 * d / 2)%Z.
Proof.
  unfold Qfloor, inject_Z, Qmult; simpl.
  replace (d * 15)%Z with (3 * d * 5)%Z by lia.
  change (Z.pos (1 * 10)) with (2 * 5)%Z.
  apply Z.div_mul_cancel_r; lia.
Qed.

Lemma level_iter_upgrade (n : nat) (tw : Tower.t) :
  Tower.level (Nat.iter n Tower.upgrade tw) = (Tower.level tw + Z.of_nat n)%Z.
Proof.
  induction n as [|n IH]; simpl; [lia|]. rewrite IH. lia.
Qed.

(** C4.  [upgradeTower] on the tower at index [i]: the cost is
    [level * 25 + 50] at the level before the upgrade.  With less money than
    that the game is returned as it was, with the alert that names the cost;
    otherwise the cost is deducted and the tower gets exactly level + 1,
    range + 10 and fireRate * 1.1 (the operations of the source, on
    doubles), upgradeCost + 25 and damage floor(damage * 1.5): for a damage
    that is not negative and below 2^51 the floor of the product of the
    doubles, which is 3 * damage / 2 in integers.  Everything else in the
    tower and in the game stays as it was.  A tower is built at level 1, so
    its n-th upgrade (from 0) costs 75 + 25 n: 75, 100, 125, ... *)
Theorem C4_upgrade (i : nat) (g : Game.t) (tw : Tower.t) :
  Game.towers g !! i = Some tw ->
  (0 <= Tower.damage tw < 2 ^ 51)%Z ->
  let cost := (Tower.level tw * 25 + 50)%Z in
  ((Game.money g < cost)%Z ->
     Game.upgradeTower i g = (g, Some (NeedToUpgrade cost)))
  /\ ((cost <= Game.money g)%Z ->
       Game.upgradeTower i g =
         (Game.set_towers (Game.set_money g (Game.money g - cost))
            (<[i := Tower.upgrade tw]> (Game.towers g)), None)
       /\ Game.towers (fst (Game.upgradeTower i g)) !! i = Some (Tower.upgrade tw)
       /\ Game.money (fst (Game.upgradeTower i g)) = (Game.money g - cost)%Z)
  /\ Tower.upgrade tw =
       Tower.mk (Tower.x tw) (Tower.y tw) (Tower.type tw)
         (Qfloor (inject_Z (Tower.damage tw) * 1.5)%Q) (Tower.range tw + 10)
         (Tower.fireRate tw * 1.1) (Tower.color tw)
         (Tower.level tw + 1)%Z (Tower.fireCooldown tw)
         (Tower.upgradeCost tw + 25)%Z
  /\ floorZ (of_Z (Tower.damage tw) * 1.5) = Some (Tower.damage (Tower.upgrade tw))
  /\ Tower.damage (Tower.upgrade tw) = (3 * Tower.damage tw / 2)%Z
  /\ (forall x y type stats (n : nat),
        (Tower.level (Nat.iter n Tower.upgrade (Tower.new x y type stats)) * 25 + 50
         = 75 + 25 * Z.of_nat n)%Z).
Proof.
  intros Htw Hd cost.
  split; [|split; [|split; [reflexivity|split; [|split]]]].
  - intros Hlt. unfold Game.upgradeTower. rewrite Htw. fold cost.
    destruct (Z.leb_spec cost (Game.money g)); [lia|reflexivity].
  - intros Hle. unfold Game.upgradeTower. rewrite Htw. fold cost.
    destruct (Z.leb_spec cost (Game.money g)); [|lia]. simpl.
    split; [reflexivity|]. split; [|reflexivity].
    apply list_lookup_insert_eq. apply lookup_lt_Some in Htw. exact Htw.
  - rewrite (floor_three_halves_binary64 _ Hd). unfold Tower.upgrade, Tower.damage at 2.
    rewrite floor_three_halves. reflexivity.
  - apply floor_three_halves.
  - intros x y type stats n. rewrite level_iter_upgrade. simpl. lia.
Qed.

(** A new basic tower and money for one upgrade: after it the tower has
    damage 15, range 110 and the fire rate that [1 * 1.1] is in binary64,
    the double nearest to 1.1. *)
Lemma C4_upgrade_witness :
  Game.upgradeTower 0 (Game.set_towers startGame [sampleTower])
  = (Game.set_towers (Game.set_money startGame 75)
       [Tower.mk 20 20 "basic" 15 110 0x1.199999999999ap+0 "blue" 2 0 75], None).
Proof.
  destruct (C4_upgrade 0 (Game.set_towers startGame [sampleTower]) sampleTower eq_refl)
    as (_ & Hok & Hup & _).
  - simpl. lia.
  - destruct (Hok ltac:(vm_compute; discriminate)) as (H & _).
    rewrite H, Hup. vm_compute. reflexivity.
Defined.

(** ** One tower: firing and targeting (C6, C7) *)

Lemma update_silent_inv dt heap enemies tw tw' :
  Tower.update dt heap enemies tw = (tw', None) ->
  tw' = Tower.set_fireCooldown tw (Tower.fireCooldown tw - dt).
Proof.
  unfold Tower.update. intros H.
  destruct (_ <=? 0); [|congruence].
  destruct (Tower.findTarget _ _ _); congruence.
Qed.

Lemma update_fired_inv dt heap enemies tw tw' p :
  Tower.update dt heap enemies tw = (tw', Some p) ->
  (Tower.fireCooldown tw - dt <=? 0) = true
  /\ tw' = Tower.set_fireCooldown tw (1 / Tower.fireRate tw)
  /\ exists id,
       Tower.findTarget
         (Tower.set_fireCooldown tw (Tower.fireCooldown tw - dt)) heap enemies = Some id
       /\ p = Projectile.new (Tower.x tw) (Tower.y tw) id (Tower.damage tw) (Tower.color tw).
Proof.
  unfold Tower.update. intros H.
  destruct (_ <=? 0) eqn:E; [|congruence].
  simpl in E.
  destruct (Tower.findTarget _ _ _) as [id|] eqn:F; [|congruence].
  injection H as <- <-. split; [reflexivity|]. split; [reflexivity|].
  exists id. split; reflexivity.
Qed.

(** A tower whose cooldown, less the frame time, is above 0 (or is NaN)
    does not fire. *)
Lemma update_cooling dt heap enemies tw :
  (Tower.fireCooldown tw - dt <=? 0) = false ->
  Tower.update dt heap enemies tw
  = (Tower.set_fireCooldown tw (Tower.fireCooldown tw - dt), None).
Proof.
  intros H. unfold Tower.update.
  cbn [Tower.fireCooldown Tower.set_fireCooldown]. rewrite H. reflexivity.
Qed.

(** Over events in which the tower stays silent, the cooldown is the old
    one with the frame times taken off one after the other. *)
Lemma silent_inv evs : forall tw tw',
  silent evs tw = Some tw' ->
  Tower.fireCooldown tw' = cooled evs (Tower.fireCooldown tw).
Proof.
  induction evs as [|ev evs IH]; intros tw tw' H; simpl in H.
  - injection H as <-. reflexivity.
  - destruct ev as [dt heap enemies|].
    + destruct (Tower.update dt heap enemies tw) as [tw1 [p|]] eqn:U;
        [discriminate|].
      apply update_silent_inv in U. subst tw1.
      apply IH in H. exact H.
    + apply IH in H. exact H.
Qed.

(** C6, as the code has it.  When [update] fires, the tower's
    [fireCooldown] is [1 / fireRate], the quotient of the doubles, at the
    fire rate the tower has then (so after an upgrade, at the upgraded
    rate).  From there, over any frames and upgrades in which the tower
    stays silent, the cooldown is that quotient with the frame times taken
    off one after the other, each difference rounded; and in the next frame
    the tower stays silent if taking the frame time off leaves more than 0,
    and fires only if it leaves at most 0. *)
Theorem C6_fire_interval (tw tw1 : Tower.t) dt heap enemies p :
  Tower.update dt heap enemies tw = (tw1, Some p) ->
  Tower.fireCooldown tw1 = 1 / Tower.fireRate tw1
  /\ Tower.fireRate tw1 = Tower.fireRate tw
  /\ forall evs tw2,
       silent evs tw1 = Some tw2 ->
       Tower.fireCooldown tw2 = cooled evs (1 / Tower.fireRate tw1)
       /\ (forall dt3 heap3 enemies3,
             (cooled evs (1 / Tower.fireRate tw1) - dt3 <=? 0) = false ->
             snd (Tower.update dt3 heap3 enemies3 tw2) = None)
       /\ (forall dt3 heap3 enemies3 tw3 p3,
             Tower.update dt3 heap3 enemies3 tw2 = (tw3, Some p3) ->
             (cooled evs (1 / Tower.fireRate tw1) - dt3 <=? 0) = true
             /\ Tower.fireCooldown tw3 = 1 / Tower.fireRate tw2).
Proof.
  intros U. apply update_fired_inv in U. destruct U as (_ & -> & _).
  simpl. split; [reflexivity|]. split; [reflexivity|].
  intros evs tw2 S. apply silent_inv in S. simpl in S.
  split; [exact S|]. split.
  - intros dt3 heap3 enemies3 Hc. rewrite <- S in Hc.
    rewrite (update_cooling _ _ _ _ Hc). reflexivity.
  - intros dt3 heap3 enemies3 tw3 p3 U.
    apply update_fired_inv in U. destruct U as (Hle & -> & _).
    rewrite S in Hle. split; [exact Hle|reflexivity].
Qed.

(** What the scan holds after the enemies [l]: nothing, with [minDist]
    still [Infinity], while no enemy of [l] is within range at a distance
    below [Infinity]; otherwise the first enemy of [l] at the least distance
    among those within range, together with that distance. *)
Lemma scan_fold (tw : Tower.t) (heap : Heap) (l : list nat) :
  match fold_left (Tower.scan tw heap) l (None, infinity) with
  | (None, m) =>
      m = infinity
      /\ forall k id enemy, l !! k = Some id -> heap !! id = Some enemy ->
           (Tower.distance tw enemy <=? Tower.range tw)
           && (Tower.distance tw enemy <? infinity) = false
  | (Some id, d) =>
      exists k enemy,
        l !! k = Some id /\ heap !! id = Some enemy
        /\ d = Tower.distance tw enemy /\ (d <=? Tower.range tw) = true
        /\ (d <? infinity) = true
        /\ forall k' id' enemy', l !! k' = Some id' -> heap !! id' = Some enemy' ->
             (Tower.distance tw enemy' <=? Tower.range tw) = true ->
             (d <=? Tower.distance tw enemy') = true
             /\ ((k' < k)%nat -> (d <? Tower.distance tw enemy') = true)
  end.
Proof.
  induction l as [|a l IH] using rev_ind.
  - simpl. split; [reflexivity|].
    intros k id enemy H. rewrite lookup_nil in H. discriminate.
  - rewrite fold_left_app. simpl.
    destruct (fold_left (Tower.scan tw heap) l (None, infinity)) as [[id|] d];
      unfold Tower.scan; cbn [snd].
    + destruct IH as (k & enemy & Hk & He & Hd & Hr & Hfin & Hmin).
      assert (Hkeep : exists k0 enemy0,
                (l ++ [a]) !! k0 = Some id /\ heap !! id = Some enemy0
                /\ d = Tower.distance tw enemy0 /\ (d <=? Tower.range tw) = true
                /\ (d <? infinity) = true
                /\ forall k' id' enemy',
                     (l ++ [a]) !! k' = Some id' -> heap !! id' = Some enemy' ->
                     (Tower.distance tw enemy' <=? Tower.range tw) = true ->
                     (k' < length l)%nat \/
                       ((Tower.distance tw enemy' <? d) = false
                        \/ heap !! a = None) ->
                     (d <=? Tower.distance tw enemy') = true
                     /\ ((k' < k0)%nat -> (d <? Tower.distance tw enemy') = true)).
      { exists k, enemy. repeat split; try assumption.
        - apply lookup_snoc_Some. left. split; [|exact Hk].
          apply lookup_lt_Some in Hk. exact Hk.
        - apply lookup_snoc_Some in H as [[_ Hl]|[-> ->]].
          + apply (Hmin _ _ _ Hl H0 H1).
          + destruct H2 as [Hlt|[Hge|Hnone]]; [lia| |congruence].
            apply leb_total; [exact (leb_refl_l _ _ H1)|exact (leb_refl_l _ _ Hr)|exact Hge].
        - intros Hlt. apply lookup_snoc_Some in H as [[_ Hl]|[-> _]].
          + apply (Hmin _ _ _ Hl H0 H1). exact Hlt.
          + apply lookup_lt_Some in Hk. lia. }
      destruct (heap !! a) as [ea|] eqn:Ha.
      * destruct (Tower.distance tw ea <=? Tower.range tw) eqn:Er;
          [destruct (Tower.distance tw ea <? d) eqn:Em|]; cbn [andb].
        -- exists (length l), ea. repeat split.
           ++ apply lookup_snoc_Some. right. split; reflexivity.
           ++ exact Ha.
           ++ exact Er.
           ++ exact (ltb_leb_trans _ _ _ Em (ltb_leb _ _ Hfin)).
           ++ apply lookup_snoc_Some in H as [[Hlt Hl]|[-> ->]].
              ** destruct (Hmin _ _ _ Hl H0 H1) as [Hle _].
                 apply ltb_leb. exact (ltb_leb_trans _ _ _ Em Hle).
              ** rewrite Ha in H0. injection H0 as <-. exact (leb_refl_l _ _ Er).
           ++ intros Hlt. apply lookup_snoc_Some in H as [[_ Hl]|[-> _]]; [|lia].
              destruct (Hmin _ _ _ Hl H0 H1) as [Hle _].
              exact (ltb_leb_trans _ _ _ Em Hle).
        -- destruct Hkeep as (k0 & enemy0 & H1 & H2 & H3 & H4 & H5 & H6).
           exists k0, enemy0. repeat split; try assumption.
           ++ apply (H6 _ _ _ H H0 H7).
              destruct (decide (k' < length l)%nat) as [Hlt|Hge]; [left; exact Hlt|].
              right. left.
              apply lookup_snoc_Some in H as [[Hlt _]|[_ ->]]; [lia|].
              rewrite Ha in H0. injection H0 as <-. exact Em.
           ++ apply (H6 _ _ _ H H0 H7).
              destruct (decide (k' < length l)%nat) as [Hlt|Hge]; [left; exact Hlt|].
              right. left.
              apply lookup_snoc_Some in H as [[Hlt _]|[_ ->]]; [lia|].
              rewrite Ha in H0. injection H0 as <-. exact Em.
        -- destruct Hkeep as (k0 & enemy0 & H1 & H2 & H3 & H4 & H5 & H6).
           exists k0, enemy0. repeat split; try assumption.
           ++ apply (H6 _ _ _ H H0 H7).
              destruct (decide (k' < length l)%nat) as [Hlt|Hge]; [left; exact Hlt|].
              apply lookup_snoc_Some in H as [[Hlt _]|[_ ->]]; [lia|].
              rewrite Ha in H0. injection H0 as <-. congruence.
           ++ apply (H6 _ _ _ H H0 H7).
              destruct (decide (k' < length l)%nat) as [Hlt|Hge]; [left; exact Hlt|].
              apply lookup_snoc_Some in H as [[Hlt _]|[_ ->]]; [lia|].
              rewrite Ha in H0. injection H0 as <-. congruence.
      * destruct Hkeep as (k0 & enemy0 & H1 & H2 & H3 & H4 & H5 & H6).
        exists k0, enemy0. repeat split; try assumption.
        -- apply (H6 _ _ _ H H0 H7).
           destruct (decide (k' < length l)%nat) as [Hlt|Hge]; [left; exact Hlt|].
           right. right. reflexivity.
        -- apply (H6 _ _ _ H H0 H7).
           destruct (decide (k' < length l)%nat) as [Hlt|Hge]; [left; exact Hlt|].
           right. right. reflexivity.
    + destruct IH as [-> IH].
      destruct (heap !! a) as [ea|] eqn:Ha.
      * destruct ((Tower.distance tw ea <=? Tower.range tw)
                  && (Tower.distance tw ea <? infinity)) eqn:Er.
        -- apply andb_true_iff in Er. destruct Er as [Er Ef].
           exists (length l), ea. repeat split.
           ++ apply lookup_snoc_Some. right. split; reflexivity.
           ++ exact Ha.
           ++ exact Er.
           ++ exact Ef.
           ++ apply lookup_snoc_Some in H as [[_ Hl]|[-> ->]].
              ** pose proof (IH _ _ _ Hl H0) as Hfar. rewrite H1 in Hfar.
                 cbn [andb] in Hfar. apply ltb_leb.
                 apply (ltb_leb_trans _ infinity); [exact Ef|].
                 apply leb_total; [exact (leb_refl_l _ _ H1)|reflexivity|exact Hfar].
              ** rewrite Ha in H0. injection H0 as <-. exact (leb_refl_l _ _ Er).
           ++ intros Hlt. apply lookup_snoc_Some in H as [[_ Hl]|[-> _]]; [|lia].
              pose proof (IH _ _ _ Hl H0) as Hfar. rewrite H1 in Hfar.
              cbn [andb] in Hfar.
              apply (ltb_leb_trans _ infinity); [exact Ef|].
              apply leb_total; [exact (leb_refl_l _ _ H1)|reflexivity|exact Hfar].
        -- split; [reflexivity|]. intros k id enemy Hk He.
           apply lookup_snoc_Some in Hk as [[_ Hl]|[-> ->]].
           ++ exact (IH _ _ _ Hl He).
           ++ rewrite Ha in He. injection He as <-. exact Er.
      * split; [reflexivity|]. intros k id enemy Hk He.
        apply lookup_snoc_Some in Hk as [[_ Hl]|[-> ->]].
        -- exact (IH _ _ _ Hl He).
        -- rewrite Ha in He. discriminate.
Qed.

Lemma findTarget_distances (tw : Tower.t) (c : float) (heap : Heap) (l : list nat) :
  Tower.findTarget (Tower.set_fireCooldown tw c) heap l = Tower.findTarget tw heap l.
Proof. reflexivity. Qed.

(** C7.  A tower whose cooldown, less the frame time, is at most 0.  The
    distance of an enemy is the one the code computes, the binary64
    [Math.sqrt((enemy.x - this.x) ** 2 + (enemy.y - this.y) ** 2)].
    If the tower fires, the projectile goes from the tower to an enemy of
    the list that is within range, no enemy within range is nearer, every
    enemy within range that comes earlier in the list is strictly farther
    (the first enemy wins a tie), and the cooldown is reset to
    [1 / fireRate].  It does fire if an enemy of the list is within range,
    at a distance below [Infinity].  If no enemy of the list is within
    range, nothing is pushed and the cooldown is the old one less the frame
    time, at most 0. *)
Theorem C7_targeting (tw : Tower.t) dt heap enemies :
  (Tower.fireCooldown tw - dt <=? 0) = true ->
  let dist := fun enemy : Enemy.t =>
    sqrt ((Enemy.x enemy - Tower.x tw) * (Enemy.x enemy - Tower.x tw)
          + (Enemy.y enemy - Tower.y tw) * (Enemy.y enemy - Tower.y tw)) in
  (forall tw' p, Tower.update dt heap enemies tw = (tw', Some p) ->
     exists k id enemy,
       enemies !! k = Some id /\ heap !! id = Some enemy
       /\ (dist enemy <=? Tower.range tw) = true
       /\ (forall k' id' enemy',
             enemies !! k' = Some id' -> heap !! id' = Some enemy' ->
             (dist enemy' <=? Tower.range tw) = true ->
             (dist enemy <=? dist enemy') = true
             /\ ((k' < k)%nat -> (dist enemy <? dist enemy') = true))
       /\ p = Projectile.new (Tower.x tw) (Tower.y tw) id (Tower.damage tw) (Tower.color tw)
       /\ tw' = Tower.set_fireCooldown tw (1 / Tower.fireRate tw))
  /\ ((exists k id enemy,
         enemies !! k = Some id /\ heap !! id = Some enemy
         /\ (dist enemy <=? Tower.range tw) = true
         /\ (dist enemy <? infinity) = true) ->
      exists tw' p, Tower.update dt heap enemies tw = (tw', Some p))
  /\ ((forall k id enemy, enemies !! k = Some id -> heap !! id = Some enemy ->
         (dist enemy <=? Tower.range tw) = false) ->
      Tower.update dt heap enemies tw
      = (Tower.set_fireCooldown tw (Tower.fireCooldown tw - dt), None)
      /\ (Tower.fireCooldown (fst (Tower.update dt heap enemies tw)) <=? 0) = true).
Proof.
  intros Hc dist.
  pose proof (scan_fold tw heap enemies) as S.
  assert (U : Tower.update dt heap enemies tw
              = match Tower.findTarget tw heap enemies with
                | Some target =>
                    (Tower.set_fireCooldown tw (1 / Tower.fireRate tw),
                     Some (Projectile.new (Tower.x tw) (Tower.y tw) target
                             (Tower.damage tw) (Tower.color tw)))
                | None => (Tower.set_fireCooldown tw (Tower.fireCooldown tw - dt), None)
                end).
  { unfold Tower.update. cbn [Tower.fireCooldown Tower.set_fireCooldown].
    rewrite Hc, findTarget_distances.
    destruct (Tower.findTarget tw heap enemies); reflexivity. }
  rewrite U. unfold Tower.findTarget.
  destruct (fold_left (Tower.scan tw heap) enemies (None, infinity)) as [[id|] d];
    cbn [fst].
  - destruct S as (k & enemy & Hk & He & -> & Hr & Hfin & Hmin).
    split; [|split].
    + intros tw' p [= <- <-]. exists k, id, enemy.
      split; [exact Hk|]. split; [exact He|]. split; [exact Hr|].
      split; [|split; reflexivity].
      intros k' id' enemy' Hk' He' Hr'. exact (Hmin _ _ _ Hk' He' Hr').
    + intros _. eexists _, _. reflexivity.
    + intros Hnone. pose proof (Hnone _ _ _ Hk He) as Hn.
      change ((Tower.distance tw enemy <=? Tower.range tw) = false) in Hn.
      congruence.
  - destruct S as [_ Hfar]. split; [|split].
    + intros tw' p [=].
    + intros (k & id & enemy & Hk & He & Hr & Hfin).
      specialize (Hfar _ _ _ Hk He).
      change ((Tower.distance tw enemy <=? Tower.range tw) = true) in Hr.
      change ((Tower.distance tw enemy <? infinity) = true) in Hfin.
      rewrite Hr, Hfin in Hfar. discriminate.
    + intros _. split; [reflexivity|exact Hc].
Qed.

(** The tower has fired at rate 1, stays silent for a frame of half a
    second and an upgrade, and fires in the next frame of half a second. *)
Lemma C6_fire_interval_witness :
  (cooled [Frame 0.5 [sampleEnemy 50 20 60] [0%nat]; Upgrade]
     (1 / Tower.fireRate (Tower.set_fireCooldown sampleTower (1 / 1))) - 0.5 <=? 0)
  = true.
Proof.
  destruct (C6_fire_interval sampleTower
              (Tower.set_fireCooldown sampleTower (1 / 1)) 1
              [sampleEnemy 50 20 60] [0%nat]
              (Projectile.new 20 20 0 10 "blue") eq_refl) as (_ & _ & H).
  destruct (H [Frame 0.5 [sampleEnemy 50 20 60] [0%nat]; Upgrade]
              (Tower.upgrade (Tower.set_fireCooldown sampleTower (1 / 1 - 0.5)))
              eq_refl) as (_ & _ & Hfire).
  destruct (Hfire 0.5 [sampleEnemy 50 20 60] [0%nat]
              (Tower.set_fireCooldown
                 (Tower.upgrade (Tower.set_fireCooldown sampleTower (1 / 1 - 0.5)))
                 (1 / (1 * 1.1)))
              (Projectile.new 20 20 0 15 "blue") eq_refl) as [H1 _].
  exact H1.
Defined.

(** C6, the statement of the specification fails.  A basic tower (fire
    rate 1) fires and its cooldown is 1.  It then gets 59 frames of a
    sixtieth of a second ([1 / 60] in binary64, a little less than a
    sixtieth) with an enemy in range all along, and stays silent.  The
    differences are rounded one by one, and what is left of the cooldown
    is a little less than the frame time: the tower fires in the sixtieth
    frame, while the sixty frame times add up to less than 1, which is
    [1 / fireRate]. *)
Lemma C6_counterexample :
  Tower.update 1 [sampleEnemy 50 20 60] [0%nat] sampleTower
  = (Tower.set_fireCooldown sampleTower 1, Some (Projectile.new 20 20 0 10 "blue"))
  /\ silent (repeat (Frame (1 / 60) [sampleEnemy 50 20 60] [0%nat]) 59)
       (Tower.set_fireCooldown sampleTower 1)
     = Some (Tower.set_fireCooldown sampleTower 0.016666666666665272)
  /\ Tower.update (1 / 60) [sampleEnemy 50 20 60] [0%nat]
       (Tower.set_fireCooldown sampleTower 0.016666666666665272)
     = (Tower.set_fireCooldown sampleTower 1, Some (Projectile.new 20 20 0 10 "blue"))
  /\ (elapsed (repeat (Frame (1 / 60) [sampleEnemy 50 20 60] [0%nat]) 59)
      + exact (1 / 60)
      < exact (1 / Tower.fireRate (Tower.set_fireCooldown sampleTower 1)))%Q.
Proof. repeat split; vm_compute; reflexivity. Qed.

(** Two enemies at the same distance, 40, from the tower: the shot goes to
    the first. *)
Lemma C7_targeting_witness :
  exists k enemy,
    [0%nat; 1%nat] !! k = Some 0%nat
    /\ [sampleEnemy 50 20 60; sampleEnemy 50 60 20] !! 0%nat = Some enemy
    /\ (sqrt ((Enemy.x enemy - 20) * (Enemy.x enemy - 20)
              + (Enemy.y enemy - 20) * (Enemy.y enemy - 20)) <=? 100) = true.
Proof.
  assert (Hc : (Tower.fireCooldown sampleTower - 1 <=? 0) = true)
    by (vm_compute; reflexivity).
  destruct (C7_targeting sampleTower 1
              [sampleEnemy 50 20 60; sampleEnemy 50 60 20] [0%nat; 1%nat] Hc)
    as [Hfire _].
  destruct (Hfire (Tower.set_fireCooldown sampleTower (1 / 1))
              (Projectile.new 20 20 0 10 "blue") eq_refl)
    as (k & id & enemy & Hk & He & Hr & _ & Hp & _).
  injection Hp as <-.
  exists k, enemy. repeat split; assumption.
Defined.

(** ** Projectiles and stale targets (C8) *)

(** C8, as the code has it.  [update] looks at the target object only,
    never at [Game.enemies].  A projectile without target, or whose target
    has [health <= 0], is marked and the store is left as it was.  The
    store changes only when the target has positive health and is less
    than 5 away: then the target loses exactly [damage] health, nothing
    else in the store changes, and the projectile is marked. *)
Theorem C8_projectile_update dt (heap heap' : Heap) (p p' : Projectile.t) :
  Projectile.update dt heap p = (heap', p') ->
  (Projectile.target p = None -> heap' = heap /\ p' = Projectile.mark p)
  /\ (forall id enemy,
        Projectile.target p = Some id -> heap !! id = Some enemy ->
        (Enemy.health enemy <= 0)%Z -> heap' = heap /\ p' = Projectile.mark p)
  /\ (heap' <> heap ->
        exists id enemy,
          Projectile.target p = Some id /\ heap !! id = Some enemy
          /\ (0 < Enemy.health enemy)%Z
          /\ (sqrt ((Enemy.x enemy - Projectile.x p) * (Enemy.x enemy - Projectile.x p)
                    + (Enemy.y enemy - Projectile.y p) * (Enemy.y enemy - Projectile.y p))
              <? 5) = true
          /\ heap' = <[id := Enemy.set_health enemy
                               (Enemy.health enemy - Projectile.damage p)]> heap
          /\ p' = Projectile.mark p).
Proof.
  unfold Projectile.update. intros U. split; [|split].
  - intros Ht. rewrite Ht in U. injection U as <- <-. split; reflexivity.
  - intros id enemy Ht He Hh. rewrite Ht, He in U.
    destruct (Z.leb_spec (Enemy.health enemy) 0); [|lia].
    injection U as <- <-. split; reflexivity.
  - intros Hne.
    destruct (Projectile.target p) as [id|]; [|injection U as <- <-; congruence].
    destruct (heap !! id) as [enemy|] eqn:He; [|injection U as <- <-; congruence].
    destruct (Z.leb_spec (Enemy.health enemy) 0);
      [injection U as <- <-; congruence|].
    destruct (_ <? 5) eqn:Ed; [|injection U as <- <-; congruence].
    injection U as <- <-.
    exists id, enemy. repeat split; assumption.
Qed.

(** An enemy that left through the right edge with 50 health and is no
    longer in [enemies], and a projectile 2 away from it. *)
Lemma C8_projectile_update_witness :
  exists id enemy,
    Projectile.target (Projectile.new 848 480 0 10 "blue") = Some id
    /\ [sampleEnemy 50 850 480] !! id = Some enemy
    /\ (0 < Enemy.health enemy)%Z
    /\ [sampleEnemy 40 850 480]
       = <[id := Enemy.set_health enemy (Enemy.health enemy - 10)]>
           [sampleEnemy 50 850 480].
Proof.
  pose proof (C8_projectile_update (1 / 60) [sampleEnemy 50 850 480]
                [sampleEnemy 40 850 480]
                (Projectile.new 848 480 0 10 "blue")
                (Projectile.mark (Projectile.new 848 480 0 10 "blue")) eq_refl)
    as (_ & _ & H).
  destruct (H ltac:(discriminate)) as (id & enemy & Ht & He & Hh & _ & Hs & _).
  exists id, enemy. repeat split; assumption.
Defined.

(** C8, the statement of the specification fails.  The target of the projectile is not in
    [enemies] any more, so by the specification the projectile would expire without
    damage; the frame takes 10 health from the enemy object. *)
Lemma C8_counterexample :
  Game.enemies escapedTargetGame = []
  /\ Game.projectiles escapedTargetGame = [Projectile.new 848 480 0 10 "blue"]
  /\ Game.heap escapedTargetGame = [sampleEnemy 50 850 480]
  /\ Game.heap (Game.update (1 / 60) escapedTargetGame) = [sampleEnemy 40 850 480].
Proof. repeat split; vm_compute; reflexivity. Qed.

(** ** The wave scheduler (C5) *)

Lemma createWaves_known : knownWaves WaveManager.createWaves.
Proof. repeat constructor; vm_compute; eexists; reflexivity. Qed.

Lemma game_path_start : game_path !! 0%nat = Some (mkPoint 0 280).
Proof. reflexivity. Qed.

(** C5.  One call of [WaveManager.update].
    - The wave index changes only when the scheduler is not cooling down
      ([waveCooldown > 0] fails), the queue of the current wave is empty and
      [enemies] is empty; then the index goes up by one and the cooldown is
      set to [waveInterval], which the constructor sets to 5 and nobody
      changes.
    - Not cooling down and with [type] at the front of the queue, the timer
      (0 when unset) plus the frame time, the sum of the doubles, is
      compared with 1.  When [timer >= 1] fails, the sum is stored and
      nothing else changes.  When it holds, [type] is taken off the front
      of the queue, the rest of the queue keeps its order, the timer is set
      to 0 and, [type] being a key of [enemyTypes] (as every entry of the
      waves that [createWaves] makes is), one enemy of that type is added at
      the end of [enemies], at the first point of the path. *)
Theorem C5_wave_scheduler dt (wm wm' : WaveManager.t)
    (enemies enemies' : list nat) (heap heap' : Heap) :
  WaveManager.update dt wm enemies heap = (wm', enemies', heap') ->
  (WaveManager.currentWaveIndex wm' <> WaveManager.currentWaveIndex wm ->
     (0 <? WaveManager.waveCooldown wm) = false
     /\ WaveManager.waves wm !! WaveManager.currentWaveIndex wm = Some []
     /\ enemies = []
     /\ WaveManager.currentWaveIndex wm' = S (WaveManager.currentWaveIndex wm)
     /\ WaveManager.waveCooldown wm' = WaveManager.waveInterval wm
     /\ WaveManager.waves wm' = WaveManager.waves wm
     /\ enemies' = enemies /\ heap' = heap)
  /\ WaveManager.waveInterval wm' = WaveManager.waveInterval wm
  /\ WaveManager.waveInterval WaveManager.new = 5
  /\ (forall type rest,
        WaveManager.waves wm !! WaveManager.currentWaveIndex wm = Some (type :: rest) ->
        (0 <? WaveManager.waveCooldown wm) = false ->
        let timer := default 0 (WaveManager.spawnTimer wm) + dt in
        (knownWaves (WaveManager.waves wm) -> is_Some (enemyTypes type))
        /\ ((1 <=? timer) = false ->
           wm' = WaveManager.mk (WaveManager.waves wm) (WaveManager.currentWaveIndex wm)
                   (WaveManager.waveCooldown wm) (WaveManager.waveInterval wm)
                   (WaveManager.totalWaves wm) (Some timer)
           /\ enemies' = enemies /\ heap' = heap)
        /\ ((1 <=? timer) = true ->
             WaveManager.waves wm' !! WaveManager.currentWaveIndex wm = Some rest
             /\ (forall i, i <> WaveManager.currentWaveIndex wm ->
                   WaveManager.waves wm' !! i = WaveManager.waves wm !! i)
             /\ WaveManager.currentWaveIndex wm' = WaveManager.currentWaveIndex wm
             /\ WaveManager.waveCooldown wm' = WaveManager.waveCooldown wm
             /\ WaveManager.spawnTimer wm' = Some 0
             /\ forall stats, enemyTypes type = Some stats ->
                  enemies' = enemies ++ [length heap]
                  /\ heap' = heap ++ [Enemy.new type stats game_path]
                  /\ Enemy.x (Enemy.new type stats game_path) = 0
                  /\ Enemy.y (Enemy.new type stats game_path) = 280)).
Proof.
  unfold WaveManager.update. intros U. split; [|split; [|split]].
  - intros Hne.
    destruct (WaveManager.waves wm !! WaveManager.currentWaveIndex wm) as [wave|] eqn:W;
      [|injection U as <- <- <-; congruence].
    destruct (0 <? WaveManager.waveCooldown wm) eqn:C;
      [injection U as <- <- <-; simpl in Hne; congruence|].
    destruct wave as [|type rest].
    + destruct enemies as [|e es]; simpl in U;
        [|injection U as <- <- <-; congruence].
      injection U as <- <- <-. simpl. repeat split.
    + destruct (1 <=? _); [destruct (enemyTypes type)|];
        injection U as <- <- <-; simpl in Hne; congruence.
  - destruct (WaveManager.waves wm !! WaveManager.currentWaveIndex wm) as [wave|];
      [|injection U as <- <- <-; reflexivity].
    destruct (0 <? WaveManager.waveCooldown wm);
      [injection U as <- <- <-; reflexivity|].
    destruct wave as [|type rest].
    + destruct (length enemies =? 0)%nat; injection U as <- <- <-; reflexivity.
    + destruct (1 <=? _); [destruct (enemyTypes type)|];
        injection U as <- <- <-; reflexivity.
  - reflexivity.
  - intros type rest W C. rewrite W, C in U.
    set (timer := default 0 (WaveManager.spawnTimer wm) + dt) in *.
    split; [|split].
    + intros K. unfold knownWaves in K. rewrite Forall_lookup in K.
      specialize (K _ _ W). apply Forall_cons in K. apply K.
    + intros Ht. rewrite Ht in U.
      injection U as <- <- <-. repeat split.
    + intros Ht. rewrite Ht in U.
      apply lookup_lt_Some in W.
      assert (Hw : WaveManager.waves wm' !! WaveManager.currentWaveIndex wm = Some rest
                   /\ (forall i, i <> WaveManager.currentWaveIndex wm ->
                         WaveManager.waves wm' !! i = WaveManager.waves wm !! i)
                   /\ WaveManager.currentWaveIndex wm' = WaveManager.currentWaveIndex wm
                   /\ WaveManager.waveCooldown wm' = WaveManager.waveCooldown wm
                   /\ WaveManager.spawnTimer wm' = Some 0).
      { destruct (enemyTypes type); injection U as <- <- <-; simpl;
          (split; [apply list_lookup_insert_eq; exact W|]);
          (split; [intros i Hi; apply list_lookup_insert_ne; congruence|]);
          repeat split; reflexivity. }
      destruct Hw as (H1 & H2 & H3 & H4 & H5). repeat split; try assumption.
      * rewrite H in U. injection U as <- <- <-. reflexivity.
      * rewrite H in U. injection U as <- <- <-. reflexivity.
Qed.

(** The scheduler with the timer at half a second, and a frame of half a
    second: the sum is 1 and the first enemy of the wave is created. *)
Lemma C5_wave_scheduler_witness :
  [0%nat] = [] ++ [length ([] : Heap)]
  /\ [Enemy.new "basic" basicEnemyStats game_path]
     = [] ++ [Enemy.new "basic" basicEnemyStats game_path]
  /\ Enemy.x (Enemy.new "basic" basicEnemyStats game_path) = 0
  /\ Enemy.y (Enemy.new "basic" basicEnemyStats game_path) = 280.
Proof.
  pose proof (C5_wave_scheduler 0.5
                (WaveManager.mk WaveManager.createWaves 0 0 5 6 (Some 0.5))
                (WaveManager.mk
                   (<[0%nat := ["basic"; "basic"; "basic"; "basic"]%string]>
                      WaveManager.createWaves)
                   0 0 5 6 (Some 0))
                [] [0%nat] [] [Enemy.new "basic" basicEnemyStats game_path] eq_refl)
    as (_ & _ & _ & H).
  destruct (H "basic"%string ["basic"; "basic"; "basic"; "basic"]%string eq_refl eq_refl)
    as (_ & _ & H1).
  destruct (H1 eq_refl) as (_ & _ & _ & _ & _ & H2).
  exact (H2 basicEnemyStats eq_refl).
Defined.

(** ** Frames: what each loop of [Game.update] leaves alone *)


Lemma Enemy_update_vitals path dt e :
  Enemy.health (Enemy.update path dt e) = Enemy.health e
  /\ Enemy.reward (Enemy.update path dt e) = Enemy.reward e.
Proof.
  unfold Enemy.update.
  destruct (_ <=? _)%Z; [split; reflexivity|].
  destruct (path !! _); [|split; reflexivity].
  destruct (_ <? 1); split; reflexivity.
Qed.

(** The enemy loop touches the store, money, score, lives and gameOver. *)
Lemma updateEnemies_frame dt ids : forall g ids' g',
  Game.updateEnemies dt ids g = (ids', g') ->
  Game.towers g' = Game.towers g
  /\ Game.enemies g' = Game.enemies g
  /\ Game.projectiles g' = Game.projectiles g
  /\ Game.waveManager g' = Game.waveManager g
  /\ Game.gameWon g' = Game.gameWon g
  /\ Game.selectedTowerType g' = Game.selectedTowerType g
  /\ Game.placingTower g' = Game.placingTower g
  /\ Game.grid g' = Game.grid g
  /\ length (Game.heap g') = length (Game.heap g).
Proof.
  induction ids as [|id rest IH]; intros g ids' g' U; simpl in U.
  - injection U as <- <-. repeat split.
  - destruct (Game.updateEnemies dt rest g) as [rest' g1] eqn:R.
    specialize (IH _ _ _ R).
    destruct IH as (H1 & H2 & H3 & H4 & H5 & H6 & H7 & H8 & H9).
    destruct (Game.heap g1 !! id) as [enemy|];
      [|injection U as <- <-; repeat split; assumption].
    destruct (_ <=? 0)%Z; [|destruct (CANVAS_WIDTH <? _);
                             [destruct (_ <=? 0)%Z|]];
      injection U as <- <-; simpl;
      repeat split; try assumption; rewrite length_insert; assumption.
Qed.

(** ** The enemy loop: payouts and removals *)

Lemma vitals_lookup (heap : Heap) (id : nat) :
  vitals heap !! id
  = (fun enemy => (Enemy.health enemy, Enemy.reward enemy)) <$> heap !! id.
Proof. unfold vitals. apply list_lookup_fmap. Qed.

Lemma vitals_insert (heap : Heap) (id : nat) (enemy enemy' : Enemy.t) :
  heap !! id = Some enemy ->
  Enemy.health enemy' = Enemy.health enemy ->
  Enemy.reward enemy' = Enemy.reward enemy ->
  vitals (<[id := enemy']> heap) = vitals heap.
Proof.
  intros He Hh Hr. unfold vitals.
  change (map ?f ?l) with (f <$> l). rewrite list_fmap_insert.
  apply list_insert_id. rewrite list_lookup_fmap, He. simpl. congruence.
Qed.

Lemma duePayout_vitals (heap heap' : Heap) (ids : list nat) :
  vitals heap' = vitals heap -> duePayout heap' ids = duePayout heap ids.
Proof.
  intros V. induction ids as [|id rest IH]; simpl; [reflexivity|].
  pose proof (vitals_lookup heap id) as L.
  pose proof (vitals_lookup heap' id) as L'. rewrite V in L'. rewrite L in L'.
  destruct (heap !! id) as [e|], (heap' !! id) as [e'|]; simpl in L';
    try discriminate; [|exact IH].
  injection L' as Hh Hr. rewrite <- Hh, <- Hr, IH. reflexivity.
Qed.


Lemma updateEnemies_vitals dt ids : forall g ids' g',
  Game.updateEnemies dt ids g = (ids', g') ->
  vitals (Game.heap g') = vitals (Game.heap g).
Proof.
  induction ids as [|id rest IH]; intros g ids' g' U; simpl in U.
  - injection U as <- <-. reflexivity.
  - destruct (Game.updateEnemies dt rest g) as [rest' g1] eqn:R.
    specialize (IH _ _ _ R).
    destruct (Game.heap g1 !! id) as [enemy|] eqn:He;
      [|injection U as <- <-; exact IH].
    pose proof (Enemy_update_vitals game_path dt enemy) as [Hh Hr].
    pose proof (vitals_insert _ _ _ _ He Hh Hr) as V.
    destruct (_ <=? 0)%Z; [|destruct (CANVAS_WIDTH <? _);
                             [destruct (_ <=? 0)%Z|]];
      injection U as <- <-; simpl; congruence.
Qed.

(** The loop pays the reward of each entry without health, to money and
    to score alike, and keeps exactly entries that have health left. *)
Lemma updateEnemies_payout dt ids : forall g ids' g',
  Game.updateEnemies dt ids g = (ids', g') ->
  Game.money g' = (Game.money g + duePayout (Game.heap g) ids)%Z
  /\ Game.score g' = (Game.score g + duePayout (Game.heap g) ids)%Z
  /\ (forall id, id ∈ ids' -> id ∈ ids /\ ~ dead (Game.heap g) id).
Proof.
  induction ids as [|id rest IH]; intros g ids' g' U; simpl in U.
  - injection U as <- <-. simpl. repeat split; try lia.
    + exact H.
    + apply not_elem_of_nil in H. contradiction.
  - destruct (Game.updateEnemies dt rest g) as [rest' g1] eqn:R.
    pose proof (updateEnemies_vitals _ _ _ _ _ R) as V.
    specialize (IH _ _ _ R). destruct IH as (Hm & Hs & Hin).
    pose proof (vitals_lookup (Game.heap g) id) as L.
    pose proof (vitals_lookup (Game.heap g1) id) as L1.
    rewrite V, L in L1. simpl.
    assert (Hrest : forall i, i ∈ rest' -> i ∈ id :: rest /\ ~ dead (Game.heap g) i).
    { intros i Hi. destruct (Hin i Hi). split; [right|]; assumption. }
    destruct (Game.heap g1 !! id) as [enemy|] eqn:He,
             (Game.heap g !! id) as [e0|] eqn:He0; simpl in L1; try discriminate.
    + injection L1 as Hh Hr.
      pose proof (Enemy_update_vitals game_path dt enemy) as [Hh' Hr'].
      rewrite Hh', Hr' in U. rewrite Hh, Hr.
      destruct (Z.leb_spec (Enemy.health enemy) 0).
      * injection U as <- <-. simpl. repeat split; try lia. all: apply Hrest; assumption.
      * assert (Hid : forall i, i ∈ id :: rest' ->
                        i ∈ id :: rest /\ ~ dead (Game.heap g) i).
        { intros i Hi. apply elem_of_cons in Hi as [->|Hi]; [|auto].
          split; [left|]. intros (e & Hl & Hd). rewrite He0 in Hl.
          injection Hl as <-. lia. }
        destruct (CANVAS_WIDTH <? _); [destruct (_ <=? 0)%Z|];
          injection U as <- <-; simpl; repeat split; try lia; try assumption.
        all: try (apply Hrest; assumption); apply Hid; assumption.
    + injection U as <- <-. repeat split; try assumption.
      all: apply elem_of_cons in H as [->|Hi];
        [|apply Hrest; assumption].
      * left.
      * intros (e & Hl & _). rewrite He0 in Hl. discriminate.
Qed.


(** Lives only go down in the enemy loop, and [gameOver] is raised as soon
    as they are at 0 or below; it is never lowered. *)
Lemma updateEnemies_lives dt ids : forall g ids' g',
  Game.updateEnemies dt ids g = (ids', g') ->
  (Game.lives g' <= Game.lives g)%Z
  /\ (Game.gameOver g = true -> Game.gameOver g' = true)
  /\ (((Game.lives g <= 0)%Z -> Game.gameOver g = true) ->
      (Game.lives g' <= 0)%Z -> Game.gameOver g' = true).
Proof.
  induction ids as [|id rest IH]; intros g ids' g' U; simpl in U.
  - injection U as <- <-. repeat split; [lia|auto|auto].
  - destruct (Game.updateEnemies dt rest g) as [rest' g1] eqn:R.
    specialize (IH _ _ _ R). destruct IH as (Hl & Ho & Hi).
    destruct (Game.heap g1 !! id) as [enemy|];
      [|injection U as <- <-; repeat split; assumption].
    destruct (_ <=? 0)%Z;
      [injection U as <- <-; simpl; repeat split; assumption|].
    destruct (CANVAS_WIDTH <? _);
      [|injection U as <- <-; simpl; repeat split; assumption].
    simpl in U. destruct (Z.leb_spec (Game.lives g1 - 1) 0);
      injection U as <- <-; simpl; repeat split; try lia; auto.
Qed.

Lemma updateEnemies_rewards dt ids : forall g ids' g',
  Game.updateEnemies dt ids g = (ids', g') ->
  Forall (fun enemy => (0 <= Enemy.reward enemy)%Z) (Game.heap g) ->
  Forall (fun enemy => (0 <= Enemy.reward enemy)%Z) (Game.heap g')
  /\ (Game.money g <= Game.money g')%Z.
Proof.
  induction ids as [|id rest IH]; intros g ids' g' U F; simpl in U.
  - injection U as <- <-. split; [exact F|lia].
  - destruct (Game.updateEnemies dt rest g) as [rest' g1] eqn:R.
    specialize (IH _ _ _ R F). destruct IH as (F1 & Hm).
    destruct (Game.heap g1 !! id) as [enemy|] eqn:He;
      [|injection U as <- <-; split; assumption].
    pose proof (Enemy_update_vitals game_path dt enemy) as [_ Hr].
    assert (Hpos : (0 <= Enemy.reward enemy)%Z).
    { rewrite Forall_lookup in F1. exact (F1 _ _ He). }
    assert (F2 : Forall (fun enemy => (0 <= Enemy.reward enemy)%Z)
                   (<[id := Enemy.update game_path dt enemy]> (Game.heap g1))).
    { apply Forall_insert; [exact F1|]. rewrite Hr. exact Hpos. }
    destruct (_ <=? 0)%Z; [|destruct (CANVAS_WIDTH <? _);
                             [destruct (_ <=? 0)%Z|]];
      injection U as <- <-; simpl; (split; [exact F2|]); lia.
Qed.

Lemma Tower_update_shape dt heap enemies tw tw' shot :
  Tower.update dt heap enemies tw = (tw', shot) ->
  Tower.damage tw' = Tower.damage tw
  /\ forall p, shot = Some p -> Projectile.damage p = Tower.damage tw.
Proof.
  intros U. destruct shot as [p|].
  - apply update_fired_inv in U. destruct U as (_ & -> & id & _ & ->).
    split; [reflexivity|]. intros p [= <-]. reflexivity.
  - apply update_silent_inv in U. subst tw'. split; [reflexivity|discriminate].
Qed.

Lemma updateTowers_damage dt heap enemies towers : forall projectiles towers' projectiles',
  Game.updateTowers dt heap enemies towers projectiles = (towers', projectiles') ->
  Forall (fun tw => (0 <= Tower.damage tw)%Z) towers ->
  Forall (fun p => (0 <= Projectile.damage p)%Z) projectiles ->
  Forall (fun tw => (0 <= Tower.damage tw)%Z) towers'
  /\ Forall (fun p => (0 <= Projectile.damage p)%Z) projectiles'.
Proof.
  induction towers as [|tw rest IH]; intros ps towers' ps' U Ft Fp; simpl in U.
  - injection U as <- <-. split; assumption.
  - destruct (Tower.update dt heap enemies tw) as [tw' shot] eqn:T.
    apply Tower_update_shape in T. destruct T as [Hd Hs].
    apply Forall_cons in Ft. destruct Ft as [Htw Frest].
    destruct (Game.updateTowers dt heap enemies rest _) as [rest' ps''] eqn:R.
    injection U as <- <-.
    assert (Fp' : Forall (fun p => (0 <= Projectile.damage p)%Z)
                    match shot with Some p => ps ++ [p] | None => ps end).
    { destruct shot as [p|]; [|exact Fp].
      apply Forall_app. split; [exact Fp|]. apply Forall_singleton.
      rewrite (Hs p eq_refl). exact Htw. }
    destruct (IH _ _ _ R Frest Fp') as [F1 F2].
    split; [|exact F2]. apply Forall_cons. split; [lia|exact F1].
Qed.

(** ** The archetype tables *)

Lemma enemyTypes_positive type stats :
  enemyTypes type = Some stats -> (0 < es_health stats)%Z /\ (0 < es_reward stats)%Z.
Proof.
  unfold enemyTypes. intros H.
  repeat (destruct (_ =? _)%string; [injection H as <-; simpl; lia|]).
  discriminate.
Qed.

Lemma towerTypes_nonneg type stats :
  towerTypes type = Some stats -> (0 <= ts_damage stats)%Z /\ (0 <= ts_cost stats)%Z.
Proof.
  unfold towerTypes. intros H.
  repeat (destruct (_ =? _)%string; [injection H as <-; simpl; lia|]).
  discriminate.
Qed.

(** ** The projectile loop and the scheduler, on the store *)

Lemma wornDown_refl heap : wornDown heap heap.
Proof. apply Forall_Forall2_diag, Forall_forall. intros; split; [reflexivity|lia]. Qed.

Lemma wornDown_trans h1 h2 h3 : wornDown h1 h2 -> wornDown h2 h3 -> wornDown h1 h3.
Proof.
  unfold wornDown. intros H12. revert h3.
  induction H12 as [|e1 e2 l1 l2 [Hr Hh] _ IH]; intros h3 H23.
  - inversion H23. constructor.
  - inversion H23 as [|e2' e3 l2' l3 [Hr' Hh'] Hrest]; subst.
    constructor; [split; [congruence|lia]|apply IH; exact Hrest].
Qed.


Lemma Projectile_update_wornDown dt heap p heap' p' :
  Projectile.update dt heap p = (heap', p') ->
  (0 <= Projectile.damage p)%Z ->
  wornDown heap heap' /\ Projectile.damage p' = Projectile.damage p.
Proof.
  unfold Projectile.update. intros U Hd.
  destruct (Projectile.target p) as [id|];
    [|injection U as <- <-; split; [apply wornDown_refl|reflexivity]].
  destruct (heap !! id) as [enemy|] eqn:He;
    [|injection U as <- <-; split; [apply wornDown_refl|reflexivity]].
  destruct (_ <=? 0)%Z;
    [injection U as <- <-; split; [apply wornDown_refl|reflexivity]|].
  destruct (_ <? 5); injection U as <- <-;
    (split; [|reflexivity]); [|apply wornDown_refl].
  rewrite <- (list_insert_id heap id enemy He) at 1.
  apply Forall2_insert; [apply wornDown_refl|]. simpl. split; [reflexivity|lia].
Qed.

Lemma updateProjectiles_wornDown dt ps : forall heap ps' heap',
  Game.updateProjectiles dt ps heap = (ps', heap') ->
  Forall (fun p => (0 <= Projectile.damage p)%Z) ps ->
  wornDown heap heap' /\ Forall (fun p => (0 <= Projectile.damage p)%Z) ps'.
Proof.
  induction ps as [|p rest IH]; intros heap ps' heap' U F; simpl in U.
  - injection U as <- <-. split; [apply wornDown_refl|constructor].
  - apply Forall_cons in F. destruct F as [Hp Frest].
    destruct (Game.updateProjectiles dt rest heap) as [rest' heap1] eqn:R.
    destruct (IH _ _ _ R Frest) as [W1 F1].
    destruct (Projectile.update dt heap1 p) as [heap2 p1] eqn:P.
    destruct (Projectile_update_wornDown _ _ _ _ _ P Hp) as [W2 Hd].
    injection U as <- <-. split; [exact (wornDown_trans _ _ _ W1 W2)|].
    destruct (Projectile.markedForDeletion p1); [exact F1|].
    apply Forall_cons. split; [lia|exact F1].
Qed.

Lemma WaveManager_update_shape dt wm enemies (heap : Heap) wm' enemies' heap' :
  WaveManager.update dt wm enemies heap = (wm', enemies', heap') ->
  length (WaveManager.waves wm') = length (WaveManager.waves wm)
  /\ ((enemies' = enemies /\ heap' = heap)
      \/ exists type stats,
           enemyTypes type = Some stats
           /\ enemies' = enemies ++ [length heap]
           /\ heap' = heap ++ [Enemy.new type stats game_path]).
Proof.
  unfold WaveManager.update. intros U.
  destruct (WaveManager.waves wm !! WaveManager.currentWaveIndex wm) as [wave|];
    [|injection U as <- <- <-; split; [reflexivity|left; split; reflexivity]].
  destruct (0 <? _);
    [injection U as <- <- <-; split; [reflexivity|left; split; reflexivity]|].
  destruct wave as [|type rest].
  - destruct (_ =? _)%nat; injection U as <- <- <-;
      (split; [reflexivity|left; split; reflexivity]).
  - destruct (1 <=? _);
      [|injection U as <- <- <-; split; [reflexivity|left; split; reflexivity]].
    destruct (enemyTypes type) as [stats|] eqn:E; injection U as <- <- <-; simpl;
      (split; [apply length_insert|]).
    + right. exists type, stats. repeat split. exact E.
    + left. split; reflexivity.
Qed.

(** ** One frame, stage by stage *)


Lemma update_halted dt g :
  Game.gameOver g = true \/ Game.gameWon g = true -> Game.update dt g = g.
Proof.
  intros [H|H]; unfold Game.update; rewrite H; [reflexivity|].
  rewrite orb_true_r. reflexivity.
Qed.

(** A frame of a game that is neither over nor won: the scheduler, the
    enemy loop, the towers, the projectile loop, and where each result
    ends up in the game. *)
Lemma update_run dt g :
  Game.gameOver g = false -> Game.gameWon g = false ->
  exists wm enemies1 heap1 enemies2 g2 towers' ps' ps'' heap',
    WaveManager.update dt (Game.waveManager g) (Game.enemies g) (Game.heap g)
      = (wm, enemies1, heap1)
    /\ Game.updateEnemies dt enemies1
         (Game.set_heap (Game.set_enemies (Game.set_waveManager g wm) enemies1) heap1)
       = (enemies2, g2)
    /\ Game.updateTowers dt (Game.heap g2) enemies2 (Game.towers g)
         (Game.projectiles g) = (towers', ps')
    /\ Game.updateProjectiles dt ps' (Game.heap g2) = (ps'', heap')
    /\ Game.money (Game.update dt g) = Game.money g2
    /\ Game.score (Game.update dt g) = Game.score g2
    /\ Game.lives (Game.update dt g) = Game.lives g2
    /\ Game.gameOver (Game.update dt g) = Game.gameOver g2
    /\ Game.heap (Game.update dt g) = heap'
    /\ Game.enemies (Game.update dt g) = enemies2
    /\ Game.waveManager (Game.update dt g) = wm
    /\ Game.towers (Game.update dt g) = towers'
    /\ Game.projectiles (Game.update dt g) = ps''
    /\ Game.gameWon (Game.update dt g)
       = ((length (WaveManager.waves wm) =? 0)%nat && (length enemies2 =? 0)%nat)
    /\ Game.grid (Game.update dt g) = Game.grid g
    /\ Game.selectedTowerType (Game.update dt g) = Game.selectedTowerType g
    /\ Game.placingTower (Game.update dt g) = Game.placingTower g.
Proof.
  intros Hover Hwon. unfold Game.update. rewrite Hover, Hwon. simpl.
  destruct (WaveManager.update dt _ _ _) as [[wm enemies1] heap1] eqn:W.
  destruct (Game.updateEnemies dt enemies1 _) as [enemies2 g2] eqn:E.
  pose proof (updateEnemies_frame _ _ _ _ _ E)
    as (Ht & _ & Hp & Hw & Hgw & Hsel & Hpl & Hgr & _).
  simpl in Ht, Hp, Hw, Hgw, Hsel, Hpl, Hgr.
  rewrite Ht, Hp.
  destruct (Game.updateTowers dt (Game.heap g2) enemies2 _ _)
    as [towers' ps'] eqn:T.
  destruct (Game.updateProjectiles dt ps' (Game.heap g2)) as [ps'' heap'] eqn:P.
  exists wm, enemies1, heap1, enemies2, g2, towers', ps', ps'', heap'.
  rewrite Hw.
  destruct ((length (WaveManager.waves wm) =? 0)%nat && (length enemies2 =? 0)%nat);
    simpl; repeat split; congruence.
Qed.

(** ** What the commands keep *)

Lemma run_invariant (P : Game.t -> Prop) :
  (forall c g, P g -> P (step c g)) -> forall cs g, P g -> P (run cs g).
Proof.
  intros Hstep cs. induction cs as [|c cs IH]; intros g H; simpl; [exact H|].
  apply IH, Hstep, H.
Qed.

Lemma wornDown_rewards heap heap' :
  wornDown heap heap' ->
  Forall (fun enemy => (0 <= Enemy.reward enemy)%Z) heap ->
  Forall (fun enemy => (0 <= Enemy.reward enemy)%Z) heap'.
Proof.
  unfold wornDown. induction 1 as [|e e' l l' [Hr _] _ IH]; intros F.
  - constructor.
  - apply Forall_cons in F. destruct F as [He Fl].
    apply Forall_cons. split; [lia|apply IH; exact Fl].
Qed.

Lemma Projectile_update_rewards dt heap p heap' p' :
  Projectile.update dt heap p = (heap', p') ->
  Forall (fun enemy => (0 <= Enemy.reward enemy)%Z) heap ->
  Forall (fun enemy => (0 <= Enemy.reward enemy)%Z) heap'.
Proof.
  unfold Projectile.update. intros U F.
  destruct (Projectile.target p) as [id|]; [|injection U as <- <-; exact F].
  destruct (heap !! id) as [enemy|] eqn:He; [|injection U as <- <-; exact F].
  destruct (_ <=? 0)%Z; [injection U as <- <-; exact F|].
  destruct (_ <? 5); injection U as <- <-; [|exact F].
  apply Forall_insert; [exact F|]. simpl.
  rewrite Forall_lookup in F. exact (F _ _ He).
Qed.

Lemma updateProjectiles_rewards dt ps : forall heap ps' heap',
  Game.updateProjectiles dt ps heap = (ps', heap') ->
  Forall (fun enemy => (0 <= Enemy.reward enemy)%Z) heap ->
  Forall (fun enemy => (0 <= Enemy.reward enemy)%Z) heap'.
Proof.
  induction ps as [|p rest IH]; intros heap ps' heap' U F; simpl in U.
  - injection U as <- <-. exact F.
  - destruct (Game.updateProjectiles dt rest heap) as [rest' heap1] eqn:R.
    pose proof (IH _ _ _ R F) as F1.
    destruct (Projectile.update dt heap1 p) as [heap2 p1] eqn:P.
    injection U as <- <-. exact (Projectile_update_rewards _ _ _ _ _ P F1).
Qed.

Lemma solvent_update dt g :
  solvent g ->
  solvent (Game.update dt g) /\ (Game.money g <= Game.money (Game.update dt g))%Z.
Proof.
  intros S.
  destruct (Game.gameOver g) eqn:Hover;
    [rewrite update_halted; [split; [exact S|lia]|left; exact Hover]|].
  destruct (Game.gameWon g) eqn:Hwon;
    [rewrite update_halted; [split; [exact S|lia]|right; exact Hwon]|].
  destruct S as [Hm Hr]. unfold solvent.
  destruct (update_run dt g Hover Hwon)
    as (wm & enemies1 & heap1 & enemies2 & g2 & towers' & ps' & ps'' & heap'
        & W & E & T & P & -> & _ & _ & _ & -> & _).
  pose proof (WaveManager_update_shape _ _ _ _ _ _ _ W) as [_ Hshape].
  assert (Hr1 : Forall (fun enemy => (0 <= Enemy.reward enemy)%Z) heap1).
  { destruct Hshape as [[_ ->]|(type & stats & Hty & _ & ->)]; [exact Hr|].
    apply Forall_app. split; [exact Hr|]. apply Forall_singleton.
    apply enemyTypes_positive in Hty. simpl. lia. }
  destruct (updateEnemies_rewards _ _ _ _ _ E Hr1) as [Hr2 Hm2].
  simpl in Hm2.
  pose proof (updateProjectiles_rewards _ _ _ _ _ P Hr2) as Hr3.
  split; [split; [lia|exact Hr3]|exact Hm2].
Qed.

Lemma solvent_upgradeTower i g : solvent g -> solvent (fst (Game.upgradeTower i g)).
Proof.
  intros S. unfold Game.upgradeTower.
  destruct (Game.towers g !! i) as [tw|]; [|exact S].
  destruct (Z.leb_spec (Tower.level tw * 25 + 50) (Game.money g)); [|exact S].
  destruct S as [Hm Hr]. split; simpl; [lia|exact Hr].
Qed.

Lemma solvent_handleClick x y g : solvent g -> solvent (fst (Game.handleClick x y g)).
Proof.
  intros S. unfold Game.handleClick.
  destruct (Game.gameOver g); [exact S|].
  destruct (Game.placingTower g).
  - destruct (floorZ (x / GRID_SIZE)) as [gridX|]; [|exact S].
    destruct (floorZ (y / GRID_SIZE)) as [gridY|]; [|exact S].
    destruct (grid_get _ _ _) as [cell|]; [|exact S].
    destruct (walkable cell); [|exact S].
    destruct (towerTypes (Game.selectedTowerType g)) as [towerType|];
      [|destruct (inherited _); exact S].
    destruct (Z.leb_spec (ts_cost towerType) (Game.money g)); [|exact S].
    destruct S as [Hm Hr]. split; simpl; [lia|exact Hr].
  - destruct (Game.clickedTower x y (Game.towers g) 0) as [i|]; [|exact S].
    apply solvent_upgradeTower. exact S.
Qed.

Lemma startPlacingTower_placing type g :
  Game.startPlacingTower type g = g
  \/ Game.startPlacingTower type g = Game.set_placing g type true.
Proof.
  unfold Game.startPlacingTower.
  destruct (towerTypes type); [right; reflexivity|].
  destruct (inherited type); [right|left]; reflexivity.
Qed.

Lemma solvent_step c g : solvent g -> solvent (step c g).
Proof.
  destruct c as [dt|x y|type]; simpl.
  - intros S. apply (solvent_update dt g S).
  - apply solvent_handleClick.
  - intros S. destruct (startPlacingTower_placing type g) as [-> | ->]; exact S.
Qed.

(** A click leaves the simulation proper alone. *)
Lemma handleClick_frame x y g :
  Game.enemies (fst (Game.handleClick x y g)) = Game.enemies g
  /\ Game.heap (fst (Game.handleClick x y g)) = Game.heap g
  /\ Game.projectiles (fst (Game.handleClick x y g)) = Game.projectiles g
  /\ Game.waveManager (fst (Game.handleClick x y g)) = Game.waveManager g
  /\ Game.lives (fst (Game.handleClick x y g)) = Game.lives g
  /\ Game.score (fst (Game.handleClick x y g)) = Game.score g
  /\ Game.gameOver (fst (Game.handleClick x y g)) = Game.gameOver g
  /\ Game.gameWon (fst (Game.handleClick x y g)) = Game.gameWon g.
Proof.
  unfold Game.handleClick.
  destruct (Game.gameOver g) eqn:Hover; [simpl; repeat split; auto|].
  destruct (Game.placingTower g).
  - destruct (floorZ (x / GRID_SIZE)) as [gridX|]; [|simpl; repeat split; auto].
    destruct (floorZ (y / GRID_SIZE)) as [gridY|]; [|simpl; repeat split; auto].
    destruct (grid_get _ _ _) as [cell|]; [|simpl; repeat split; auto].
    destruct (walkable cell); [|simpl; repeat split; auto].
    destruct (towerTypes _) as [towerType|];
      [|destruct (inherited _); simpl; repeat split; auto].
    destruct (_ <=? _)%Z; simpl; repeat split; auto.
  - destruct (Game.clickedTower x y (Game.towers g) 0) as [i|];
      [|simpl; repeat split; auto].
    unfold Game.upgradeTower.
    destruct (Game.towers g !! i) as [tw|]; [|simpl; repeat split; auto].
    destruct (_ <=? _)%Z; simpl; repeat split; auto.
Qed.

Lemma step_click_frame c g :
  match c with Tick _ => False | _ => True end ->
  Game.enemies (step c g) = Game.enemies g
  /\ Game.heap (step c g) = Game.heap g
  /\ Game.projectiles (step c g) = Game.projectiles g
  /\ Game.waveManager (step c g) = Game.waveManager g
  /\ Game.lives (step c g) = Game.lives g
  /\ Game.score (step c g) = Game.score g
  /\ Game.gameOver (step c g) = Game.gameOver g
  /\ Game.gameWon (step c g) = Game.gameWon g.
Proof.
  destruct c as [dt|x y|type]; simpl; [contradiction| |]; intros _.
  - apply handleClick_frame.
  - destruct (startPlacingTower_placing type g) as [-> | ->]; repeat split.
Qed.

Lemma livesChecked_step c g : livesChecked g -> livesChecked (step c g).
Proof.
  unfold livesChecked. destruct c as [dt|x y|type].
  - simpl. intros H.
    destruct (Game.gameOver g) eqn:Hover;
      [rewrite update_halted; [rewrite Hover; auto|left; exact Hover]|].
    destruct (Game.gameWon g) eqn:Hwon;
      [rewrite update_halted; [rewrite Hover; exact H|right; exact Hwon]|].
    destruct (update_run dt g Hover Hwon)
      as (wm & enemies1 & heap1 & enemies2 & g2 & towers' & ps' & ps'' & heap'
          & W & E & _ & _ & _ & _ & -> & -> & _).
    destruct (updateEnemies_lives _ _ _ _ _ E) as (_ & _ & Hl2).
    simpl in Hl2. apply Hl2. rewrite Hover. exact H.
  - destruct (step_click_frame (Click x y) g I) as (_ & _ & _ & _ & -> & _ & -> & _).
    auto.
  - destruct (step_click_frame (StartPlacing type) g I)
      as (_ & _ & _ & _ & -> & _ & -> & _).
    auto.
Qed.

Lemma unwon_step c g : unwon g -> unwon (step c g).
Proof.
  unfold unwon. destruct c as [dt|x y|type].
  - simpl. intros [Hwon Hw].
    destruct (Game.gameOver g) eqn:Hover;
      [rewrite update_halted; [split; assumption|left; exact Hover]|].
    destruct (update_run dt g Hover Hwon)
      as (wm & enemies1 & heap1 & enemies2 & g2 & towers' & ps' & ps'' & heap'
          & W & _ & _ & _ & _ & _ & _ & _ & _ & _ & -> & _ & _ & -> & _).
    pose proof (WaveManager_update_shape _ _ _ _ _ _ _ W) as [Hlen _].
    assert (Hne : WaveManager.waves wm <> []).
    { intros E. rewrite E in Hlen. simpl in Hlen.
      destruct (WaveManager.waves (Game.waveManager g)); [congruence|discriminate]. }
    split; [|exact Hne].
    destruct (WaveManager.waves wm); [congruence|reflexivity].
  - destruct (step_click_frame (Click x y) g I)
      as (_ & _ & _ & -> & _ & _ & _ & ->). auto.
  - destruct (step_click_frame (StartPlacing type) g I)
      as (_ & _ & _ & -> & _ & _ & _ & ->). auto.
Qed.

Lemma damaging_step c g : damaging g -> damaging (step c g).
Proof.
  unfold damaging. destruct c as [dt|x y|type]; simpl.
  - intros [Ht Hp].
    destruct (Game.gameOver g) eqn:Hover;
      [rewrite update_halted; [split; assumption|left; exact Hover]|].
    destruct (Game.gameWon g) eqn:Hwon;
      [rewrite update_halted; [split; assumption|right; exact Hwon]|].
    destruct (update_run dt g Hover Hwon)
      as (wm & enemies1 & heap1 & enemies2 & g2 & towers' & ps' & ps'' & heap'
          & W & E & T & P & _ & _ & _ & _ & _ & _ & _ & -> & -> & _).
    destruct (updateTowers_damage _ _ _ _ _ _ _ T Ht Hp) as [Ht' Hp'].
    destruct (updateProjectiles_wornDown _ _ _ _ _ P Hp') as [_ Hp''].
    split; assumption.
  - intros [Ht Hp]. unfold Game.handleClick.
    destruct (Game.gameOver g); [split; assumption|].
    destruct (Game.placingTower g).
    + destruct (floorZ (x / GRID_SIZE)) as [gridX|]; [|split; assumption].
      destruct (floorZ (y / GRID_SIZE)) as [gridY|]; [|split; assumption].
      destruct (grid_get _ _ _) as [cell|]; [|split; assumption].
      destruct (walkable cell); [|split; assumption].
      destruct (towerTypes (Game.selectedTowerType g)) as [towerType|] eqn:Hty;
        [|destruct (inherited _); split; assumption].
      destruct (_ <=? _)%Z; [|split; assumption].
      simpl. split; [|exact Hp].
      apply Forall_app. split; [exact Ht|]. apply Forall_singleton. simpl.
      apply towerTypes_nonneg in Hty. lia.
    + destruct (Game.clickedTower x y (Game.towers g) 0) as [i|]; [|split; assumption].
      unfold Game.upgradeTower.
      destruct (Game.towers g !! i) as [tw|] eqn:Htw; [|split; assumption].
      destruct (_ <=? _)%Z; [|split; assumption].
      simpl. split; [|exact Hp].
      apply Forall_insert; [exact Ht|]. unfold Tower.upgrade, Tower.damage at 1.
      rewrite floor_three_halves. rewrite Forall_lookup in Ht.
      specialize (Ht _ _ Htw). simpl in Ht. apply Z.div_pos; lia.
  - intros H. destruct (startPlacingTower_placing type g) as [-> | ->]; exact H.
Qed.

(** ** Sessions: money, lives, winning (C10, C3, C1) *)

(** C10.  From any game with money at least 0 and no enemy object with a
    negative reward, whatever the commands: money is at least 0, a frame
    never lowers it, and whatever a click does (placing a tower or
    upgrading one are the only deductions, each behind its
    [money >= cost] test) leaves at least 0. *)
Theorem C10_money_never_negative (g0 : Game.t) (cs : list Command) :
  (0 <= Game.money g0)%Z ->
  Forall (fun enemy => (0 <= Enemy.reward enemy)%Z) (Game.heap g0) ->
  (0 <= Game.money (run cs g0))%Z
  /\ (forall dt,
        (Game.money (run cs g0) <= Game.money (Game.update dt (run cs g0)))%Z)
  /\ (forall x y, (0 <= Game.money (fst (Game.handleClick x y (run cs g0))))%Z)
  /\ (forall i, (0 <= Game.money (fst (Game.upgradeTower i (run cs g0))))%Z)
  /\ (forall type,
        Game.money (Game.startPlacingTower type (run cs g0)) = Game.money (run cs g0)).
Proof.
  intros Hm Hr.
  assert (S : solvent (run cs g0)).
  { apply (run_invariant solvent solvent_step). split; assumption. }
  split; [apply S|]. split; [intros dt; apply solvent_update; exact S|].
  split; [intros x y; apply (solvent_handleClick x y _ S)|].
  split; [intros i; apply (solvent_upgradeTower i _ S)|].
  intros type. destruct (startPlacingTower_placing type (run cs g0)) as [-> | ->];
    reflexivity.
Qed.

(** Not once is a game won that was not and has waves: the win test of
    [update] asks for [waves.length === 0], and the list of waves keeps its
    length. *)
Lemma gameWon_never (g0 : Game.t) (cs : list Command) :
  unwon g0 -> Game.gameWon (run cs g0) = false.
Proof. intros H. apply (run_invariant unwon unwon_step cs g0 H). Qed.

(** C3, as the code has it.  From any game in which lives at 0 or below
    come with [gameOver], whatever the commands: lives at 0 or below come
    with [gameOver], and once [gameOver] is set a frame returns the game as
    it is, whatever the frame time.  (Lives below 0 do occur.) *)
Theorem C3_game_over_freezes (g0 : Game.t) (cs : list Command) :
  ((Game.lives g0 <= 0)%Z -> Game.gameOver g0 = true) ->
  ((Game.lives (run cs g0) <= 0)%Z -> Game.gameOver (run cs g0) = true)
  /\ (Game.gameOver (run cs g0) = true ->
      forall dt, Game.update dt (run cs g0) = run cs g0).
Proof.
  intros H. split.
  - exact (run_invariant livesChecked livesChecked_step cs g0 H).
  - intros Hover dt. apply update_halted. left. exact Hover.
Qed.

(** The opening session from the sample game: a tower is bought for 50. *)
Lemma C10_money_never_negative_witness :
  (0 <= Game.money (run openingSession startGame))%Z.
Proof.
  refine (proj1 (C10_money_never_negative startGame openingSession _ _)).
  - vm_compute. discriminate.
  - constructor.
Defined.

(** C3, the statement of the specification fails: the towerless session is made of frames
    with frame time 100 or 1.  Before its last frame there is 1 life left
    and two enemies are on the path; the last frame takes two lives and
    ends with -1. *)
Lemma C3_counterexample :
  Game.lives (run (take 29 towerlessSession) startGame) = 1%Z
  /\ Game.enemies (run (take 29 towerlessSession) startGame) = [19%nat; 20%nat]
  /\ Game.enemies (run towerlessSession startGame) = [20%nat]
  /\ Game.lives (run towerlessSession startGame) = (-1)%Z.
Proof. repeat split; vm_compute; reflexivity. Qed.

Lemma C3_game_over_freezes_witness :
  Game.gameOver (run towerlessSession startGame) = true
  /\ Game.update 1 (run towerlessSession startGame) = run towerlessSession startGame.
Proof.
  destruct (C3_game_over_freezes startGame towerlessSession) as [Hover Hfrozen].
  - vm_compute. intros H. exfalso. apply H. reflexivity.
  - assert (Hl : (Game.lives (run towerlessSession startGame) <= 0)%Z)
      by (vm_compute; discriminate).
    split; [exact (Hover Hl)|exact (Hfrozen (Hover Hl) 1)].
Defined.

(** C1, the code against the specification.  All six waves are done and no enemy is
    left, so by the specification this frame sets [gameWon]; it does not, for any
    frame time. *)
Theorem C1_all_waves_done_not_won (dt : float) :
  WaveManager.currentWaveIndex (Game.waveManager allWavesDoneGame)
  = length (WaveManager.waves (Game.waveManager allWavesDoneGame))
  /\ Game.enemies allWavesDoneGame = []
  /\ Game.gameOver allWavesDoneGame = false
  /\ Game.gameWon (Game.update dt allWavesDoneGame) = false
  /\ Game.update dt allWavesDoneGame = allWavesDoneGame.
Proof. repeat split. Qed.

(** ** The life of an enemy over a frame (C2) *)






(** ** The grid *)

Lemma grid_get_nonneg (grid : Grid) gridX gridY cell :
  grid_get grid gridX gridY = Some cell -> (0 <= gridX)%Z /\ (0 <= gridY)%Z.
Proof.
  unfold grid_get.
  destruct (Z.leb_spec 0 gridY), (Z.leb_spec 0 gridX); simpl;
    try discriminate. intros _. split; assumption.
Qed.

(** Reading a grid after one cell was rewritten. *)
Lemma grid_get_alter_at (f : Cell -> Cell) gridX0 gridY0 (grid : Grid) gridX gridY :
  (0 <= gridX0)%Z -> (0 <= gridY0)%Z ->
  grid_get (grid_alter f gridX0 gridY0 grid) gridX gridY
  = if decide (gridX = gridX0 /\ gridY = gridY0)
    then f <$> grid_get grid gridX gridY
    else grid_get grid gridX gridY.
Proof.
  intros Hx0 Hy0. unfold grid_get, grid_alter.
  destruct (Z.leb_spec 0 gridY), (Z.leb_spec 0 gridX); simpl;
    try (destruct (decide _) as [[-> ->]|_]; [lia|reflexivity]).
  rewrite list_lookup_alter.
  destruct (decide (Z.to_nat gridY0 = Z.to_nat gridY)) as [Ey|Ny].
  - apply Z2Nat.inj in Ey; [subst gridY0|lia|lia].
    destruct (grid !! Z.to_nat gridY) as [row|]; simpl.
    + rewrite list_lookup_alter.
      destruct (decide (Z.to_nat gridX0 = Z.to_nat gridX)) as [Ex|Nx].
      * apply Z2Nat.inj in Ex; [subst gridX0|lia|lia].
        destruct (decide _) as [_|N]; [reflexivity|]. exfalso. apply N. split; reflexivity.
      * destruct (decide _) as [[-> _]|_]; [congruence|reflexivity].
    + destruct (decide _); reflexivity.
  - destruct (decide _) as [[_ ->]|_]; [congruence|reflexivity].
Qed.

Lemma blank_grid_get (cell : Cell) gridX gridY :
  grid_get (replicate (Z.to_nat GRID_HEIGHT) (replicate (Z.to_nat GRID_WIDTH) cell))
    gridX gridY
  = if ((0 <=? gridY) && (gridY <? GRID_HEIGHT)
        && (0 <=? gridX) && (gridX <? GRID_WIDTH))%Z
    then Some cell else None.
Proof.
  unfold grid_get.
  destruct (Z.leb_spec 0 gridY), (Z.leb_spec 0 gridX); cbn [andb];
    rewrite ?andb_false_r; try reflexivity.
  destruct (Z.ltb_spec gridY GRID_HEIGHT); cbn [andb].
  - rewrite lookup_replicate_2 by lia.
    destruct (Z.ltb_spec gridX GRID_WIDTH).
    + apply lookup_replicate_2. lia.
    + apply lookup_replicate_None. lia.
  - rewrite (proj1 (lookup_replicate_None _ _ _)); [reflexivity|lia].
Qed.

(** The cells of [createGrid path], read one by one. *)
Lemma createGrid_lookup (path : list Point) (gridX gridY : Z) :
  grid_get (createGrid path) gridX gridY
  = if ((0 <=? gridY) && (gridY <? GRID_HEIGHT)
        && (0 <=? gridX) && (gridX <? GRID_WIDTH))%Z
    then Some (mkCell
                 (negb (existsb
                          (fun point =>
                             bool_decide (floorZ (px point / GRID_SIZE) = Some gridX)
                             && bool_decide (floorZ (py point / GRID_SIZE) = Some gridY))
                          path))
                 None)
    else None.
Proof.
  unfold createGrid.
  set (mark := fun (grid : Grid) point =>
         match floorZ (px point / GRID_SIZE), floorZ (py point / GRID_SIZE) with
         | Some gx, Some gy =>
             if ((0 <=? gy) && (gy <? GRID_HEIGHT) && (0 <=? gx) && (gx <? GRID_WIDTH))%Z
             then grid_alter (fun c => mkCell false (tower c)) gx gy grid
             else grid
         | _, _ => grid
         end).
  set (hit := fun point =>
         bool_decide (floorZ (px point / GRID_SIZE) = Some gridX)
         && bool_decide (floorZ (py point / GRID_SIZE) = Some gridY)).
  set (inside := ((0 <=? gridY) && (gridY <? GRID_HEIGHT)
                  && (0 <=? gridX) && (gridX <? GRID_WIDTH))%Z).
  assert (Hkeep : forall (grid : Grid) b,
            b = false ->
            (fun c => mkCell (walkable c && negb b) (tower c)) <$> grid_get grid gridX gridY
            = grid_get grid gridX gridY).
  { intros grid b ->. destruct (grid_get grid gridX gridY) as [[w t]|]; simpl;
      [rewrite andb_true_r|]; reflexivity. }
  assert (Hfold : forall grid : Grid,
            (is_Some (grid_get grid gridX gridY) -> inside = true) ->
            grid_get (fold_left mark path grid) gridX gridY
            = (fun c => mkCell (walkable c && negb (existsb hit path)) (tower c))
                <$> grid_get grid gridX gridY).
  { induction path as [|point path IH]; intros grid Hin; simpl.
    - destruct (grid_get grid gridX gridY) as [[w t]|]; simpl; [|reflexivity].
      rewrite andb_true_r. reflexivity.
    - assert (Hstep : grid_get (mark grid point) gridX gridY
                      = (fun c => mkCell (walkable c && negb (hit point)) (tower c))
                          <$> grid_get grid gridX gridY).
      { unfold mark, hit.
        destruct (floorZ (px point / GRID_SIZE)) as [gx|];
          [|rewrite Hkeep; [reflexivity|];
            rewrite bool_decide_eq_false_2 by discriminate; reflexivity].
        destruct (floorZ (py point / GRID_SIZE)) as [gy|];
          [|rewrite Hkeep; [reflexivity|];
            rewrite (bool_decide_eq_false_2 (None = Some gridY)) by discriminate;
            apply andb_false_r].
        destruct (Z.leb_spec 0 gy), (Z.ltb_spec gy GRID_HEIGHT),
                 (Z.leb_spec 0 gx), (Z.ltb_spec gx GRID_WIDTH); cbn [andb].
        1: { rewrite grid_get_alter_at by assumption.
             destruct (decide _) as [[-> ->]|N].
             - rewrite !bool_decide_eq_true_2 by reflexivity. simpl.
               destruct (grid_get grid _ _) as [[w t]|]; simpl; [|reflexivity].
               rewrite andb_false_r. reflexivity.
             - rewrite Hkeep; [reflexivity|].
               apply andb_false_iff.
               destruct (decide (gridX = gx)) as [->|Nx].
               + right. apply bool_decide_eq_false_2. intros [= ->]. apply N.
                 split; reflexivity.
               + left. apply bool_decide_eq_false_2. intros [= ->]. apply Nx.
                 reflexivity. }
        all: destruct (grid_get grid gridX gridY) as [[w t]|] eqn:G; [|reflexivity];
          cbn [fmap option_fmap option_map walkable tower];
          replace (bool_decide (Some gx = Some gridX) && bool_decide (Some gy = Some gridY))
            with false; [rewrite andb_true_r; reflexivity|];
          symmetry; apply andb_false_iff;
          specialize (Hin (ex_intro _ _ eq_refl)); unfold inside in Hin;
          destruct (decide (gx = gridX)) as [->|Nx];
            [right; apply bool_decide_eq_false_2; intros [= ->]; lia
            |left; apply bool_decide_eq_false_2; intros [= ->]; apply Nx; reflexivity]. }
      rewrite IH.
      + rewrite Hstep. destruct (grid_get grid gridX gridY) as [[w t]|]; simpl;
          [|reflexivity].
        rewrite negb_orb, andb_assoc. reflexivity.
      + rewrite Hstep. intros [c Hc].
        destruct (grid_get grid gridX gridY) as [c0|] eqn:G; [|discriminate].
        apply Hin. eexists. reflexivity. }
  rewrite Hfold.
  - rewrite blank_grid_get. fold inside. destruct inside; reflexivity.
  - rewrite blank_grid_get. fold inside. destruct inside; [reflexivity|].
    intros [c Hc]. discriminate.
Qed.

Lemma createGrid_pathBlocked (path : list Point) : pathBlocked path (createGrid path).
Proof.
  intros point gridX gridY cell Hin Hx Hy Hget.
  rewrite createGrid_lookup in Hget.
  destruct (_ && _)%bool; [|discriminate]. injection Hget as <-. simpl.
  apply negb_false_iff, existsb_exists. exists point.
  split; [apply list_elem_of_In; exact Hin|].
  rewrite !bool_decide_eq_true_2 by assumption. reflexivity.
Qed.

Lemma grid_get_alter (f : Cell -> Cell) gridX gridY (grid : Grid) gridX' gridY' cell' :
  grid_get (grid_alter f gridX gridY grid) gridX' gridY' = Some cell' ->
  exists cell, grid_get grid gridX' gridY' = Some cell /\ (cell' = cell \/ cell' = f cell).
Proof.
  unfold grid_get, grid_alter.
  destruct ((0 <=? gridY') && (0 <=? gridX'))%Z; [|discriminate].
  rewrite list_lookup_alter.
  destruct (decide (Z.to_nat gridY = Z.to_nat gridY')) as [->|_].
  - destruct (grid !! Z.to_nat gridY') as [row|]; simpl; [|discriminate].
    rewrite list_lookup_alter.
    destruct (decide (Z.to_nat gridX = Z.to_nat gridX')) as [->|_].
    + destruct (row !! Z.to_nat gridX') as [cell|]; simpl; [|discriminate].
      intros [= <-]. exists cell. split; [reflexivity|right; reflexivity].
    + intros H. exists cell'. split; [exact H|left; reflexivity].
  - destruct (grid !! Z.to_nat gridY') as [row|]; [|discriminate].
    intros H. exists cell'. split; [exact H|left; reflexivity].
Qed.

(** What a click does to the grid: nothing, or one cell made a tower
    cell. *)
Lemma handleClick_grid x y g :
  Game.grid (fst (Game.handleClick x y g)) = Game.grid g
  \/ exists gridX gridY i,
       Game.grid (fst (Game.handleClick x y g))
       = grid_alter (fun _ => mkCell false (Some i)) gridX gridY (Game.grid g).
Proof.
  unfold Game.handleClick.
  destruct (Game.gameOver g); [left; reflexivity|].
  destruct (Game.placingTower g).
  - destruct (floorZ (x / GRID_SIZE)) as [gridX|]; [|left; reflexivity].
    destruct (floorZ (y / GRID_SIZE)) as [gridY|]; [|left; reflexivity].
    destruct (grid_get _ _ _) as [cell|]; [|left; reflexivity].
    destruct (walkable cell); [|left; reflexivity].
    destruct (towerTypes _) as [towerType|];
      [|destruct (inherited _); left; reflexivity].
    destruct (_ <=? _)%Z; [|left; reflexivity].
    right. eexists _, _, _. reflexivity.
  - destruct (Game.clickedTower x y (Game.towers g) 0) as [i|]; [|left; reflexivity].
    unfold Game.upgradeTower.
    destruct (Game.towers g !! i) as [tw|]; [|left; reflexivity].
    destruct (_ <=? _)%Z; left; reflexivity.
Qed.

Lemma pathBlocked_place path (grid : Grid) gridX gridY (i : nat) :
  pathBlocked path grid ->
  pathBlocked path (grid_alter (fun _ => mkCell false (Some i)) gridX gridY grid).
Proof.
  intros Hpath point gx gy cell' Hin Hx Hy Hget.
  apply grid_get_alter in Hget. destruct Hget as (cell & Hget & [->| ->]).
  - exact (Hpath _ _ _ _ Hin Hx Hy Hget).
  - reflexivity.
Qed.

Lemma towersBlocked_place (grid : Grid) gridX gridY (i : nat) :
  towersBlocked grid ->
  towersBlocked (grid_alter (fun _ => mkCell false (Some i)) gridX gridY grid).
Proof.
  intros Htower gx gy cell' Hget Ht.
  apply grid_get_alter in Hget. destruct Hget as (cell & Hget & [->| ->]).
  - exact (Htower _ _ _ Hget Ht).
  - reflexivity.
Qed.

(** ** Rejected commands (C9) *)

(** C9, as the code has it.  The commands of a game that is not over.
    - A click in placing mode on a cell that is not walkable, or outside
      the grid, returns the game as it is (no tower, same money) and shows
      nothing: there is no error value, and no alert either.
    - A click in placing mode on a walkable cell with less money than the
      selected type costs returns the game as it is and shows the alert
      [Not enough money!]; so does such a click, whatever the money, when
      the selected type is a key that [towerTypes] inherits.
    - [upgradeTower] with less money than [level * 25 + 50] returns the
      game as it is and shows the alert that names the cost.
    - Every command that shows something returns the game as it is.
    - The cells under the path are not walkable in the grid that
      [createGrid] makes, and a click keeps them, and the cells that hold a
      tower, not walkable. *)
Theorem C9_rejected_commands (x y : float) (g : Game.t) :
  Game.gameOver g = false ->
  (Game.placingTower g = true ->
   (forall gridX gridY cell,
      floorZ (x / GRID_SIZE) = Some gridX -> floorZ (y / GRID_SIZE) = Some gridY ->
      grid_get (Game.grid g) gridX gridY = Some cell ->
      walkable cell = false) ->
   Game.handleClick x y g = (g, None))
  /\ (forall gridX gridY cell,
        Game.placingTower g = true ->
        floorZ (x / GRID_SIZE) = Some gridX -> floorZ (y / GRID_SIZE) = Some gridY ->
        grid_get (Game.grid g) gridX gridY = Some cell ->
        walkable cell = true ->
        (forall stats,
           towerTypes (Game.selectedTowerType g) = Some stats ->
           (Game.money g < ts_cost stats)%Z ->
           Game.handleClick x y g = (g, Some NotEnoughMoney))
        /\ (towerTypes (Game.selectedTowerType g) = None ->
            inherited (Game.selectedTowerType g) = true ->
            Game.handleClick x y g = (g, Some NotEnoughMoney)))
  /\ (forall i tw,
        Game.towers g !! i = Some tw ->
        (Game.money g < Tower.level tw * 25 + 50)%Z ->
        Game.upgradeTower i g = (g, Some (NeedToUpgrade (Tower.level tw * 25 + 50))))
  /\ (forall alert,
        snd (Game.handleClick x y g) = Some alert ->
        fst (Game.handleClick x y g) = g)
  /\ (forall i alert,
        snd (Game.upgradeTower i g) = Some alert ->
        fst (Game.upgradeTower i g) = g)
  /\ (forall path, pathBlocked path (createGrid path))
  /\ (forall path,
        pathBlocked path (Game.grid g) ->
        pathBlocked path (Game.grid (fst (Game.handleClick x y g))))
  /\ (towersBlocked (Game.grid g) ->
      towersBlocked (Game.grid (fst (Game.handleClick x y g)))).
Proof.
  intros Hover.
  assert (Hup : forall i alert,
            snd (Game.upgradeTower i g) = Some alert ->
            fst (Game.upgradeTower i g) = g).
  { intros i alert. unfold Game.upgradeTower.
    destruct (Game.towers g !! i) as [tw|]; [|discriminate].
    destruct (_ <=? _)%Z; [discriminate|reflexivity]. }
  split; [|split; [|split; [|split; [|split; [exact Hup|split; [|split]]]]]].
  - intros Hplacing Hcell. unfold Game.handleClick. rewrite Hover, Hplacing.
    destruct (floorZ (x / GRID_SIZE)) as [gridX|]; [|reflexivity].
    destruct (floorZ (y / GRID_SIZE)) as [gridY|]; [|reflexivity].
    destruct (grid_get _ _ _) as [cell|] eqn:G; [|reflexivity].
    rewrite (Hcell gridX gridY cell eq_refl eq_refl G). reflexivity.
  - intros gridX gridY cell Hplacing Hx Hy Hcell Hwalk.
    unfold Game.handleClick. rewrite Hover, Hplacing, Hx, Hy, Hcell, Hwalk. split.
    + intros stats Hty Hlt. rewrite Hty.
      destruct (Z.leb_spec (ts_cost stats) (Game.money g)); [lia|reflexivity].
    + intros Hty Hin. rewrite Hty, Hin. reflexivity.
  - intros i tw Htw Hlt. unfold Game.upgradeTower. rewrite Htw.
    destruct (Z.leb_spec (Tower.level tw * 25 + 50) (Game.money g)); [lia|reflexivity].
  - intros alert. unfold Game.handleClick. rewrite Hover.
    destruct (Game.placingTower g).
    + destruct (floorZ (x / GRID_SIZE)) as [gridX|]; [|discriminate].
      destruct (floorZ (y / GRID_SIZE)) as [gridY|]; [|discriminate].
      destruct (grid_get _ _ _) as [cell|]; [|discriminate].
      destruct (walkable cell); [|discriminate].
      destruct (towerTypes _) as [towerType|]; [|destruct (inherited _); reflexivity].
      destruct (_ <=? _)%Z; [discriminate|reflexivity].
    + destruct (Game.clickedTower x y (Game.towers g) 0) as [i|];
        [apply Hup|discriminate].
  - exact createGrid_pathBlocked.
  - intros path Hp.
    destruct (handleClick_grid x y g) as [-> | (gx & gy & i & ->)];
      [exact Hp|apply pathBlocked_place; exact Hp].
  - intros Ht.
    destruct (handleClick_grid x y g) as [-> | (gx & gy & i & ->)];
      [exact Ht|apply towersBlocked_place; exact Ht].
Qed.

(** C9, the statement of the specification fails.  The click at (20, 300) is on the path
    cell (0, 7).  The command is turned down, and what the caller gets is
    what the accepted placement at (20, 20) gives as well: no value, no
    alert. *)
Lemma C9_counterexample :
  floorZ (20 / GRID_SIZE) = Some 0%Z /\ floorZ (300 / GRID_SIZE) = Some 7%Z
  /\ grid_get (Game.grid (Game.startPlacingTower "basic" startGame)) 0 7
     = Some (mkCell false None)
  /\ Game.handleClick 20 300 (Game.startPlacingTower "basic" startGame)
     = (Game.startPlacingTower "basic" startGame, None)
  /\ snd (Game.handleClick 20 20 (Game.startPlacingTower "basic" startGame)) = None
  /\ length (Game.towers
               (fst (Game.handleClick 20 20 (Game.startPlacingTower "basic" startGame))))
     = 1%nat.
Proof.
  split; [vm_compute; reflexivity|]. split; [vm_compute; reflexivity|].
  split; [vm_compute; reflexivity|]. split; [vm_compute; reflexivity|].
  split; vm_compute; reflexivity.
Qed.

(** With 30 in hand a basic tower, which costs 50, is refused with the
    alert. *)
Lemma C9_rejected_commands_witness :
  Game.handleClick 20 20
    (Game.set_money (Game.startPlacingTower "basic" startGame) 30)
  = (Game.set_money (Game.startPlacingTower "basic" startGame) 30, Some NotEnoughMoney).
Proof.
  destruct (C9_rejected_commands 20 20
              (Game.set_money (Game.startPlacingTower "basic" startGame) 30) eq_refl)
    as (_ & H & _).
  destruct (H 0%Z 0%Z (mkCell true None) eq_refl) as [Hmoney _].
  - vm_compute. reflexivity.
  - vm_compute. reflexivity.
  - vm_compute. reflexivity.
  - reflexivity.
  - apply (Hmoney basicTowerStats eq_refl). vm_compute. reflexivity.
Defined.

(* ===================================================================== *)
(** * Further properties of the code *)
(* ===================================================================== *)

(** ** The grid: createGrid and placement *)

(** X1.  The cells of [createGrid path], for any path: the grid is GRID_HEIGHT
    rows of GRID_WIDTH cells, no cell holds a tower, and a cell is walkable
    exactly when no point of the path falls in it.  Points outside the grid
    mark nothing. *)
Theorem createGrid_cells (path : list Point) (gridX gridY : Z) :
  grid_get (createGrid path) gridX gridY
  = if ((0 <=? gridY) && (gridY <? GRID_HEIGHT)
        && (0 <=? gridX) && (gridX <? GRID_WIDTH))%Z
    then Some (mkCell
                 (negb (existsb
                          (fun point =>
                             bool_decide (floorZ (px point / GRID_SIZE) = Some gridX)
                             && bool_decide (floorZ (py point / GRID_SIZE) = Some gridY))
                          path))
                 None)
    else None.
Proof. apply createGrid_lookup. Qed.

(** X2.  A placement that goes through.  In placing mode, on a walkable cell of
    the grid and with money for the selected type, the click takes the cost,
    adds one tower of that type at the centre of the cell, at the end of
    [towers], leaves placing mode and rewrites that one cell as not walkable
    and holding the new tower; it shows no alert.  Once placing mode is
    entered again, for any tower type, a click anywhere in the same cell
    changes nothing. *)
Theorem placement_accepted (x y : float) (g : Game.t) (gridX gridY : Z)
    (cell : Cell) (stats : TowerStats) :
  Game.gameOver g = false ->
  Game.placingTower g = true ->
  floorZ (x / GRID_SIZE) = Some gridX ->
  floorZ (y / GRID_SIZE) = Some gridY ->
  grid_get (Game.grid g) gridX gridY = Some cell ->
  walkable cell = true ->
  towerTypes (Game.selectedTowerType g) = Some stats ->
  (ts_cost stats <= Game.money g)%Z ->
  snd (Game.handleClick x y g) = None
  /\ Game.money (fst (Game.handleClick x y g)) = (Game.money g - ts_cost stats)%Z
  /\ Game.towers (fst (Game.handleClick x y g))
     = Game.towers g
       ++ [Tower.new (floor (x / GRID_SIZE) * GRID_SIZE + GRID_SIZE / 2)
                     (floor (y / GRID_SIZE) * GRID_SIZE + GRID_SIZE / 2)
                     (Game.selectedTowerType g) stats]
  /\ Game.placingTower (fst (Game.handleClick x y g)) = false
  /\ (forall gridX' gridY',
        grid_get (Game.grid (fst (Game.handleClick x y g))) gridX' gridY'
        = if decide (gridX' = gridX /\ gridY' = gridY)
          then Some (mkCell false (Some (length (Game.towers g))))
          else grid_get (Game.grid g) gridX' gridY')
  /\ (forall type stats' x' y',
        towerTypes type = Some stats' ->
        floorZ (x' / GRID_SIZE) = Some gridX ->
        floorZ (y' / GRID_SIZE) = Some gridY ->
        Game.handleClick x' y'
          (Game.startPlacingTower type (fst (Game.handleClick x y g)))
        = (Game.startPlacingTower type (fst (Game.handleClick x y g)), None)).
Proof.
  intros Hover Hplacing Hgx Hgy Hcell Hwalk Hty Hcost.
  destruct (grid_get_nonneg _ _ _ _ Hcell) as [Hx Hy].
  assert (Hgrid : forall gridX' gridY',
            grid_get
              (grid_alter (fun _ => mkCell false (Some (length (Game.towers g))))
                 gridX gridY (Game.grid g))
              gridX' gridY'
            = if decide (gridX' = gridX /\ gridY' = gridY)
              then Some (mkCell false (Some (length (Game.towers g))))
              else grid_get (Game.grid g) gridX' gridY').
  { intros gridX' gridY'. rewrite grid_get_alter_at by assumption.
    destruct (decide _) as [[-> ->]|_]; [|reflexivity]. rewrite Hcell. reflexivity. }
  assert (Hclick : Game.handleClick x y g
            = (Game.set_placing
                 (Game.set_grid
                    (Game.set_towers (Game.set_money g (Game.money g - ts_cost stats))
                       (Game.towers g
                        ++ [Tower.new (floor (x / GRID_SIZE) * GRID_SIZE + GRID_SIZE / 2)
                                      (floor (y / GRID_SIZE) * GRID_SIZE + GRID_SIZE / 2)
                                      (Game.selectedTowerType g) stats]))
                    (grid_alter (fun _ => mkCell false (Some (length (Game.towers g))))
                       gridX gridY (Game.grid g)))
                 (Game.selectedTowerType g) false, None)).
  { unfold Game.handleClick.
    rewrite Hover, Hplacing, Hgx, Hgy, Hcell, Hwalk, Hty.
    destruct (Z.leb_spec (ts_cost stats) (Game.money g)); [reflexivity|lia]. }
  rewrite Hclick. cbn [fst snd].
  split; [reflexivity|]. split; [reflexivity|].
  split; [reflexivity|]. split; [reflexivity|]. split; [exact Hgrid|].
  intros type stats' x' y' Hty' Hx' Hy'.
  unfold Game.startPlacingTower. rewrite Hty'.
  unfold Game.handleClick. cbn [Game.gameOver Game.set_placing Game.placingTower
    Game.set_grid Game.set_towers Game.set_money Game.grid].
  rewrite Hover, Hx', Hy', Hgrid.
  destruct (decide _) as [_|N]; [reflexivity|].
  exfalso. apply N. split; reflexivity.
Qed.

(** The first placement of the opening session: a basic tower in the cell
    (0, 0) for 50. *)
Lemma placement_accepted_witness :
  Game.money (fst (Game.handleClick 20 20 (Game.startPlacingTower "basic" startGame)))
  = (150 - 50)%Z.
Proof.
  destruct (placement_accepted 20 20 (Game.startPlacingTower "basic" startGame)
              0%Z 0%Z (mkCell true None) basicTowerStats eq_refl eq_refl)
    as (_ & Hm & _).
  - vm_compute. reflexivity.
  - vm_compute. reflexivity.
  - vm_compute. reflexivity.
  - reflexivity.
  - reflexivity.
  - vm_compute. discriminate.
  - exact Hm.
Defined.

(** ** Upgrading by click *)

Lemma clickedTower_first (x y : float) (towers : list Tower.t) : forall n,
  match Game.clickedTower x y towers n with
  | Some i =>
      exists k tw,
        i = (n + k)%nat /\ towers !! k = Some tw
        /\ (sqrt ((x - Tower.x tw) * (x - Tower.x tw)
                  + (y - Tower.y tw) * (y - Tower.y tw)) <=? Tower.range tw) = true
        /\ forall j tw', (j < k)%nat -> towers !! j = Some tw' ->
             (sqrt ((x - Tower.x tw') * (x - Tower.x tw')
                    + (y - Tower.y tw') * (y - Tower.y tw')) <=? Tower.range tw') = false
  | None =>
      forall j tw', towers !! j = Some tw' ->
        (sqrt ((x - Tower.x tw') * (x - Tower.x tw')
               + (y - Tower.y tw') * (y - Tower.y tw')) <=? Tower.range tw') = false
  end.
Proof.
  induction towers as [|tw rest IH]; intros n; simpl.
  - intros j tw' H. rewrite lookup_nil in H. discriminate.
  - unfold sq.
    destruct (_ <=? Tower.range tw) eqn:E.
    + exists 0%nat, tw. repeat split; [lia|exact E|].
      intros j tw' Hj. lia.
    + specialize (IH (S n)).
      destruct (Game.clickedTower x y rest (S n)) as [i|].
      * destruct IH as (k & tw1 & -> & Hk & Hr & Hfirst).
        exists (S k), tw1. repeat split; [lia|exact Hk|exact Hr|].
        intros [|j] tw' Hj Hl; simpl in Hl.
        -- injection Hl as <-. exact E.
        -- apply (Hfirst j); [lia|exact Hl].
      * intros [|j] tw' Hl; simpl in Hl.
        -- injection Hl as <-. exact E.
        -- exact (IH j tw' Hl).
Qed.

(** X3.  Outside placing mode a click is an upgrade request, and the tower is
    chosen by firing range, not by cell: the click goes to [upgradeTower]
    for the first tower of [towers] whose range circle contains it, whether
    or not a nearer tower or the tower under the pointer comes later in the
    list; a click that is outside every range circle changes nothing and
    shows nothing. *)
Theorem click_upgrades_first_in_range (x y : float) (g : Game.t) :
  Game.gameOver g = false ->
  Game.placingTower g = false ->
  (forall i tw,
     Game.towers g !! i = Some tw ->
     (sqrt ((x - Tower.x tw) * (x - Tower.x tw)
            + (y - Tower.y tw) * (y - Tower.y tw)) <=? Tower.range tw) = true ->
     (forall j tw', (j < i)%nat -> Game.towers g !! j = Some tw' ->
        (sqrt ((x - Tower.x tw') * (x - Tower.x tw')
               + (y - Tower.y tw') * (y - Tower.y tw')) <=? Tower.range tw') = false) ->
     Game.handleClick x y g = Game.upgradeTower i g)
  /\ ((forall j tw', Game.towers g !! j = Some tw' ->
         (sqrt ((x - Tower.x tw') * (x - Tower.x tw')
                + (y - Tower.y tw') * (y - Tower.y tw')) <=? Tower.range tw') = false) ->
      Game.handleClick x y g = (g, None)).
Proof.
  intros Hover Hplacing. unfold Game.handleClick. rewrite Hover, Hplacing.
  pose proof (clickedTower_first x y (Game.towers g) 0) as F.
  destruct (Game.clickedTower x y (Game.towers g) 0) as [i'|].
  - destruct F as (k & tw1 & -> & Hk & Hr & Hfirst).
    change (0 + k)%nat with k. split.
    + intros i tw Hi Hin Hbefore.
      destruct (Nat.lt_trichotomy i k) as [Hlt|[->|Hgt]]; [|reflexivity|].
      * specialize (Hfirst _ _ Hlt Hi). congruence.
      * specialize (Hbefore _ _ Hgt Hk). congruence.
    + intros Hnone. specialize (Hnone _ _ Hk). congruence.
  - split; [|reflexivity].
    intros i tw Hi Hin _. specialize (F _ _ Hi). congruence.
Qed.

(** Two towers, in cells (0, 0) and (1, 0); the click at (60, 20) is on the
    second, and inside the range of the first. *)
Lemma click_upgrades_first_in_range_witness :
  Game.handleClick 60 20
    (Game.set_towers startGame [sampleTower; Tower.new 60 20 "basic" basicTowerStats])
  = Game.upgradeTower 0
      (Game.set_towers startGame [sampleTower; Tower.new 60 20 "basic" basicTowerStats]).
Proof.
  destruct (click_upgrades_first_in_range 60 20
              (Game.set_towers startGame
                 [sampleTower; Tower.new 60 20 "basic" basicTowerStats])
              eq_refl eq_refl) as [H _].
  apply (H 0%nat sampleTower eq_refl).
  - vm_compute. reflexivity.
  - intros j tw' Hj. lia.
Defined.

(** ** How enemies move *)

(** X4.  [Enemy.update] moves the enemy or advances its path index, never both,
    and touches nothing else: the index stays or goes up by one, it goes up
    only to an index that is in the path, and the position is unchanged
    when it does; health, maxHealth, speed, reward, type, colour and size
    are as before. *)
Theorem enemy_update_path_index (path : list Point) (dt : float) (e : Enemy.t) :
  (Enemy.pathIndex (Enemy.update path dt e) = Enemy.pathIndex e
   \/ (Enemy.pathIndex (Enemy.update path dt e) = S (Enemy.pathIndex e)
       /\ (S (Enemy.pathIndex e) < length path)%nat
       /\ Enemy.x (Enemy.update path dt e) = Enemy.x e
       /\ Enemy.y (Enemy.update path dt e) = Enemy.y e))
  /\ ((Enemy.pathIndex e < length path)%nat ->
      (Enemy.pathIndex (Enemy.update path dt e) < length path)%nat)
  /\ Enemy.health (Enemy.update path dt e) = Enemy.health e
  /\ Enemy.maxHealth (Enemy.update path dt e) = Enemy.maxHealth e
  /\ Enemy.speed (Enemy.update path dt e) = Enemy.speed e
  /\ Enemy.reward (Enemy.update path dt e) = Enemy.reward e
  /\ Enemy.type (Enemy.update path dt e) = Enemy.type e
  /\ Enemy.color (Enemy.update path dt e) = Enemy.color e
  /\ Enemy.size (Enemy.update path dt e) = Enemy.size e.
Proof.
  unfold Enemy.update.
  destruct (Z.leb_spec (Z.of_nat (length path) - 1) (Z.of_nat (Enemy.pathIndex e))).
  - simpl. repeat split; auto.
  - destruct (path !! S (Enemy.pathIndex e)) as [target|] eqn:T.
    + apply lookup_lt_Some in T.
      destruct (_ <? 1); simpl; repeat split; auto.
    + repeat split; auto.
Qed.

(** ** The loops, on references and on the cast of enemy objects *)

Lemma sameCast_refl heap : sameCast heap heap.
Proof. apply Forall_Forall2_diag, Forall_forall. intros; split; auto. Qed.

Lemma sameCast_trans h1 h2 h3 : sameCast h1 h2 -> sameCast h2 h3 -> sameCast h1 h3.
Proof.
  unfold sameCast. intros H12. revert h3.
  induction H12 as [|e1 e2 l1 l2 [Ht Hp] _ IH]; intros h3 H23.
  - inversion H23. constructor.
  - inversion H23 as [|e2' e3 l2' l3 [Ht' Hp'] Hrest]; subst.
    constructor; [split; [congruence|auto]|apply IH; exact Hrest].
Qed.

Lemma sameCast_insert (heap : Heap) id enemy enemy' :
  heap !! id = Some enemy ->
  Enemy.type enemy' = Enemy.type enemy ->
  ((Enemy.pathIndex enemy < length game_path)%nat ->
   (Enemy.pathIndex enemy' < length game_path)%nat) ->
  sameCast heap (<[id := enemy']> heap).
Proof.
  intros He Ht Hp. rewrite <- (list_insert_id heap id enemy He) at 1.
  apply Forall2_insert; [apply sameCast_refl|]. split; assumption.
Qed.

Lemma sameCast_facts heap heap' :
  sameCast heap heap' ->
  length heap' = length heap
  /\ map Enemy.type heap' = map Enemy.type heap
  /\ (Forall (fun enemy => (Enemy.pathIndex enemy < length game_path)%nat) heap ->
      Forall (fun enemy => (Enemy.pathIndex enemy < length game_path)%nat) heap').
Proof.
  unfold sameCast. induction 1 as [|e e' l l' [Ht Hp] _ (IHl & IHt & IHp)].
  - repeat split. constructor.
  - simpl. repeat split; [congruence|congruence|].
    intros F. apply Forall_cons in F. destruct F as [He Fl].
    apply Forall_cons. split; auto.
Qed.


Lemma Enemy_update_cast path dt e :
  Enemy.type (Enemy.update path dt e) = Enemy.type e
  /\ ((Enemy.pathIndex e < length path)%nat ->
      (Enemy.pathIndex (Enemy.update path dt e) < length path)%nat).
Proof.
  unfold Enemy.update.
  destruct (_ <=? _)%Z; [split; auto|].
  destruct (path !! S (Enemy.pathIndex e)) as [target|] eqn:T; [|split; auto].
  apply lookup_lt_Some in T.
  destruct (_ <? 1); simpl; split; auto.
Qed.

(** What is left of [enemies] after the enemy loop is a sublist of it, and
    every life taken is an entry gone. *)
Lemma updateEnemies_kept dt ids : forall g ids' g',
  Game.updateEnemies dt ids g = (ids', g') ->
  ids' `sublist_of` ids
  /\ (Z.of_nat (length ids') + (Game.lives g - Game.lives g') <= Z.of_nat (length ids))%Z
  /\ sameCast (Game.heap g) (Game.heap g').
Proof.
  induction ids as [|id rest IH]; intros g ids' g' U; simpl in U.
  - injection U as <- <-. split; [constructor|]. split; [simpl; lia|apply sameCast_refl].
  - destruct (Game.updateEnemies dt rest g) as [rest' g1] eqn:R.
    destruct (IH _ _ _ R) as (Hsub & Hlives & Hcast).
    destruct (Game.heap g1 !! id) as [enemy|] eqn:He.
    + destruct (Enemy_update_cast game_path dt enemy) as [Ht Hp].
      pose proof (sameCast_trans _ _ _ Hcast (sameCast_insert _ _ _ _ He Ht Hp)) as Hcast'.
      destruct (_ <=? 0)%Z.
      * injection U as <- <-. simpl.
        split; [apply sublist_cons; exact Hsub|]. split; [lia|exact Hcast'].
      * destruct (CANVAS_WIDTH <? _).
        -- simpl in U. destruct (_ <=? 0)%Z; injection U as <- <-; simpl;
             (split; [apply sublist_cons; exact Hsub|]); (split; [lia|exact Hcast']).
        -- injection U as <- <-. simpl.
           split; [apply sublist_skip; exact Hsub|]. split; [lia|exact Hcast'].
    + injection U as <- <-.
      split; [apply sublist_skip; exact Hsub|]. split; [simpl; lia|exact Hcast].
Qed.

Lemma Projectile_update_cast dt heap p heap' p' :
  Projectile.update dt heap p = (heap', p') ->
  sameCast heap heap'
  /\ Projectile.target p' = Projectile.target p
  /\ Projectile.speed p' = Projectile.speed p
  /\ Projectile.damage p' = Projectile.damage p.
Proof.
  unfold Projectile.update. intros U.
  destruct (Projectile.target p) as [id|] eqn:T;
    [|injection U as <- <-; simpl; rewrite T; repeat split; apply sameCast_refl].
  destruct (heap !! id) as [enemy|] eqn:He;
    [|injection U as <- <-; rewrite T; repeat split; apply sameCast_refl].
  destruct (_ <=? 0)%Z;
    [injection U as <- <-; simpl; rewrite T; repeat split; apply sameCast_refl|].
  destruct (_ <? 5); injection U as <- <-; simpl; rewrite T; repeat split;
    try apply sameCast_refl.
  apply (sameCast_insert _ _ _ _ He); simpl; auto.
Qed.

Lemma updateProjectiles_cast dt ps : forall heap ps' heap',
  Game.updateProjectiles dt ps heap = (ps', heap') ->
  sameCast heap heap'
  /\ Forall (fun p' =>
               Projectile.markedForDeletion p' = false
               /\ exists p, p ∈ ps
                    /\ Projectile.target p' = Projectile.target p
                    /\ Projectile.speed p' = Projectile.speed p) ps'.
Proof.
  induction ps as [|p rest IH]; intros heap ps' heap' U; simpl in U.
  - injection U as <- <-. split; [apply sameCast_refl|constructor].
  - destruct (Game.updateProjectiles dt rest heap) as [rest' heap1] eqn:R.
    destruct (IH _ _ _ R) as [C1 F1].
    destruct (Projectile.update dt heap1 p) as [heap2 p1] eqn:P.
    destruct (Projectile_update_cast _ _ _ _ _ P) as (C2 & Ht & Hs & _).
    injection U as <- <-. split; [exact (sameCast_trans _ _ _ C1 C2)|].
    assert (F1' : Forall (fun p' =>
               Projectile.markedForDeletion p' = false
               /\ exists p0, p0 ∈ p :: rest
                    /\ Projectile.target p' = Projectile.target p0
                    /\ Projectile.speed p' = Projectile.speed p0) rest').
    { eapply Forall_impl; [exact F1|]. intros p' (Hm & p0 & Hin & H1 & H2).
      split; [exact Hm|]. exists p0. split; [right; exact Hin|]. split; assumption. }
    destruct (Projectile.markedForDeletion p1) eqn:M; [exact F1'|].
    apply Forall_cons. split; [|exact F1'].
    split; [exact M|]. exists p. split; [left|]. split; assumption.
Qed.


Lemma findTarget_listed (tw : Tower.t) (heap : Heap) (enemies : list nat) id :
  Tower.findTarget tw heap enemies = Some id ->
  id ∈ enemies /\ (id < length heap)%nat.
Proof.
  unfold Tower.findTarget. pose proof (scan_fold tw heap enemies) as S.
  destruct (fold_left _ enemies (None, infinity)) as [[id'|] d];
    simpl; [|discriminate].
  intros [= ->]. destruct S as (k & enemy & Hk & He & _).
  split; [apply list_elem_of_lookup; exists k; exact Hk|].
  apply lookup_lt_Some in He. exact He.
Qed.

(** The tower loop changes no tower but for its cooldown, keeps the
    projectiles there were, in order, and adds at most one per tower, each
    new, unmarked, at speed 300 and aimed at a listed enemy. *)
Lemma updateTowers_shape dt (heap : Heap) enemies towers : forall ps towers' ps',
  Game.updateTowers dt heap enemies towers ps = (towers', ps') ->
  Forall2 (fun tw tw' => exists c, tw' = Tower.set_fireCooldown tw c) towers towers'
  /\ exists fresh,
       ps' = ps ++ fresh
       /\ (length fresh <= length towers)%nat
       /\ Forall (fun p =>
                    Projectile.markedForDeletion p = false
                    /\ Projectile.speed p = 300
                    /\ exists id, Projectile.target p = Some id
                                  /\ id ∈ enemies /\ (id < length heap)%nat) fresh.
Proof.
  induction towers as [|tw rest IH]; intros ps towers' ps' U; simpl in U.
  - injection U as <- <-. split; [constructor|].
    exists []. rewrite app_nil_r. repeat split; [simpl; lia|constructor].
  - destruct (Tower.update dt heap enemies tw) as [tw' shot] eqn:T.
    destruct (Game.updateTowers dt heap enemies rest _) as [rest' ps''] eqn:R.
    injection U as <- <-.
    destruct (IH _ _ _ R) as (F & fresh & -> & Hlen & Hfresh).
    destruct shot as [p|].
    + apply update_fired_inv in T. destruct T as (_ & -> & id & Hid & ->).
      apply findTarget_listed in Hid.
      split; [constructor; [eexists; reflexivity|exact F]|].
      exists (Projectile.new (Tower.x tw) (Tower.y tw) id (Tower.damage tw) (Tower.color tw)
              :: fresh).
      rewrite <- app_assoc. repeat split; [simpl; lia|].
      apply Forall_cons. split; [|exact Hfresh].
      repeat split. exists id. split; [reflexivity|exact Hid].
    + apply update_silent_inv in T. subst tw'.
      split; [constructor; [eexists; reflexivity|exact F]|].
      exists fresh. repeat split; [simpl; lia|exact Hfresh].
Qed.

Lemma concat_empty_prefix {A} (ls : list (list A)) (n : nat) :
  (forall i, (i < n)%nat -> ls !! i = Some []) -> concat (take n ls) = [].
Proof.
  revert ls. induction n as [|n IH]; intros ls H; [reflexivity|].
  destruct ls as [|l ls]; [reflexivity|]. simpl.
  pose proof (H 0%nat ltac:(lia)) as H0. simpl in H0. injection H0 as ->.
  simpl. apply IH. intros i Hi. apply (H (S i)). lia.
Qed.

Lemma WaveManager_update_order dt wm enemies (heap : Heap) wm' enemies' heap' :
  WaveManager.update dt wm enemies heap = (wm', enemies', heap') ->
  knownWaves (WaveManager.waves wm) ->
  (forall i, (i < WaveManager.currentWaveIndex wm)%nat ->
     WaveManager.waves wm !! i = Some []) ->
  (WaveManager.currentWaveIndex wm <= length (WaveManager.waves wm))%nat ->
  map Enemy.type heap' ++ concat (WaveManager.waves wm')
    = map Enemy.type heap ++ concat (WaveManager.waves wm)
  /\ (forall i, (i < WaveManager.currentWaveIndex wm')%nat ->
        WaveManager.waves wm' !! i = Some [])
  /\ (WaveManager.currentWaveIndex wm' <= length (WaveManager.waves wm'))%nat.
Proof.
  unfold WaveManager.update. intros U K Hpre Hidx.
  destruct (WaveManager.waves wm !! WaveManager.currentWaveIndex wm) as [wave|] eqn:W;
    [|injection U as <- <- <-; repeat split; assumption].
  destruct (0 <? _); [injection U as <- <- <-; repeat split; assumption|].
  pose proof (lookup_lt_Some _ _ _ W) as Hlt.
  destruct wave as [|type rest].
  - destruct (_ =? _)%nat; injection U as <- <- <-; simpl;
      [|repeat split; assumption].
    split; [reflexivity|]. split; [|lia].
    intros i Hi. destruct (decide (i = WaveManager.currentWaveIndex wm)) as [->|N];
      [exact W|]. apply Hpre. lia.
  - destruct (1 <=? _); [|injection U as <- <- <-; repeat split; assumption].
    unfold knownWaves in K. rewrite Forall_lookup in K.
    pose proof (K _ _ W) as Kw. apply Forall_cons in Kw. destruct Kw as [[stats Hs] _].
    rewrite Hs in U. injection U as <- <- <-. simpl.
    split; [|split].
    + rewrite map_app. simpl. rewrite <- app_assoc. f_equal. simpl.
      rewrite insert_take_drop by exact Hlt.
      rewrite <- (take_drop_middle _ _ _ W) at 3.
      rewrite !concat_app. simpl.
      rewrite (concat_empty_prefix _ _ Hpre). reflexivity.
    + intros i Hi. rewrite list_lookup_insert_ne by lia. apply Hpre. exact Hi.
    + rewrite length_insert. exact Hidx.
Qed.

(** ** References stay good, enemies come in table order, lives are accounted for *)

Lemma wellReferenced_update dt g :
  wellReferenced g -> wellReferenced (Game.update dt g).
Proof.
  intros H.
  destruct (Game.gameOver g) eqn:Hover;
    [rewrite update_halted; [exact H|left; exact Hover]|].
  destruct (Game.gameWon g) eqn:Hwon;
    [rewrite update_halted; [exact H|right; exact Hwon]|].
  destruct H as (He & Hnd & Hp & Hpi). unfold wellReferenced.
  destruct (update_run dt g Hover Hwon)
    as (wm & enemies1 & heap1 & enemies2 & g2 & towers' & ps' & ps'' & heap'
        & W & E & T & P & _ & _ & _ & _ & -> & -> & _ & _ & -> & _).
  pose proof (WaveManager_update_shape _ _ _ _ _ _ _ W) as [_ Hshape].
  assert (H1 : Forall (fun id => (id < length heap1)%nat) enemies1
               /\ NoDup enemies1
               /\ (length (Game.heap g) <= length heap1)%nat
               /\ Forall (fun enemy => (Enemy.pathIndex enemy < length game_path)%nat)
                    heap1).
  { destruct Hshape as [[-> ->]|(type & stats & _ & -> & ->)].
    - repeat split; try assumption. lia.
    - rewrite length_app. simpl. repeat split.
      + apply Forall_app. split.
        * eapply Forall_impl; [exact He|]. simpl. intros; lia.
        * apply Forall_singleton. lia.
      + apply NoDup_app. split; [exact Hnd|]. split; [|apply NoDup_singleton].
        intros id Hin Hin'. apply list_elem_of_singleton in Hin'. subst id.
        rewrite Forall_forall in He. specialize (He _ Hin). lia.
      + lia.
      + apply Forall_app. split; [exact Hpi|]. apply Forall_singleton.
        simpl. vm_compute. lia. }
  destruct H1 as (He1 & Hnd1 & Hlen1 & Hpi1).
  destruct (updateEnemies_kept _ _ _ _ _ E) as (Hsub & _ & Hcast).
  simpl in Hcast. destruct (sameCast_facts _ _ Hcast) as (Hlen2 & _ & Hpi2).
  destruct (updateTowers_shape _ _ _ _ _ _ _ T) as (_ & fresh & -> & _ & Hfresh).
  destruct (updateProjectiles_cast _ _ _ _ _ P) as (Hcast' & Hps).
  destruct (sameCast_facts _ _ Hcast') as (Hlen3 & _ & Hpi3).
  split; [|split; [|split]].
  - rewrite Forall_forall in He1. apply Forall_forall. intros id Hin.
    specialize (He1 id (elem_of_sublist _ _ _ Hin Hsub)). lia.
  - exact (sublist_NoDup _ _ Hnd1 Hsub).
  - assert (Hall : Forall
              (fun p => Projectile.speed p = 300
                        /\ exists id, Projectile.target p = Some id
                                      /\ (id < length heap')%nat)
              (Game.projectiles g ++ fresh)).
    { apply Forall_app. split.
      - eapply Forall_impl; [exact Hp|]. intros p (_ & Hs & id & Ht & Hid).
        split; [exact Hs|]. exists id. split; [exact Ht|lia].
      - eapply Forall_impl; [exact Hfresh|]. intros p (_ & Hs & id & Ht & _ & Hid).
        split; [exact Hs|]. exists id. split; [exact Ht|lia]. }
    rewrite Forall_forall in Hall.
    eapply Forall_impl; [exact Hps|]. intros p' (Hm & p & Hin & Ht & Hs).
    destruct (Hall p Hin) as (Hs' & id & Ht' & Hid).
    split; [exact Hm|]. split; [congruence|]. exists id. split; [congruence|exact Hid].
  - exact (Hpi3 (Hpi2 Hpi1)).
Qed.

Lemma wellReferenced_step c g : wellReferenced g -> wellReferenced (step c g).
Proof.
  destruct c as [dt|x y|type].
  - apply wellReferenced_update.
  - intros H. unfold wellReferenced.
    destruct (step_click_frame (Click x y) g I) as (-> & -> & -> & _). exact H.
  - intros H. unfold wellReferenced.
    destruct (step_click_frame (StartPlacing type) g I) as (-> & -> & -> & _).
    exact H.
Qed.

Lemma wellReferenced_start : wellReferenced startGame.
Proof. unfold wellReferenced. simpl. repeat split; constructor. Qed.

(** X8.  References stay good.  Take a game in which each entry of [enemies]
    and each projectile target designates an enemy object, no enemy is
    listed twice, every projectile in [projectiles] is unmarked and has
    speed 300, and every enemy object has its path index inside the path (a
    game without enemies and projectiles is one).  Whatever the commands,
    the game after them is such a game again; so the [!this.target] test of
    [Projectile.update] never fires. *)
Theorem references_stay_good (g0 : Game.t) (cs : list Command) :
  wellReferenced g0 ->
  Forall (fun id => is_Some (Game.heap (run cs g0) !! id)) (Game.enemies (run cs g0))
  /\ NoDup (Game.enemies (run cs g0))
  /\ Forall
       (fun p =>
          Projectile.markedForDeletion p = false
          /\ Projectile.speed p = 300
          /\ exists id, Projectile.target p = Some id
                        /\ is_Some (Game.heap (run cs g0) !! id))
       (Game.projectiles (run cs g0))
  /\ Forall (fun enemy => (Enemy.pathIndex enemy < length game_path)%nat)
       (Game.heap (run cs g0)).
Proof.
  intros H0.
  pose proof (run_invariant wellReferenced wellReferenced_step cs g0 H0)
    as (He & Hnd & Hp & Hpi).
  repeat split; try assumption.
  - eapply Forall_impl; [exact He|]. intros id Hid. apply lookup_lt_is_Some. exact Hid.
  - eapply Forall_impl; [exact Hp|]. intros p (Hm & Hs & id & Ht & Hid).
    repeat split; try assumption. exists id. split; [exact Ht|].
    apply lookup_lt_is_Some. exact Hid.
Qed.

Lemma WaveManager_update_known dt wm enemies (heap : Heap) wm' enemies' heap' :
  WaveManager.update dt wm enemies heap = (wm', enemies', heap') ->
  knownWaves (WaveManager.waves wm) -> knownWaves (WaveManager.waves wm').
Proof.
  unfold WaveManager.update. intros U K.
  destruct (WaveManager.waves wm !! WaveManager.currentWaveIndex wm) as [wave|] eqn:W;
    [|injection U as <- <- <-; exact K].
  destruct (0 <? _); [injection U as <- <- <-; exact K|].
  destruct wave as [|type rest].
  - destruct (_ =? _)%nat; injection U as <- <- <-; exact K.
  - destruct (1 <=? _); [|injection U as <- <- <-; exact K].
    assert (K' : knownWaves (<[WaveManager.currentWaveIndex wm := rest]>
                               (WaveManager.waves wm))).
    { unfold knownWaves in *. apply Forall_insert; [exact K|].
      rewrite Forall_lookup in K. pose proof (K _ _ W) as Kw.
      apply Forall_cons in Kw. exact (proj2 Kw). }
    destruct (enemyTypes type); injection U as <- <- <-; exact K'.
Qed.

(** The enemies created since the game [g0], in order of creation, followed
    by what is left in the queues, are what was in the queues of [g0]. *)
Lemma spawnedInOrder_step (g0 : Game.t) c g :
  queuesInOrder (Game.waveManager g)
  /\ map Enemy.type (Game.heap g) ++ concat (WaveManager.waves (Game.waveManager g))
     = map Enemy.type (Game.heap g0)
       ++ concat (WaveManager.waves (Game.waveManager g0)) ->
  queuesInOrder (Game.waveManager (step c g))
  /\ map Enemy.type (Game.heap (step c g))
     ++ concat (WaveManager.waves (Game.waveManager (step c g)))
     = map Enemy.type (Game.heap g0)
       ++ concat (WaveManager.waves (Game.waveManager g0)).
Proof.
  intros [Q Heq]. destruct c as [dt|x y|type].
  - simpl.
    destruct (Game.gameOver g) eqn:Hover;
      [rewrite update_halted; [split; assumption|left; exact Hover]|].
    destruct (Game.gameWon g) eqn:Hwon;
      [rewrite update_halted; [split; assumption|right; exact Hwon]|].
    destruct Q as (Hk & Hpre & Hidx).
    destruct (update_run dt g Hover Hwon)
      as (wm & enemies1 & heap1 & enemies2 & g2 & towers' & ps' & ps'' & heap'
          & W & E & T & P & _ & _ & _ & _ & -> & _ & -> & _).
    destruct (WaveManager_update_order _ _ _ _ _ _ _ W Hk Hpre Hidx)
      as (Heq1 & Hpre1 & Hidx1).
    pose proof (WaveManager_update_known _ _ _ _ _ _ _ W Hk) as Hk1.
    destruct (updateEnemies_kept _ _ _ _ _ E) as (_ & _ & Hcast).
    simpl in Hcast. destruct (sameCast_facts _ _ Hcast) as (_ & Ht2 & _).
    destruct (updateProjectiles_cast _ _ _ _ _ P) as (Hcast' & _).
    destruct (sameCast_facts _ _ Hcast') as (_ & Ht3 & _).
    split; [repeat split; assumption|].
    rewrite Ht3, Ht2, Heq1. exact Heq.
  - destruct (step_click_frame (Click x y) g I) as (_ & -> & _ & -> & _).
    split; assumption.
  - destruct (step_click_frame (StartPlacing type) g I) as (_ & -> & _ & -> & _).
    split; assumption.
Qed.

Lemma spawnedInOrder_run (g0 : Game.t) (cs : list Command) :
  queuesInOrder (Game.waveManager g0) ->
  queuesInOrder (Game.waveManager (run cs g0))
  /\ map Enemy.type (Game.heap (run cs g0))
     ++ concat (WaveManager.waves (Game.waveManager (run cs g0)))
     = map Enemy.type (Game.heap g0)
       ++ concat (WaveManager.waves (Game.waveManager g0)).
Proof.
  intros Q.
  apply (run_invariant
           (fun g =>
              queuesInOrder (Game.waveManager g)
              /\ map Enemy.type (Game.heap g)
                 ++ concat (WaveManager.waves (Game.waveManager g))
                 = map Enemy.type (Game.heap g0)
                   ++ concat (WaveManager.waves (Game.waveManager g0)))
           (spawnedInOrder_step g0) cs g0).
  split; [exact Q|reflexivity].
Qed.

Lemma queuesInOrder_new : queuesInOrder WaveManager.new.
Proof.
  split; [exact createWaves_known|]. split; [|simpl; lia].
  intros i Hi. simpl in Hi. lia.
Qed.

(** X9.  Enemies come in the order of the queues.  Take a game whose scheduler
    has only keys of [enemyTypes] in its queues, empty queues before the
    current wave, and a wave index that is at most the number of waves (the
    scheduler that the constructor builds is one).  After any commands, the
    types of the enemy objects, in order of creation, followed by what is
    left in the queues, are the types of the enemy objects of the first
    game followed by what its queues held; the scheduler is such a
    scheduler again.  From the scheduler of the constructor and an empty
    store this is the table of [createWaves] read in order, 27 entries, and
    the wave index is at most 6. *)
Theorem enemies_follow_wave_table (g0 : Game.t) (cs : list Command) :
  queuesInOrder (Game.waveManager g0) ->
  map Enemy.type (Game.heap (run cs g0))
  ++ concat (WaveManager.waves (Game.waveManager (run cs g0)))
  = map Enemy.type (Game.heap g0) ++ concat (WaveManager.waves (Game.waveManager g0))
  /\ queuesInOrder (Game.waveManager (run cs g0))
  /\ (Game.waveManager g0 = WaveManager.new -> Game.heap g0 = [] ->
      map Enemy.type (Game.heap (run cs g0))
      ++ concat (WaveManager.waves (Game.waveManager (run cs g0)))
      = concat WaveManager.createWaves
      /\ (length (Game.heap (run cs g0))
          + length (concat (WaveManager.waves (Game.waveManager (run cs g0))))
          = 27)%nat
      /\ (WaveManager.currentWaveIndex (Game.waveManager (run cs g0)) <= 6)%nat).
Proof.
  intros Q. destruct (spawnedInOrder_run g0 cs Q) as [Q' Heq].
  split; [exact Heq|]. split; [exact Q'|].
  intros Hwm Hheap. rewrite Hwm, Hheap in Heq. simpl in Heq.
  split; [exact Heq|].
  pose proof (f_equal length Heq) as Hlen. rewrite length_app, length_map in Hlen.
  split; [exact Hlen|].
  destruct Q' as (_ & Hpre & Hidx).
  assert (Hwaves : forall cs' g, length (WaveManager.waves (Game.waveManager (run cs' g)))
                                 = length (WaveManager.waves (Game.waveManager g))).
  { induction cs' as [|c cs' IH]; intros g; [reflexivity|]. simpl.
    change (fold_left (fun g c => step c g) cs' (step c g)) with (run cs' (step c g)).
    rewrite IH. destruct c as [dt|x y|type].
    - simpl.
      destruct (Game.gameOver g) eqn:Hover;
        [rewrite update_halted; [reflexivity|left; exact Hover]|].
      destruct (Game.gameWon g) eqn:Hwon;
        [rewrite update_halted; [reflexivity|right; exact Hwon]|].
      destruct (update_run dt g Hover Hwon)
        as (wm & enemies1 & heap1 & enemies2 & g2 & towers' & ps' & ps'' & heap'
            & W & _ & _ & _ & _ & _ & _ & _ & _ & _ & -> & _).
      exact (proj1 (WaveManager_update_shape _ _ _ _ _ _ _ W)).
    - destruct (step_click_frame (Click x y) g I) as (_ & _ & _ & -> & _). reflexivity.
    - destruct (step_click_frame (StartPlacing type) g I) as (_ & _ & _ & -> & _).
      reflexivity. }
  rewrite Hwaves, Hwm in Hidx. exact Hidx.
Qed.

Lemma livesAccounted_step (g0 : Game.t) c g :
  livesAccounted g0 g -> livesAccounted g0 (step c g).
Proof.
  intros H. destruct c as [dt|x y|type].
  - simpl.
    destruct (Game.gameOver g) eqn:Hover;
      [rewrite update_halted; [exact H|left; exact Hover]|].
    destruct (Game.gameWon g) eqn:Hwon;
      [rewrite update_halted; [exact H|right; exact Hwon]|].
    destruct H as (Hacc & Hmax). unfold livesAccounted.
    destruct (update_run dt g Hover Hwon)
      as (wm & enemies1 & heap1 & enemies2 & g2 & towers' & ps' & ps'' & heap'
          & W & E & T & P & _ & _ & -> & _ & -> & -> & _).
    pose proof (WaveManager_update_shape _ _ _ _ _ _ _ W) as [_ Hshape].
    destruct (updateEnemies_kept _ _ _ _ _ E) as (_ & Hkept & Hcast).
    destruct (updateEnemies_lives _ _ _ _ _ E) as (Hdown & _).
    simpl in Hkept, Hcast, Hdown.
    destruct (sameCast_facts _ _ Hcast) as (Hlen2 & _).
    destruct (updateProjectiles_cast _ _ _ _ _ P) as (Hcast' & _).
    destruct (sameCast_facts _ _ Hcast') as (Hlen3 & _).
    rewrite Hlen3, Hlen2.
    destruct Hshape as [[-> ->]|(type & stats & _ & -> & ->)].
    + split; lia.
    + rewrite !length_app in *. simpl in *. split; lia.
  - destruct (step_click_frame (Click x y) g I) as (He & Hh & _ & _ & Hl & _).
    unfold livesAccounted. rewrite He, Hh, Hl. exact H.
  - destruct (step_click_frame (StartPlacing type) g I) as (He & Hh & _ & _ & Hl & _).
    unfold livesAccounted. rewrite He, Hh, Hl. exact H.
Qed.

(** X10.  Lives in a whole session.  From a game whose scheduler is as in X9,
    after any commands: lives have not gone up; the lives taken and the
    enemies listed now are together no more than the enemies listed at the
    start and those created since; and as no more enemies are created than
    the queues held, lives are at least the lives of the start less the
    enemies listed then and the entries of the queues then.  From 20
    lives, no enemy and the scheduler of the constructor, lives stay
    between -7 and 20. *)
Theorem lives_bounds (g0 : Game.t) (cs : list Command) :
  queuesInOrder (Game.waveManager g0) ->
  (Game.lives g0 - Game.lives (run cs g0) + Z.of_nat (length (Game.enemies (run cs g0)))
   <= Z.of_nat (length (Game.enemies g0))
      + (Z.of_nat (length (Game.heap (run cs g0))) - Z.of_nat (length (Game.heap g0))))%Z
  /\ (Game.lives g0 - Z.of_nat (length (Game.enemies g0))
      - Z.of_nat (length (concat (WaveManager.waves (Game.waveManager g0))))
      <= Game.lives (run cs g0) <= Game.lives g0)%Z
  /\ (Game.lives g0 = 20%Z -> Game.enemies g0 = [] ->
      Game.waveManager g0 = WaveManager.new ->
      (-7 <= Game.lives (run cs g0) <= 20)%Z).
Proof.
  intros Q. destruct (spawnedInOrder_run g0 cs Q) as [_ Heq].
  assert (H0 : livesAccounted g0 g0) by (unfold livesAccounted; lia).
  pose proof (run_invariant (livesAccounted g0) (livesAccounted_step g0) cs g0 H0)
    as (Hacc & Hmax).
  apply (f_equal length) in Heq. rewrite !length_app, !length_map in Heq.
  split; [exact Hacc|]. split; [lia|].
  intros Hl He Hwm. rewrite He, Hwm in *.
  change (length (concat (WaveManager.waves WaveManager.new))) with 27%nat in Heq.
  simpl in Hacc. lia.
Qed.

(** ** Towers as built, and the economy *)

Lemma towerBuilt_new x y type stats :
  towerTypes type = Some stats -> towerBuilt (Tower.new x y type stats).
Proof.
  intros H. destruct (towerTypes_nonneg _ _ H) as (Hd & _).
  unfold towerBuilt, Tower.new.
  cbn [Tower.level Tower.upgradeCost Tower.damage Tower.type Tower.color].
  split; [lia|]. split; [lia|]. split; [exact Hd|].
  exists stats. split; [exact H|reflexivity].
Qed.

Lemma towerBuilt_upgrade tw : towerBuilt tw -> towerBuilt (Tower.upgrade tw).
Proof.
  intros (Hl & Hc & Hd & stats & Ht & Hcol).
  unfold towerBuilt, Tower.upgrade.
  cbn [Tower.level Tower.upgradeCost Tower.damage Tower.type Tower.color].
  split; [lia|]. split; [lia|].
  split; [rewrite floor_three_halves; apply Z.div_pos; lia|].
  exists stats. split; [exact Ht|exact Hcol].
Qed.

Lemma towersBuilt_update dt g :
  Forall towerBuilt (Game.towers g) -> Forall towerBuilt (Game.towers (Game.update dt g)).
Proof.
  intros H.
  destruct (Game.gameOver g) eqn:Hover;
    [rewrite update_halted; [exact H|left; exact Hover]|].
  destruct (Game.gameWon g) eqn:Hwon;
    [rewrite update_halted; [exact H|right; exact Hwon]|].
  destruct (update_run dt g Hover Hwon)
    as (wm & enemies1 & heap1 & enemies2 & g2 & towers' & ps' & ps'' & heap'
        & _ & _ & T & _ & _ & _ & _ & _ & _ & _ & _ & -> & _).
  destruct (updateTowers_shape _ _ _ _ _ _ _ T) as (F & _).
  clear T. induction F as [|tw tw' l l' [c ->] _ IH]; [constructor|].
  apply Forall_cons in H. destruct H as [Htw Hl].
  apply Forall_cons. split; [exact Htw|apply IH; exact Hl].
Qed.

Lemma towersBuilt_handleClick x y g :
  Forall towerBuilt (Game.towers g) ->
  Forall towerBuilt (Game.towers (fst (Game.handleClick x y g)))
  /\ (Game.money (fst (Game.handleClick x y g)) <= Game.money g)%Z.
Proof.
  intros H. unfold Game.handleClick.
  destruct (Game.gameOver g); [split; [exact H|simpl; lia]|].
  destruct (Game.placingTower g).
  - destruct (floorZ (x / GRID_SIZE)) as [gridX|]; [|split; [exact H|simpl; lia]].
    destruct (floorZ (y / GRID_SIZE)) as [gridY|]; [|split; [exact H|simpl; lia]].
    destruct (grid_get _ _ _) as [cell|]; [|split; [exact H|simpl; lia]].
    destruct (walkable cell); [|split; [exact H|simpl; lia]].
    destruct (towerTypes _) as [towerType|] eqn:Hty;
      [|destruct (inherited _); split; solve [exact H|simpl; lia]].
    destruct (_ <=? _)%Z; [|split; [exact H|simpl; lia]].
    simpl. split.
    + apply Forall_app. split; [exact H|]. apply Forall_singleton.
      apply towerBuilt_new. exact Hty.
    + destruct (towerTypes_nonneg _ _ Hty) as (_ & Hc). lia.
  - destruct (Game.clickedTower x y (Game.towers g) 0) as [i|];
      [|split; [exact H|simpl; lia]].
    unfold Game.upgradeTower.
    destruct (Game.towers g !! i) as [tw|] eqn:Htw; [|split; [exact H|simpl; lia]].
    destruct (_ <=? _)%Z; [|split; [exact H|simpl; lia]].
    simpl. rewrite Forall_lookup in H. pose proof (H _ _ Htw) as Hb.
    split.
    + apply Forall_insert; [apply Forall_lookup; exact H|].
      apply towerBuilt_upgrade. exact Hb.
    + destruct Hb as (Hl & _). lia.
Qed.

Lemma towersBuilt_step c g :
  Forall towerBuilt (Game.towers g) -> Forall towerBuilt (Game.towers (step c g)).
Proof.
  intros H. destruct c as [dt|x y|type]; simpl.
  - apply towersBuilt_update. exact H.
  - apply towersBuilt_handleClick. exact H.
  - destruct (startPlacingTower_placing type g) as [-> | ->]; exact H.
Qed.

(** X11.  Towers stay as built.  Take a game in which each tower has a type of
    the table and its colour, level at least 1, a damage that is not
    negative and an [upgradeCost] field of [25 * level + 25] (a game without
    towers is one).  After any commands each tower is such a tower again;
    the [upgradeCost] field is never read, and the price that
    [upgradeTower] charges, [level * 25 + 50], is always 25 more than
    it. *)
Theorem towers_stay_as_built (g0 : Game.t) (cs : list Command) :
  Forall towerBuilt (Game.towers g0) ->
  Forall
    (fun tw =>
       towerBuilt tw
       /\ (Tower.level tw * 25 + 50 = Tower.upgradeCost tw + 25)%Z)
    (Game.towers (run cs g0)).
Proof.
  intros H0.
  pose proof (run_invariant (fun g => Forall towerBuilt (Game.towers g))
                towersBuilt_step cs g0 H0) as H.
  eapply Forall_impl; [exact H|]. intros tw Hb. split; [exact Hb|].
  destruct Hb as (_ & Hc & _). lia.
Qed.

(** What a session keeps of the economy, from the game [g0] on. *)
Lemma earned_step (g0 : Game.t) c g :
  Forall towerBuilt (Game.towers g)
  /\ Forall (fun enemy => (0 <= Enemy.reward enemy)%Z) (Game.heap g)
  /\ (Game.score g0 <= Game.score g)%Z
  /\ (Game.money g - Game.score g <= Game.money g0 - Game.score g0)%Z ->
  Forall towerBuilt (Game.towers (step c g))
  /\ Forall (fun enemy => (0 <= Enemy.reward enemy)%Z) (Game.heap (step c g))
  /\ (Game.score g0 <= Game.score (step c g))%Z
  /\ (Game.money (step c g) - Game.score (step c g)
      <= Game.money g0 - Game.score g0)%Z.
Proof.
  intros (Hb & Hr & Hs & Hm).
  split; [apply towersBuilt_step; exact Hb|].
  destruct c as [dt|x y|type].
  - simpl.
    destruct (Game.gameOver g) eqn:Hover;
      [rewrite update_halted; [repeat split; assumption|left; exact Hover]|].
    destruct (Game.gameWon g) eqn:Hwon;
      [rewrite update_halted; [repeat split; assumption|right; exact Hwon]|].
    destruct (update_run dt g Hover Hwon)
      as (wm & enemies1 & heap1 & enemies2 & g2 & towers' & ps' & ps'' & heap'
          & W & E & T & P & -> & -> & _ & _ & -> & _).
    pose proof (WaveManager_update_shape _ _ _ _ _ _ _ W) as [_ Hshape].
    assert (Hr1 : Forall (fun enemy => (0 <= Enemy.reward enemy)%Z) heap1).
    { destruct Hshape as [[_ ->]|(type & stats & Hty & _ & ->)]; [exact Hr|].
      apply Forall_app. split; [exact Hr|]. apply Forall_singleton.
      destruct (enemyTypes_positive _ _ Hty) as [_ Hpos]. simpl. lia. }
    destruct (updateEnemies_rewards _ _ _ _ _ E Hr1) as [Hr2 Hmono].
    destruct (updateEnemies_payout _ _ _ _ _ E) as (Hm2 & Hs2 & _).
    simpl in Hmono, Hm2, Hs2.
    split; [exact (updateProjectiles_rewards _ _ _ _ _ P Hr2)|].
    split; lia.
  - destruct (towersBuilt_handleClick x y g Hb) as [_ Hle].
    destruct (step_click_frame (Click x y) g I) as (_ & -> & _ & _ & _ & -> & _).
    simpl. repeat split; [exact Hr|lia|lia].
  - destruct (step_click_frame (StartPlacing type) g I)
      as (_ & -> & _ & _ & _ & -> & _).
    simpl. destruct (startPlacingTower_placing type g) as [-> | ->];
      repeat split; assumption.
Qed.

(** X12.  Money comes from rewards only.  Take a game whose towers are as in
    X11 and whose enemy objects have no negative reward.  After any
    commands the score has not gone down, and money has gone up by no more
    than the score has: the frames add the same rewards to both, and
    building and upgrading only take money.  From the 150 and the score 0
    of the constructor, money is at most 150 plus the score. *)
Theorem money_at_most_earned (g0 : Game.t) (cs : list Command) :
  Forall towerBuilt (Game.towers g0) ->
  Forall (fun enemy => (0 <= Enemy.reward enemy)%Z) (Game.heap g0) ->
  (Game.score g0 <= Game.score (run cs g0))%Z
  /\ (Game.money (run cs g0) - Game.money g0
      <= Game.score (run cs g0) - Game.score g0)%Z
  /\ (Game.money g0 = 150%Z -> Game.score g0 = 0%Z ->
      (0 <= Game.score (run cs g0))%Z
      /\ (Game.money (run cs g0) <= 150 + Game.score (run cs g0))%Z).
Proof.
  intros Hb Hr.
  assert (H0 : Forall towerBuilt (Game.towers g0)
               /\ Forall (fun enemy => (0 <= Enemy.reward enemy)%Z) (Game.heap g0)
               /\ (Game.score g0 <= Game.score g0)%Z
               /\ (Game.money g0 - Game.score g0 <= Game.money g0 - Game.score g0)%Z)
    by (repeat split; [assumption|assumption|lia|lia]).
  pose proof (run_invariant _ (earned_step g0) cs g0 H0) as (_ & _ & Hs & Hm).
  split; [exact Hs|]. split; [lia|]. intros H150 H00. lia.
Qed.

(** ** Towers and the grid *)

(** The place [handleClick] gives a tower is the centre of the cell that
    the click is in. *)
Lemma floor_cellCentre (v : float) (i : Z) :
  floorZ v = Some i -> floor v * GRID_SIZE + GRID_SIZE / 2 = cellCentre i.
Proof.
  unfold floorZ, floor, cellCentre. pose proof (SF2Prim_Prim2SF v) as Hv.
  destruct (Prim2SF v) as [s|s| |s m e]; try discriminate; intros [= <-].
  - rewrite <- Hv. destruct s; vm_compute; reflexivity.
  - reflexivity.
Qed.

(** The centre of a cell of the grid is in that cell. *)
Lemma cellCentre_cell (i : Z) :
  (0 <= i < GRID_WIDTH)%Z -> floorZ (cellCentre i / GRID_SIZE) = Some i.
Proof.
  intros H. change GRID_WIDTH with 20%Z in H.
  assert (Hi : i = Z.of_nat (Z.to_nat i)) by lia. rewrite Hi.
  assert (Hn : (Z.to_nat i < 20)%nat) by lia. revert Hn.
  generalize (Z.to_nat i). intros n Hn.
  do 20 (destruct n as [|n]; [vm_compute; reflexivity|]). lia.
Qed.

Lemma cellCentre_inj (i j : Z) :
  (0 <= i < GRID_WIDTH)%Z -> (0 <= j < GRID_WIDTH)%Z ->
  cellCentre i = cellCentre j -> i = j.
Proof.
  intros Hi Hj H. pose proof (cellCentre_cell i Hi) as Ci.
  rewrite H, (cellCentre_cell j Hj) in Ci. congruence.
Qed.

Lemma towersOnGrid_same_places g g' :
  Game.grid g' = Game.grid g ->
  Forall2 (fun tw tw' => Tower.x tw' = Tower.x tw /\ Tower.y tw' = Tower.y tw)
    (Game.towers g) (Game.towers g') ->
  towersOnGrid g -> towersOnGrid g'.
Proof.
  intros Hgrid F (H1 & H2 & H3 & H4). unfold towersOnGrid. rewrite Hgrid.
  split; [|split; [|split; [exact H3|exact H4]]].
  - intros gx gy cell i Hget Ht.
    destruct (H1 _ _ _ _ Hget Ht) as (tw & Hi & Hx & Hy).
    destruct (Forall2_lookup_l _ _ _ _ _ F Hi) as (tw' & Hi' & Hx' & Hy').
    exists tw'. split; [exact Hi'|]. split; congruence.
  - intros i tw' Hi'.
    destruct (Forall2_lookup_r _ _ _ _ _ F Hi') as (tw & Hi & Hx' & Hy').
    destruct (H2 _ _ Hi) as (gx & gy & cell & Hget & Ht & Hx & Hy).
    exists gx, gy, cell. repeat split; congruence.
Qed.

Lemma same_places_refl (towers : list Tower.t) :
  Forall2 (fun tw tw' => Tower.x tw' = Tower.x tw /\ Tower.y tw' = Tower.y tw)
    towers towers.
Proof. apply Forall_Forall2_diag, Forall_forall. intros; split; reflexivity. Qed.

Lemma towersOnGrid_update dt g : towersOnGrid g -> towersOnGrid (Game.update dt g).
Proof.
  intros H.
  destruct (Game.gameOver g) eqn:Hover;
    [rewrite update_halted; [exact H|left; exact Hover]|].
  destruct (Game.gameWon g) eqn:Hwon;
    [rewrite update_halted; [exact H|right; exact Hwon]|].
  destruct (update_run dt g Hover Hwon)
    as (wm & enemies1 & heap1 & enemies2 & g2 & towers' & ps' & ps'' & heap'
        & _ & _ & T & _ & _ & _ & _ & _ & _ & _ & _ & Ht & _ & _ & Hg & _).
  apply (towersOnGrid_same_places g); [exact Hg| |exact H].
  rewrite Ht. destruct (updateTowers_shape _ _ _ _ _ _ _ T) as (F & _).
  eapply Forall2_impl; [exact F|]. intros tw tw' [c ->]. split; reflexivity.
Qed.

(** A click keeps towers and grid in agreement, and a cell it leaves without
    a tower it leaves as it was. *)
Lemma towersOnGrid_handleClick x y g :
  towersOnGrid g ->
  towersOnGrid (fst (Game.handleClick x y g))
  /\ (forall gridX gridY cell,
        grid_get (Game.grid (fst (Game.handleClick x y g))) gridX gridY = Some cell ->
        tower cell = None ->
        grid_get (Game.grid g) gridX gridY = Some cell).
Proof.
  intros H.
  assert (Hsame : forall g' : Game.t, towersOnGrid g' -> Game.grid g' = Game.grid g ->
            towersOnGrid g'
            /\ (forall gridX gridY cell,
                  grid_get (Game.grid g') gridX gridY = Some cell ->
                  tower cell = None ->
                  grid_get (Game.grid g) gridX gridY = Some cell)).
  { intros g' H' Hg. split; [exact H'|]. rewrite Hg. auto. }
  unfold Game.handleClick.
  destruct (Game.gameOver g); [apply Hsame; [exact H|reflexivity]|].
  destruct (Game.placingTower g).
  - destruct (floorZ (x / GRID_SIZE)) as [gridX0|] eqn:Hfx;
      [|apply Hsame; [exact H|reflexivity]].
    destruct (floorZ (y / GRID_SIZE)) as [gridY0|] eqn:Hfy;
      [|apply Hsame; [exact H|reflexivity]].
    destruct (grid_get _ _ _) as [cell0|] eqn:Hcell;
      [|apply Hsame; [exact H|reflexivity]].
    destruct (walkable cell0) eqn:Hwalk; [|apply Hsame; [exact H|reflexivity]].
    destruct (towerTypes _) as [towerType|];
      [|destruct (inherited _); apply Hsame; solve [exact H|reflexivity]].
    destruct (_ <=? _)%Z; [|apply Hsame; [exact H|reflexivity]].
    destruct (grid_get_nonneg _ _ _ _ Hcell) as [Hx0 Hy0].
    destruct H as (H1 & H2 & H3 & H4).
    assert (Hfree : tower cell0 = None).
    { destruct (tower cell0) as [i|] eqn:Ht; [|reflexivity].
      rewrite (H3 _ _ _ Hcell) in Hwalk; [discriminate|congruence]. }
    unfold towersOnGrid.
    cbn [fst Game.grid Game.towers Game.set_placing Game.set_grid Game.set_towers
         Game.set_money Game.selectedTowerType].
    rewrite (floor_cellCentre _ _ Hfx), (floor_cellCentre _ _ Hfy).
    split; [split; [|split; [|split]]|].
    + intros gx gy cell i Hget Ht. rewrite grid_get_alter_at in Hget by assumption.
      destruct (decide _) as [[-> ->]|_].
      * rewrite Hcell in Hget. simpl in Hget. injection Hget as <-.
        simpl in Ht. injection Ht as <-.
        eexists. split; [apply list_lookup_middle; reflexivity|].
        split; reflexivity.
      * destruct (H1 _ _ _ _ Hget Ht) as (tw & Hi & Hx & Hy).
        exists tw. split; [|split; assumption].
        rewrite lookup_app_l; [exact Hi|]. apply lookup_lt_Some in Hi. exact Hi.
    + intros i tw Hi. apply lookup_snoc_Some in Hi as [[Hlt Hi]|[-> <-]].
      * destruct (H2 _ _ Hi) as (gx & gy & cell & Hget & Ht & Hx & Hy).
        exists gx, gy, cell. rewrite grid_get_alter_at by assumption.
        destruct (decide _) as [[-> ->]|_]; [congruence|].
        repeat split; assumption.
      * exists gridX0, gridY0, (mkCell false (Some (length (Game.towers g)))).
        rewrite grid_get_alter_at by assumption.
        destruct (decide _) as [_|N]; [|exfalso; apply N; split; reflexivity].
        rewrite Hcell. repeat split.
    + apply towersBlocked_place. exact H3.
    + intros gx gy cell Hget. rewrite grid_get_alter_at in Hget by assumption.
      destruct (decide _) as [[-> ->]|_]; [|exact (H4 _ _ _ Hget)].
      exact (H4 _ _ _ Hcell).
    + intros gx gy cell Hget Ht. rewrite grid_get_alter_at in Hget by assumption.
      destruct (decide _) as [[-> ->]|_]; [|exact Hget].
      rewrite Hcell in Hget. simpl in Hget. injection Hget as <-. discriminate.
  - destruct (Game.clickedTower x y (Game.towers g) 0) as [i|];
      [|apply Hsame; [exact H|reflexivity]].
    unfold Game.upgradeTower.
    destruct (Game.towers g !! i) as [tw|] eqn:Htw;
      [|apply Hsame; [exact H|reflexivity]].
    destruct (_ <=? _)%Z; [|apply Hsame; [exact H|reflexivity]].
    apply Hsame; [|reflexivity].
    apply (towersOnGrid_same_places g); [reflexivity| |exact H]. simpl.
    rewrite <- (list_insert_id (Game.towers g) i tw Htw) at 1.
    apply Forall2_insert; [apply same_places_refl|]. split; reflexivity.
Qed.

Lemma towersOnGrid_step (g0 : Game.t) c g :
  towersOnGrid g
  /\ (forall gridX gridY cell,
        grid_get (Game.grid g) gridX gridY = Some cell -> tower cell = None ->
        grid_get (Game.grid g0) gridX gridY = Some cell) ->
  towersOnGrid (step c g)
  /\ (forall gridX gridY cell,
        grid_get (Game.grid (step c g)) gridX gridY = Some cell -> tower cell = None ->
        grid_get (Game.grid g0) gridX gridY = Some cell).
Proof.
  intros [H Hold]. destruct c as [dt|x y|type]; simpl.
  - split; [apply towersOnGrid_update; exact H|].
    assert (Hg : Game.grid (Game.update dt g) = Game.grid g).
    { destruct (Game.gameOver g) eqn:Hover;
        [rewrite update_halted; [reflexivity|left; exact Hover]|].
      destruct (Game.gameWon g) eqn:Hwon;
        [rewrite update_halted; [reflexivity|right; exact Hwon]|].
      destruct (update_run dt g Hover Hwon)
        as (wm & enemies1 & heap1 & enemies2 & g2 & towers' & ps' & ps'' & heap'
            & _ & _ & _ & _ & _ & _ & _ & _ & _ & _ & _ & _ & _ & _ & Hg & _).
      exact Hg. }
    rewrite Hg. exact Hold.
  - destruct (towersOnGrid_handleClick x y g H) as [H' Hnew].
    split; [exact H'|]. intros gx gy cell Hget Ht.
    apply Hold; [|exact Ht]. exact (Hnew _ _ _ Hget Ht).
  - destruct (startPlacingTower_placing type g) as [-> | ->]; split; assumption.
Qed.

(** The grid of [createGrid], without towers. *)
Lemma towersOnGrid_createGrid (g : Game.t) (path : list Point) :
  Game.towers g = [] -> Game.grid g = createGrid path -> towersOnGrid g.
Proof.
  intros Ht Hg. unfold towersOnGrid. rewrite Ht, Hg.
  assert (Hcell : forall gridX gridY cell,
            grid_get (createGrid path) gridX gridY = Some cell ->
            tower cell = None /\ (gridX < GRID_WIDTH)%Z /\ (gridY < GRID_HEIGHT)%Z).
  { intros gx gy cell. rewrite createGrid_lookup.
    destruct (Z.leb_spec 0 gy), (Z.ltb_spec gy GRID_HEIGHT), (Z.leb_spec 0 gx),
      (Z.ltb_spec gx GRID_WIDTH); simpl; try discriminate.
    intros [= <-]. repeat split; assumption. }
  split; [|split; [|split]].
  - intros gx gy cell i Hget Hi. destruct (Hcell _ _ _ Hget) as (Hn & _). congruence.
  - intros i tw Hi. rewrite lookup_nil in Hi. discriminate.
  - intros gx gy cell Hget Hi. destruct (Hcell _ _ _ Hget) as (Hn & _). congruence.
  - intros gx gy cell Hget. destruct (Hcell _ _ _ Hget) as (_ & H). exact H.
Qed.

(** X13.  One tower per cell.  Take a game in which towers and grid agree: a
    cell that names a tower names one standing at its centre, every tower
    is named by the cell it stands in, a cell that names a tower is not
    walkable, and the grid is no larger than GRID_WIDTH by GRID_HEIGHT (a
    game without towers on the grid of [createGrid] is one, for any path).
    After any commands each tower stands at the centre of a cell of the
    grid that names it and is not walkable, no two towers stand in the same
    place, a cell that names a tower names one standing at its centre, and
    a cell that names none is as it was in the first game. *)
Theorem one_tower_per_cell (g0 : Game.t) (cs : list Command) :
  towersOnGrid g0 ->
  (forall i tw,
     Game.towers (run cs g0) !! i = Some tw ->
     exists gridX gridY cell,
       grid_get (Game.grid (run cs g0)) gridX gridY = Some cell
       /\ tower cell = Some i /\ walkable cell = false
       /\ Tower.x tw = cellCentre gridX /\ Tower.y tw = cellCentre gridY)
  /\ (forall i j twi twj,
        Game.towers (run cs g0) !! i = Some twi ->
        Game.towers (run cs g0) !! j = Some twj ->
        Tower.x twi = Tower.x twj -> Tower.y twi = Tower.y twj -> i = j)
  /\ (forall gridX gridY cell i,
        grid_get (Game.grid (run cs g0)) gridX gridY = Some cell ->
        tower cell = Some i ->
        exists tw, Game.towers (run cs g0) !! i = Some tw
                   /\ Tower.x tw = cellCentre gridX /\ Tower.y tw = cellCentre gridY)
  /\ (forall gridX gridY cell,
        grid_get (Game.grid (run cs g0)) gridX gridY = Some cell ->
        tower cell = None ->
        grid_get (Game.grid g0) gridX gridY = Some cell).
Proof.
  intros H0.
  assert (Hstart : towersOnGrid g0
                   /\ (forall gridX gridY cell,
                         grid_get (Game.grid g0) gridX gridY = Some cell ->
                         tower cell = None ->
                         grid_get (Game.grid g0) gridX gridY = Some cell))
    by (split; [exact H0|auto]).
  pose proof (run_invariant _ (towersOnGrid_step g0) cs g0 Hstart)
    as ((H1 & H2 & H3 & H4) & Hold).
  split; [|split; [|split; assumption]].
  - intros i tw Hi. destruct (H2 _ _ Hi) as (gx & gy & cell & Hget & Ht & Hx & Hy).
    exists gx, gy, cell. repeat split; try assumption.
    apply (H3 _ _ _ Hget). congruence.
  - intros i j twi twj Hi Hj Hx Hy.
    destruct (H2 _ _ Hi) as (gx & gy & cell & Hget & Ht & Hxi & Hyi).
    destruct (H2 _ _ Hj) as (gx' & gy' & cell' & Hget' & Ht' & Hxj & Hyj).
    destruct (grid_get_nonneg _ _ _ _ Hget) as [Hgx Hgy].
    destruct (grid_get_nonneg _ _ _ _ Hget') as [Hgx' Hgy'].
    destruct (H4 _ _ _ Hget) as [Bx By]. destruct (H4 _ _ _ Hget') as [Bx' By'].
    change GRID_HEIGHT with 15%Z in By, By'. change GRID_WIDTH with 20%Z in Bx, Bx'.
    assert (gx = gx')
      by (apply cellCentre_inj; [change GRID_WIDTH with 20%Z; lia..|congruence]).
    assert (gy = gy')
      by (apply cellCentre_inj; [change GRID_WIDTH with 20%Z; lia..|congruence]).
    subst gx' gy'. congruence.
Qed.

(** ** The frame loop *)

Lemma animationFrames_stopped times : forall l,
  requested l = false -> animationFrames times l = l.
Proof.
  induction times as [|t times IH]; intros l H; [reflexivity|].
  change (animationFrames (t :: times) l)
    with (animationFrames times (animationFrame t l)).
  unfold animationFrame. rewrite H. apply IH. exact H.
Qed.

(** X14.  The frame loop.  Started from a game that is not won and has a wave
    list that is not empty, with a frame requested exactly when that game
    is not over: after any number of timestamps the game is the one that a
    session of frames leaves, one frame at most per timestamp, it is not
    won, and a frame is requested exactly when it is not over; so the loop
    ends by losing, never by winning.  While it runs, [lastTime] is the
    last timestamp. *)
Theorem gameLoop_runs_until_game_over (times : list float) (l : Loop) :
  unwon (loopGame l) ->
  requested l = negb (Game.gameOver (loopGame l)) ->
  (exists deltaTimes,
     loopGame (animationFrames times l) = run (map Tick deltaTimes) (loopGame l)
     /\ (length deltaTimes <= length times)%nat)
  /\ Game.gameWon (loopGame (animationFrames times l)) = false
  /\ requested (animationFrames times l)
     = negb (Game.gameOver (loopGame (animationFrames times l)))
  /\ (requested (animationFrames times l) = true ->
      lastTime (animationFrames times l) = default (lastTime l) (last times)).
Proof.
  revert l. induction times as [|t times IH]; intros l U Hreq.
  - simpl. split; [exists []; split; [reflexivity|simpl; lia]|].
    split; [exact (proj1 U)|]. split; [exact Hreq|reflexivity].
  - destruct (requested l) eqn:Hl.
    + pose proof (unwon_step (Tick ((t - lastTime l) / 1000)) _ U) as U'.
      simpl in U'. pose proof (proj1 U') as Hwon.
      assert (Hstep : animationFrame t l
                      = mkLoop (Game.update ((t - lastTime l) / 1000) (loopGame l)) t
                          (negb (Game.gameOver
                                   (Game.update ((t - lastTime l) / 1000) (loopGame l))))).
      { unfold animationFrame, gameLoop. rewrite Hl, Hwon, andb_true_r. reflexivity. }
      change (animationFrames (t :: times) l)
        with (animationFrames times (animationFrame t l)).
      rewrite Hstep.
      destruct (IH (mkLoop (Game.update ((t - lastTime l) / 1000) (loopGame l)) t
                      (negb (Game.gameOver
                               (Game.update ((t - lastTime l) / 1000) (loopGame l)))))
                  U' eq_refl) as ((dts & Hrun & Hlen) & H1 & H2 & H3).
      split; [|split; [exact H1|split; [exact H2|]]].
      * exists ((t - lastTime l) / 1000 :: dts). split; [exact Hrun|simpl; lia].
      * intros Hr. rewrite (H3 Hr). simpl. rewrite last_cons.
        destruct (last times); reflexivity.
    + assert (Hstep : animationFrame t l = l)
        by (unfold animationFrame; rewrite Hl; reflexivity).
      change (animationFrames (t :: times) l)
        with (animationFrames times (animationFrame t l)).
      rewrite Hstep, animationFrames_stopped by exact Hl.
      split; [exists []; split; [reflexivity|simpl; lia]|].
      split; [exact (proj1 U)|]. split; [rewrite Hl; exact Hreq|].
      rewrite Hl. discriminate.
Qed.

(** ** The properties of sessions, on the opening session *)

Lemma references_stay_good_witness :
  NoDup (Game.enemies (run openingSession startGame)).
Proof.
  destruct (references_stay_good startGame openingSession wellReferenced_start)
    as (_ & H & _).
  exact H.
Defined.

Lemma enemies_follow_wave_table_witness :
  (length (Game.heap (run openingSession startGame))
   + length (concat (WaveManager.waves
                       (Game.waveManager (run openingSession startGame)))) = 27)%nat.
Proof.
  destruct (enemies_follow_wave_table startGame openingSession queuesInOrder_new)
    as (_ & _ & H).
  destruct (H eq_refl eq_refl) as (_ & H27 & _). exact H27.
Defined.

Lemma lives_bounds_witness :
  (-7 <= Game.lives (run openingSession startGame) <= 20)%Z.
Proof.
  destruct (lives_bounds startGame openingSession queuesInOrder_new) as (_ & _ & H).
  exact (H eq_refl eq_refl eq_refl).
Defined.

Lemma towers_stay_as_built_witness :
  Forall
    (fun tw =>
       towerBuilt tw /\ (Tower.level tw * 25 + 50 = Tower.upgradeCost tw + 25)%Z)
    (Game.towers (run openingSession startGame)).
Proof.
  apply (towers_stay_as_built startGame openingSession). simpl. constructor.
Defined.

Lemma money_at_most_earned_witness :
  (Game.money (run openingSession startGame)
   <= 150 + Game.score (run openingSession startGame))%Z.
Proof.
  destruct (money_at_most_earned startGame openingSession) as (_ & _ & H).
  - simpl. constructor.
  - simpl. constructor.
  - destruct (H eq_refl eq_refl) as [_ Hm]. exact Hm.
Defined.

Lemma one_tower_per_cell_witness :
  exists gridX gridY cell,
    grid_get (Game.grid (run openingSession startGame)) gridX gridY = Some cell
    /\ tower cell = Some 0%nat /\ walkable cell = false.
Proof.
  destruct (one_tower_per_cell startGame openingSession
              (towersOnGrid_createGrid startGame game_path eq_refl eq_refl))
    as (H & _).
  destruct (Game.towers (run openingSession startGame) !! 0%nat) as [tw|] eqn:E;
    [|vm_compute in E; discriminate].
  destruct (H 0%nat tw E) as (gridX & gridY & cell & Hget & Ht & Hw & _).
  exists gridX, gridY, cell. split; [exact Hget|]. split; [exact Ht|exact Hw].
Defined.

(** Two frames, at 1000 and at 2000 milliseconds, from the sample game. *)
Lemma gameLoop_runs_until_game_over_witness :
  requested (animationFrames [1000; 2000] (mkLoop startGame 0 true))
  = negb (Game.gameOver
            (loopGame (animationFrames [1000; 2000] (mkLoop startGame 0 true)))).
Proof.
  assert (U : unwon (loopGame (mkLoop startGame 0 true))).
  { split; [reflexivity|]. simpl. discriminate. }
  destruct (gameLoop_runs_until_game_over [1000; 2000] (mkLoop startGame 0 true)
              U eq_refl) as (_ & _ & H & _).
  exact H.
Defined.

(** ** What a frame leaves alone *)


Lemma updateProjectiles_length dt ps : forall (heap : Heap) ps' heap',
  Game.updateProjectiles dt ps heap = (ps', heap') ->
  (length ps' <= length ps)%nat.
Proof.
  induction ps as [|p rest IH]; intros heap ps' heap' U; simpl in U.
  - injection U as <- <-. simpl. lia.
  - destruct (Game.updateProjectiles dt rest heap) as [rest' heap1] eqn:R.
    specialize (IH _ _ _ R).
    destruct (Projectile.update dt heap1 p) as [heap2 p1].
    injection U as <- <-. destruct (Projectile.markedForDeletion p1); simpl; lia.
Qed.

(** X16.  A frame, of any game: the towers are the same towers in the same
    order, changed in their cooldown at most; there is at most one more
    projectile per tower; the store keeps its objects and gets at most one
    more; and the grid, the selected type and placing mode are not
    touched. *)
Theorem frame_keeps_towers_and_grid (dt : float) (g : Game.t) :
  Forall2 (fun tw tw' => exists c, tw' = Tower.set_fireCooldown tw c)
    (Game.towers g) (Game.towers (Game.update dt g))
  /\ (length (Game.projectiles (Game.update dt g))
      <= length (Game.projectiles g) + length (Game.towers g))%nat
  /\ (length (Game.heap g) <= length (Game.heap (Game.update dt g))
      <= S (length (Game.heap g)))%nat
  /\ Game.grid (Game.update dt g) = Game.grid g
  /\ Game.selectedTowerType (Game.update dt g) = Game.selectedTowerType g
  /\ Game.placingTower (Game.update dt g) = Game.placingTower g.
Proof.
  assert (Hsame : forall g' : Game.t, g' = g ->
            Forall2 (fun tw tw' => exists c, tw' = Tower.set_fireCooldown tw c)
              (Game.towers g) (Game.towers g')
            /\ (length (Game.projectiles g')
                <= length (Game.projectiles g) + length (Game.towers g))%nat
            /\ (length (Game.heap g) <= length (Game.heap g') <= S (length (Game.heap g)))%nat
            /\ Game.grid g' = Game.grid g
            /\ Game.selectedTowerType g' = Game.selectedTowerType g
            /\ Game.placingTower g' = Game.placingTower g).
  { intros g' ->. repeat split; try lia.
    apply Forall_Forall2_diag, Forall_forall. intros [] _. eexists. reflexivity. }
  destruct (Game.gameOver g) eqn:Hover;
    [apply Hsame, update_halted; left; exact Hover|].
  destruct (Game.gameWon g) eqn:Hwon;
    [apply Hsame, update_halted; right; exact Hwon|].
  destruct (update_run dt g Hover Hwon)
    as (wm & enemies1 & heap1 & enemies2 & g2 & towers' & ps' & ps'' & heap'
        & W & E & T & P & _ & _ & _ & _ & -> & _ & _ & -> & -> & _ & -> & -> & ->).
  pose proof (WaveManager_update_shape _ _ _ _ _ _ _ W) as [_ Hshape].
  destruct (updateEnemies_kept _ _ _ _ _ E) as (_ & _ & Hcast).
  simpl in Hcast. destruct (sameCast_facts _ _ Hcast) as (Hlen2 & _).
  destruct (updateTowers_shape _ _ _ _ _ _ _ T) as (F & fresh & -> & Hfresh & _).
  destruct (updateProjectiles_cast _ _ _ _ _ P) as (Hcast' & _).
  destruct (sameCast_facts _ _ Hcast') as (Hlen3 & _).
  pose proof (updateProjectiles_length _ _ _ _ _ P) as Hps.
  rewrite length_app in Hps.
  split; [exact F|]. split; [lia|]. split; [|repeat split].
  rewrite Hlen3, Hlen2.
  destruct Hshape as [[_ ->]|(type & stats & _ & _ & ->)];
    [lia|rewrite length_app; simpl; lia].
Qed.
